(** * Solana Playground: terminal command dispatcher and theme manager

    A shallow embedding of
    - [client/src/utils/pg/command/command.ts] (the command dispatcher
      [PgCommandManager.execute], [formatCmdList], [getEventName]) and
    - [client/src/utils/pg/theme/theme.ts] (the theme manager
      [PgThemeManager.set], [convertToCSS] and the default-filling pass),
    together with the properties of both that the specification states.

    Conventions.  A JavaScript string is a [string]; every character stands
    for one code unit below 256, so that [String.length] is the [length]
    property.  [undefined] is [None] where a value may be absent.  A thrown
    exception is the [Throw] outcome; [await] on a settled promise is the
    outcome of the awaited computation. *)

From stdpp Require Import base option list strings gmap sorting.
From Stdlib Require Import Ascii ZArith Lia DecimalString.

Set Warnings "-register-all".

(** ** Exceptions *)

(** The values the modelled code throws: [new Error(message)], and the two
    built-in errors raised by the engine itself. *)
Inductive JsError : Type :=
| Error (message : string)
| TypeError
| RangeError.

Inductive Outcome (A : Type) : Type :=
| Return (a : A)
| Throw (e : JsError).
Arguments Return {A} a.
Arguments Throw {A} e.

Definition obind {A B : Type} (o : Outcome A) (k : A → Outcome B) : Outcome B :=
  match o with
  | Return a => k a
  | Throw e => Throw e
  end.

Notation "'try!' x ':=' o 'in' k" := (obind o (fun x => k))
  (at level 10, x name, o at level 100, k at level 200, only parsing).

(** ** Strings *)

Definition nl : string := String (ascii_of_nat 10) "".

(** Template-literal rendering of a non-negative integer. *)
Definition showNat (n : nat) : string := NilEmpty.string_of_uint (Nat.to_uint n).

(** White space as [String.prototype.trim] sees it, among code units below
    256: TAB, LF, VT, FF, CR, SPACE and NBSP. *)
Definition isWhiteSpace (c : ascii) : bool :=
  let n := nat_of_ascii c in
  ((9 <=? n) && (n <=? 13) || (n =? 32) || (n =? 160))%nat.

Fixpoint trimStart (s : string) : string :=
  match s with
  | EmptyString => EmptyString
  | String c s' => if isWhiteSpace c then trimStart s' else s
  end.

Fixpoint trimEnd (s : string) : string :=
  match s with
  | EmptyString => EmptyString
  | String c s' =>
      match trimEnd s' with
      | EmptyString => if isWhiteSpace c then EmptyString else String c EmptyString
      | t => String c t
      end
  end.

Definition trim (s : string) : string := trimEnd (trimStart s).

(** [s.split(" ")]: never empty, and ["".split(" ")] is [[""]]. *)
Fixpoint split (s : string) : list string :=
  match s with
  | EmptyString => [EmptyString]
  | String c s' =>
      if Ascii.eqb c " "%char then EmptyString :: split s'
      else match split s' with
           | t :: ts => String c t :: ts
           | [] => [String c EmptyString]
           end
  end.

(** [xs.join(sep)] on an array of strings. *)
Fixpoint join (sep : string) (xs : list string) : string :=
  match xs with
  | [] => ""
  | [x] => x
  | x :: rest => x +:+ sep +:+ join sep rest
  end.

(** A string is truthy when it is not empty; [undefined] is falsy. *)
Definition truthy (t : option string) : bool :=
  match t with
  | Some s => negb (String.eqb s "")
  | None => false
  end.

Definition isLetter (c : ascii) : bool :=
  let n := nat_of_ascii c in
  ((97 <=? n) && (n <=? 122) || (65 <=? n) && (n <=? 90) || (n =? 45))%nat.

Fixpoint allLetters (s : string) : bool :=
  match s with
  | EmptyString => true
  | String c s' => isLetter c && allLetters s'
  end.

(** [/^[a-zA-Z-]+$/.test(s)] *)
Definition letterName (s : string) : bool :=
  negb (String.eqb s "") && allLetters s.

(** * The command dispatcher ([command.ts]) *)

Module Command.

(** ** Data model *)

(** [Arg]: a positional argument spec.  An absent [optional] flag reads as
    [false]. *)
Record Arg : Type := mkArg {
  arg_name : string;
  optional : bool;
}.

(** [ParsedInput]: what a handler receives next to the input line.  A key of
    [parsed_args] bound to [None] is a property holding [undefined]. *)
Record ParsedInput : Type := mkParsed {
  parsed_args : gmap string (option string);
}.

(** [Arrayable<T>] is [T | T[]]; [PgCommon.toArray] makes it an array. *)
Inductive Arrayable (A : Type) : Type :=
| One (a : A)
| Many (l : list A).
Arguments One {A} a.
Arguments Many {A} l.

Definition toArray {A : Type} (x : Arrayable A) : list A :=
  match x with
  | One a => [a]
  | Many l => l
  end.

Inductive EventKind : Type := Start | Finish.

(** Get custom event name for the given command. *)
Definition getEventName (name : string) (kind : EventKind) : string :=
  match kind with
  | Start => "ondidrunstart" +:+ name
  | Finish => "ondidrunfinish" +:+ name
  end.

Section Dispatcher.

(** [World] is everything the callbacks of the command tree can read and
    change; [R] is what a handler returns. *)
Context {World R : Type}.

(** A precondition check [() => SyncOrAsync<void>] and a handler
    [(input, parsed) => R], as transitions of the world that may throw. *)
Definition PreCheck : Type := World → Outcome unit * World.
Definition Handler : Type := string → ParsedInput → World → Outcome R * World.

(** [CommandImpl]: [args], [preCheck], [run] and [subcommands] are optional
    properties. *)
Inductive Command : Type := mkCommand {
  name : string;
  description : string;
  preCheck : option (Arrayable PreCheck);
  args : option (list Arg);
  run : option Handler;
  subcommands : option (list Command);
}.

(** ** Effects of a dispatch *)

Inductive Detail : Type :=
| DInput (input : string)
| DResult (result : R).

(** What [execute] does to its environment, in order:
    [PgCommon.createAndDispatchCustomEvent], [PgTerminal.log], and the call
    of a handler together with how the call ended. *)
Inductive Effect : Type :=
| Dispatched (eventName : string) (detail : Detail)
| Logged (text : string)
| Ran (cmd : Command) (input : string) (parsed : ParsedInput) (out : Outcome R).

Record State : Type := mkState {
  world : World;
  trace : list Effect;
}.

Definition M (A : Type) : Type := State → Outcome A * State.

Definition ret {A : Type} (a : A) : M A := λ st, (Return a, st).
Definition throw {A : Type} (e : JsError) : M A := λ st, (Throw e, st).
Definition bind {A B : Type} (m : M A) (k : A → M B) : M B :=
  λ st, match m st with
        | (Return a, st') => k a st'
        | (Throw e, st') => (Throw e, st')
        end.

Notation "'let!' x ':=' m 'in' k" := (bind m (fun x => k))
  (at level 10, x pattern, m at level 100, k at level 200, only parsing).

Definition lift {A : Type} (o : Outcome A) : M A := λ st, (o, st).

Definition emit (e : Effect) : M unit :=
  λ st, (Return tt, mkState (world st) (trace st ++ [e])).

Definition dispatch (eventName : string) (detail : Detail) : M unit :=
  emit (Dispatched eventName detail).

Definition log (text : string) : M unit := emit (Logged text).

(** [await preCheck()] *)
Definition check (c : PreCheck) : M unit :=
  λ st, let (o, w) := c (world st) in (o, mkState w (trace st)).

(** [await cmd.run(input, { args: parsedArgs })] *)
Definition call (cmd : Command) (h : Handler) (input : string) (parsed : ParsedInput) : M R :=
  λ st, let (o, w) := h input parsed (world st) in
        (o, mkState w (trace st ++ [Ran cmd input parsed o])).

(** ** The engine and the terminal *)

(** [PgTerminal.italic], which decorates the name in the not-found message. *)
Variable italic : string → string.

(** [String.prototype.localeCompare]: negative, zero or positive. *)
Variable localeCompare : string → string → Z.

(** [Array.prototype.sort] with a comparator.  The array is sorted in place;
    the change of order of [cmd.subcommands] this leaves behind in the
    command tree is not part of the model. *)
Variable sort : (Command → Command → Z) → list Command → list Command.

(** Modelled from the spec: [PgTerminal.process] is defined in
    [../terminal], outside [command.ts].  It runs the callback it is given
    and hands its result or its exception to the caller of [execute]; the
    waiting for an earlier execution has no counterpart in a single
    dispatch. *)
Definition process {A : Type} (cb : M A) : M A := cb.

(** ** formatCmdList *)

(** [new Array(25 - len).fill(" ").reduce((acc, v) => acc + v)] *)
Definition padding (len : nat) : Outcome string :=
  let n := (25 - Z.of_nat len)%Z in
  if (n <? 0)%Z then Throw RangeError
  else match replicate (Z.to_nat n) " " with
       | [] => Throw TypeError
       | v :: vs => Return (fold_left String.append vs v)
       end.

(** The comparator of [formatCmdList]. *)
Definition cmdCompare (a b : Command) : Z :=
  if negb (letterName (name b)) then (-1)%Z
  else localeCompare (name a) (name b).

Fixpoint formatReduce (list : list Command) (acc : string) : Outcome string :=
  match list with
  | [] => Return acc
  | cmd :: rest =>
      try! pad := padding (String.length (name cmd)) in
      formatReduce rest
        (acc +:+ "    " +:+ name cmd +:+ pad +:+ description cmd +:+ nl)
  end.

(** Format the given list for terminal view. *)
Definition formatCmdList (list : list Command) : Outcome string :=
  formatReduce (sort cmdCompare list) "".

(** ** execute *)

(** The top-level commands: the entries of [PgCommandManager.commands], each
    a code name with its command. *)
Variable commands : list (string * Command).

(** [cmd.subcommands?.find((cmd) => cmd.name === token)] *)
Definition findSub (cmd : Command) (token : option string) : option Command :=
  match subcommands cmd, token with
  | Some subs, Some t => List.find (λ c, String.eqb (name c) t) subs
  | _, _ => None
  end.

(** [cmd.subcommands?.some((cmd) => cmd.name === nextToken)] *)
Definition someSub (cmd : Command) (nextToken : option string) : bool :=
  match subcommands cmd, nextToken with
  | Some subs, Some t => existsb (λ c, String.eqb (name c) t) subs
  | _, _ => false
  end.

Definition notFoundMessage (inputCmdName : string) : string :=
  "Command `" +:+ italic inputCmdName +:+ "` not found.".

Definition noSubcommandMessage (cmd : Command) (nextToken : string) : string :=
  "Subcommand doesn't exist: `" +:+ nextToken +:+ "`" +:+ nl +:+ nl +:+
  "Available subcommands: " +:+
  match subcommands cmd with
  | Some subs => join ", " (map name subs)
  | None => "undefined"
  end.

Definition tooManyMessage (count : nat) : string :=
  "Provided argument count is higher than expected: " +:+ showNat count.

Definition missingMessage (argName : string) : string :=
  "Argument not specified: `" +:+ argName +:+ "`".

Definition usageMessage (tokens : list string) (i : nat) (cmd : Command)
    (formatted : string) : string :=
  nl +:+ description cmd +:+ nl +:+ nl +:+
  "Usage: " +:+ join " " (take i tokens ++ [name cmd]) +:+ " <COMMAND>" +:+ nl +:+ nl +:+
  "Commands:" +:+ nl +:+ nl +:+ formatted.

(** [for (const preCheck of preChecks) await preCheck()] *)
Fixpoint runPreChecks (preChecks : list PreCheck) : M unit :=
  match preChecks with
  | [] => ret tt
  | c :: rest => let! _ := check c in runPreChecks rest
  end.

(** [parsedArgs[key] = inputArg] on the plain object [parsedArgs].  The
    key [__proto__] is the accessor of [Object.prototype]: its setter
    ignores a string and [undefined], so that the assignment defines no
    property. *)
Definition assign (key : string) (inputArg : option string)
    (parsedArgs : gmap string (option string)) : gmap string (option string) :=
  if String.eqb key "__proto__" then parsedArgs
  else <[key := inputArg]> parsedArgs.

(** The loop over [cmd.args] that fills [parsedArgs]; [i] is the index of
    the first spec of [specs]. *)
Fixpoint parseArgs (specs : list Arg) (i : nat) (inputArgs : list string)
    (parsedArgs : gmap string (option string)) : Outcome (gmap string (option string)) :=
  match specs with
  | [] => Return parsedArgs
  | arg :: rest =>
      let inputArg := inputArgs !! i in
      if negb (truthy inputArg) && negb (optional arg)
      then Throw (Error (missingMessage (arg_name arg)))
      else parseArgs rest (S i) inputArgs (assign (arg_name arg) inputArg parsedArgs)
  end.

(** [if (cmd.preCheck) { ... }]: a single check and an array of checks are
    both truthy. *)
Definition handleChecks (cmd : Command) : M unit :=
  match preCheck cmd with
  | Some preChecks => runPreChecks (toArray preChecks)
  | None => ret tt
  end.

(** [if (subCmd) cmd = subCmd] *)
Definition descend (cmd : Command) (token : option string) : Command :=
  match findSub cmd token with
  | Some subCmd => subCmd
  | None => cmd
  end.

(** [PgCommon.entries(PgCommandManager.commands).find(([cmdName]) =>
    cmdName === inputCmdName)]: the lookup is by code name. *)
Definition topLevel (inputCmdName : string) : option (string * Command) :=
  List.find (λ cmdDef, String.eqb (fst cmdDef) inputCmdName) commands.

(** How one turn of the loop over the tokens ends. *)
Inductive Step : Type :=
| Continue (cmd : Command) (inputArgs : list string)
| Break
| Returned (result : R).

(** The body of [for (const i in tokens)]; [inputArgs] is the variable
    [args] of the source. *)
Definition iteration (input cmdName : string) (tokens : list string)
    (i : nat) (cmd : Command) (inputArgs : list string) : M Step :=
  let token := tokens !! i in
  let nextToken := tokens !! (i + 1) in
  let cmd := descend cmd token in
  let! inputArgs :=
    if truthy nextToken && negb (someSub cmd nextToken) then
      let inputArgs := drop (i + 1) tokens in
      match args cmd with
      | None => throw (Error (noSubcommandMessage cmd (default "" nextToken)))
      | Some specs =>
          if (length specs <? length inputArgs)%nat
          then throw (Error (tooManyMessage (length inputArgs)))
          else ret inputArgs
      end
    else ret inputArgs in
  let! _ := handleChecks cmd in
  let isLast := (i =? length tokens - 1)%nat in
  if negb isLast && (length inputArgs =? 0)%nat then ret (Continue cmd inputArgs)
  else
    match run cmd with
    | None =>
        let! formatted :=
          lift (match subcommands cmd with
                | Some subs => formatCmdList subs
                | None => Throw TypeError
                end) in
        let! _ := log (usageMessage tokens i cmd formatted) in
        ret Break
    | Some handler =>
        let! parsedArgs := lift (parseArgs (default [] (args cmd)) 0 inputArgs ∅) in
        let! result := call cmd handler input (mkParsed parsedArgs) in
        let! _ := dispatch (getEventName cmdName Finish) (DResult result) in
        ret (Returned result)
    end.

(** [for (const i in tokens) { ... }] over the indices still to visit. *)
Fixpoint loop (input cmdName : string) (tokens : list string)
    (indices : list nat) (cmd : Command) (inputArgs : list string) : M (option R) :=
  match indices with
  | [] => ret None
  | i :: rest =>
      let! step := iteration input cmdName tokens i cmd inputArgs in
      match step with
      | Continue cmd inputArgs => loop input cmdName tokens rest cmd inputArgs
      | Break => ret None
      | Returned result => ret (Some result)
      end
  end.

(** Execute from the given input.  The result is [None] where the callback
    returns [undefined]. *)
Definition execute (input : string) : M (option R) :=
  process (
    let input := trim input in
    let tokens := split input in
    let inputCmdName := head tokens in
    if negb (truthy inputCmdName) then ret None
    else
      match topLevel (default "" inputCmdName) with
      | None => throw (Error (notFoundMessage (default "" inputCmdName)))
      | Some (cmdName, cmd) =>
          let! _ := dispatch (getEventName cmdName Start) (DInput input) in
          loop input cmdName tokens (seq 0 (length tokens)) cmd []
      end).

(** ** getNames and getCompletions *)

(** Get the available command names. *)
Definition getNames : list string := (λ cmdDef, name (snd cmdDef)) <$> commands.

(** [interface Completions { [key: string]: Completions }]: an object whose
    values are objects of the same kind, as the finite map of its own
    properties.  Command names are taken to be ordinary keys: a command
    named [__proto__], for which the assignment would set the prototype of
    the object, is outside the model. *)
Inductive Completions : Type := mkCompletions { entries : gmap string Completions }.

(** The object [completions[cmd.name]] once the loop of
    [recursivelyGetCompletions] is done with [cmd]: a new empty object,
    filled by the recursive call on [cmd.subcommands] when the command has
    the property (an empty array is truthy). *)
Fixpoint completionsOf (cmd : Command) : Completions :=
  match cmd with
  | mkCommand _ _ _ _ _ (Some subs) =>
      mkCompletions
        ((fix go (cmds : list Command) (completions : gmap string Completions) :=
            match cmds with
            | [] => completions
            | c :: rest => go rest (<[name c := completionsOf c]> completions)
            end) subs ∅)
  | mkCommand _ _ _ _ _ None => mkCompletions ∅
  end.



End Dispatcher.

Notation "'let!' x ':=' m 'in' k" := (bind m (fun x => k))
  (at level 10, x pattern, m at level 100, k at level 200, only parsing).

Arguments Command : clear implicits.
Arguments Effect : clear implicits.
Arguments State : clear implicits.

End Command.

(** * The theme manager ([theme.ts]) *)

Module Theme.

(** ** Values *)

(** The numbers of the engine: literals, [NaN], addition, truthiness and
    conversion to a string. *)
Class JsNumber (Num : Type) : Type := {
  num_lit : nat → Num;
  num_nan : Num;
  num_add : Num → Num → Num;
  num_falsy : Num → bool;
  num_show : Num → string;
}.

Section Manager.

Context {Num : Type} {numbers : JsNumber Num}.

(** The values a theme is made of: primitives and plain objects.  An object
    is the list of its own properties in the order of [Object.keys].  The
    theme is a tree: it is cloned before it is filled, and the objects the
    filling stores in it ([this._font], the [DEFAULT_*] constants) are never
    written through it. *)
Inductive JsValue : Type :=
| JUndefined
| JNull
| JBool (b : bool)
| JNum (n : Num)
| JStr (s : string)
| JObj (props : list (string * JsValue)).

(** [v === undefined || v === null] *)
Definition nullish (v : JsValue) : bool :=
  match v with
  | JUndefined | JNull => true
  | _ => false
  end.

(** [!v] *)
Definition falsy (v : JsValue) : bool :=
  match v with
  | JUndefined | JNull => true
  | JBool b => negb b
  | JNum n => num_falsy n
  | JStr s => String.eqb s ""
  | JObj _ => false
  end.

(** [String(v)] *)
Definition toStr (v : JsValue) : string :=
  match v with
  | JUndefined => "undefined"
  | JNull => "null"
  | JBool true => "true"
  | JBool false => "false"
  | JNum n => num_show n
  | JStr s => s
  | JObj _ => "[object Object]"
  end.

(** [Number(v)] of a value that is neither a string nor an object. *)
Definition toNumber (v : JsValue) : Num :=
  match v with
  | JNull | JBool false => num_lit 0
  | JBool true => num_lit 1
  | JNum n => n
  | _ => num_nan
  end.

Definition stringLike (v : JsValue) : bool :=
  match v with
  | JStr _ | JObj _ => true
  | _ => false
  end.

(** [a + b] *)
Definition plus (a b : JsValue) : JsValue :=
  if stringLike a || stringLike b then JStr (toStr a +:+ toStr b)
  else JNum (num_add (toNumber a) (toNumber b)).

Definition lookupProp (k : string) (props : list (string * JsValue)) : option JsValue :=
  snd <$> List.find (λ kv, String.eqb (fst kv) k) props.

(** [o[k]] on the properties of an object. *)
Definition getProp (k : string) (props : list (string * JsValue)) : JsValue :=
  default JUndefined (lookupProp k props).

(** The properties of an object are listed in the order of
    [OrdinaryOwnPropertyKeys]: the keys that are array indices in ascending
    order, then the other keys in the order they were created in. *)

Definition digit (c : ascii) : option N :=
  let n := N_of_ascii c in
  if ((48 <=? n) && (n <=? 57))%N then Some (n - 48)%N else None.

Fixpoint digits (s : string) (acc : N) : option N :=
  match s with
  | EmptyString => Some acc
  | String c s' =>
      match digit c with
      | Some d => digits s' (10 * acc + d)%N
      | None => None
      end
  end.

(** The array index a key stands for: the key is the canonical decimal
    string of an integer from 0 to 2^32 - 2. *)
Definition arrayIndex (k : string) : option N :=
  match k with
  | EmptyString => None
  | String c rest =>
      if Ascii.eqb c "0" && negb (String.eqb rest "") then None
      else match digits k 0 with
           | Some n => if (n <=? 4294967294)%N then Some n else None
           | None => None
           end
  end.

(** The place of a key among the keys of an object: an array index goes by
    its number, every other key after all of them. *)
Definition rank (k : string) : N := default 4294967295%N (arrayIndex k).

(** A property the object has keeps its place. *)
Fixpoint replaceProp (k : string) (v : JsValue) (props : list (string * JsValue))
    : list (string * JsValue) :=
  match props with
  | [] => []
  | (k', v') :: rest =>
      if String.eqb k' k then (k, v) :: rest else (k', v') :: replaceProp k v rest
  end.

(** A new property goes before the first key of a higher rank: an array
    index among the array indices, any other key at the end. *)
Fixpoint addProp (k : string) (v : JsValue) (props : list (string * JsValue))
    : list (string * JsValue) :=
  match props with
  | [] => [(k, v)]
  | (k', v') :: rest =>
      if (rank k <? rank k')%N then (k, v) :: props else (k', v') :: addProp k v rest
  end.

(** [o[k] = v] on the properties of an object. *)
Definition setProp (k : string) (v : JsValue) (props : list (string * JsValue))
    : list (string * JsValue) :=
  match lookupProp k props with
  | Some _ => replaceProp k v props
  | None => addProp k v props
  end.

(** [o.k]: a [TypeError] on [undefined] and [null]; a primitive has no
    property of the names the theme uses. *)
Definition member (o : JsValue) (k : string) : Outcome JsValue :=
  match o with
  | JUndefined | JNull => Throw TypeError
  | JObj props => Return (getProp k props)
  | _ => Return JUndefined
  end.

(** [v.k1.k2...] *)
Fixpoint readPath (path : list string) (v : JsValue) : Outcome JsValue :=
  match path with
  | [] => Return v
  | k :: rest => try! x := member v k in readPath rest x
  end.

(** [v.k1?.k2...]: every step says whether it is written [?.]. *)
Fixpoint readSteps (steps : list (string * bool)) (v : JsValue) : Outcome JsValue :=
  match steps with
  | [] => Return v
  | (k, optional) :: rest =>
      if optional && nullish v then Return JUndefined
      else try! x := member v k in readSteps rest x
  end.

(** [t.k1.k2... = v] in strict mode. *)
Fixpoint writePath (path : list string) (v : JsValue) (t : JsValue) : Outcome JsValue :=
  match path with
  | [] => Return v
  | k :: rest =>
      match t with
      | JObj props =>
          try! child := writePath rest v (getProp k props) in
          Return (JObj (setProp k child props))
      | _ => Throw TypeError
      end
  end.

(** ** Paths as they are written *)

Fixpoint dotted (s : string) : list string :=
  match s with
  | EmptyString => [EmptyString]
  | String c s' =>
      if Ascii.eqb c "."%char then EmptyString :: dotted s'
      else match dotted s' with
           | t :: ts => String c t :: ts
           | [] => [String c EmptyString]
           end
  end.

(** The name in a segment and whether the segment ends in [?]. *)
Fixpoint segment (s : string) : string * bool :=
  match s with
  | EmptyString => (EmptyString, false)
  | String "?" EmptyString => (EmptyString, true)
  | String c s' => let (n, q) := segment s' in (String c n, q)
  end.

Fixpoint stepsFrom (optional : bool) (segments : list string) : list (string * bool) :=
  match segments with
  | [] => []
  | s :: rest => let (n, q) := segment s in (n, optional) :: stepsFrom q rest
  end.

(** ["a.b?.c"] is [.a.b?.c]. *)
Definition steps (s : string) : list (string * bool) := stepsFrom false (dotted s).

Definition path (s : string) : list string := fst <$> steps s.

(** ** The statements of the filling pass *)

(** The right-hand sides: a value of the module ([Lit]), a property of one
    ([Of]), a read of [this._theme] ([FromTheme]), [+], a template literal
    with its first text and then every hole with the text after it, and a
    choice on the truthiness of a condition. *)
Inductive Expr : Type :=
| Lit (v : JsValue)
| Of (v : JsValue) (k : string)
| FromTheme (steps : list (string * bool))
| Plus (e1 e2 : Expr)
| Template (text : string) (holes : list (Expr * string))
| Cond (c e1 e2 : Expr).

(** The holes of a template literal from left to right, each converted to
    a string and followed by its text. *)
Fixpoint evalHoles (ev : Expr → Outcome JsValue) (holes : list (Expr * string))
    (acc : string) : Outcome string :=
  match holes with
  | [] => Return acc
  | (e, text) :: rest =>
      try! v := ev e in evalHoles ev rest (acc +:+ toStr v +:+ text)
  end.

Fixpoint eval (theme : JsValue) (e : Expr) : Outcome JsValue :=
  match e with
  | Lit v => Return v
  | Of v k => member v k
  | FromTheme steps => readSteps steps theme
  | Plus e1 e2 =>
      try! a := eval theme e1 in
      try! b := eval theme e2 in
      Return (plus a b)
  | Template text holes =>
      try! s := evalHoles (eval theme) holes text in
      Return (JStr s)
  | Cond c e1 e2 =>
      try! b := eval theme c in
      if falsy b then eval theme e2 else eval theme e1
  end.

(** When a statement assigns: [x ??= e] or [if (!x) x = e]. *)
Inductive Guard : Type := IfNullish | IfFalsy.

Definition unset (g : Guard) (v : JsValue) : bool :=
  match g with
  | IfNullish => nullish v
  | IfFalsy => falsy v
  end.

Record Stmt : Type := mkStmt {
  guard : Guard;
  target : list string;
  value : Expr;
}.

(** One statement on [this._theme]. *)
Definition step (s : Stmt) (theme : JsValue) : Outcome JsValue :=
  try! current := readPath (target s) theme in
  if unset (guard s) current
  then try! v := eval theme (value s) in writePath (target s) v theme
  else Return theme.

(** Statements in order, on the theme they change in place: after an
    exception the theme is as the statements before have left it. *)
Fixpoint exec (stmts : list Stmt) (theme : JsValue) : Outcome unit * JsValue :=
  match stmts with
  | [] => (Return tt, theme)
  | s :: rest =>
      match step s theme with
      | Return theme' => exec rest theme'
      | Throw e => (Throw e, theme)
      end
  end.

Definition theme (s : string) : Expr := FromTheme (steps s).
Definition str (s : string) : Expr := Lit (JStr s).
Definition num (n : nat) : Expr := Lit (JNum (num_lit n)).
Definition obj : Expr := Lit (JObj []).
Definition tmpl (text : string) (holes : list (Expr * string)) : Expr := Template text holes.
Definition cond (c e1 e2 : Expr) : Expr := Cond c e1 e2.

Notation "p ??= e" := (mkStmt IfNullish (path p) e) (at level 70, no associativity).
Notation "p !!= e" := (mkStmt IfFalsy (path p) e) (at level 70, no associativity).
Notation "a +! b" := (Plus a b) (at level 50, left associativity).

(** ** The defaults *)

(** The constants of [./default]. *)
Variables DEFAULT_BORDER_RADIUS DEFAULT_BOX_SHADOW DEFAULT_FONT_OTHER
  DEFAULT_SCROLLBAR DEFAULT_TRANSITION DEFAULT_TRANSPARENCY : JsValue.

(** Set default transparency *)
Definition _transparency : list Stmt :=
  [ "transparency" ??= Lit DEFAULT_TRANSPARENCY ].

(** Set default borderRadius *)
Definition _borderRadius : list Stmt :=
  [ "borderRadius" ??= Lit DEFAULT_BORDER_RADIUS ].

(** Set default boxShadow *)
Definition _boxShadow : list Stmt :=
  [ "boxShadow" ??= Lit DEFAULT_BOX_SHADOW ].

(** Set default scrollbar *)
Definition _scrollbar : list Stmt :=
  [ "scrollbar" !!= cond (theme "isDark") (Of DEFAULT_SCROLLBAR "dark") (Of DEFAULT_SCROLLBAR "light") ].

(** Set default transition *)
Definition _transition : list Stmt :=
  [ "transition" ??= Lit DEFAULT_TRANSITION ].

(** Set default state colors *)
Definition _stateColors : list Stmt :=
  [ "colors.state.disabled.bg" ??= (theme "colors.state.disabled.color" +! theme "transparency.low");
    "colors.state.error.bg" ??= (theme "colors.state.error.color" +! theme "transparency.low");
    "colors.state.hover.bg" ??= (theme "colors.state.hover.color" +! theme "transparency.low");
    "colors.state.info.bg" ??= (theme "colors.state.info.color" +! theme "transparency.low");
    "colors.state.success.bg" ??= (theme "colors.state.success.color" +! theme "transparency.low");
    "colors.state.warning.bg" ??= (theme "colors.state.warning.color" +! theme "transparency.low") ].

(** Set default components *)
Definition _components : list Stmt :=
  [ "components" ??= obj ].

(** Set default skeleton component *)
Definition _skeleton : list Stmt :=
  [ "components.skeleton" ??= obj;
    "components.skeleton.bg" ??= str "#44475A";
    "components.skeleton.highlightColor" ??= str "#343746";
    "components.skeleton.borderRadius" ??= theme "borderRadius" ].

(** Set default button component *)
Definition _button : list Stmt :=
  [ "components.button" ??= obj;
    "components.button.default" ??= obj;
    "components.button.default.bg" ??= str "transparent";
    "components.button.default.color" ??= str "inherit";
    "components.button.default.borderColor" ??= str "transparent";
    "components.button.default.borderRadius" ??= theme "borderRadius";
    "components.button.default.fontSize" ??= theme "font.code.size.medium";
    "components.button.default.fontWeight" ??= str "normal";
    "components.button.default.hover" ??= obj ].

(** Set default menu component *)
Definition _menu : list Stmt :=
  [ "components.menu" ??= obj;
    "components.menu.default" ??= obj;
    "components.menu.default.bg" ??= theme "colors.default.bgPrimary";
    "components.menu.default.borderRadius" ??= theme "borderRadius";
    "components.menu.default.padding" ??= str "0.25rem 0";
    "components.menu.default.boxShadow" ??= theme "boxShadow" ].

(** Set default input component *)
Definition _input : list Stmt :=
  [ "components.input" ??= obj;
    "components.input.bg" ??= theme "colors.default.bgPrimary";
    "components.input.color" ??= theme "colors.default.textPrimary";
    "components.input.borderColor" ??= theme "colors.default.borderColor";
    "components.input.borderRadius" ??= theme "borderRadius";
    "components.input.padding" ??= str "0.25rem 0.5rem";
    "components.input.boxShadow" ??= str "none";
    "components.input.fontWeight" ??= str "normal";
    "components.input.fontSize" ??= theme "font.code.size.medium";
    "components.input.focus" ??= obj;
    "components.input.focus.outline" ??= tmpl "1px solid " [((theme "colors.default.primary" +! theme "transparency.medium"), "")];
    "components.input.focusWithin" ??= obj;
    "components.input.focusWithin.outline" ??= tmpl "1px solid " [((theme "colors.default.primary" +! theme "transparency.medium"), "")] ].

(** Set default select component *)
Definition _select : list Stmt :=
  [ "components.select" ??= obj;
    "components.select.default" ??= obj;
    "components.select.default.fontSize" ??= theme "font.code.size.small";
    "components.select.control" ??= obj;
    "components.select.control.bg" ??= theme "components.input.bg";
    "components.select.control.borderColor" ??= theme "colors.default.borderColor";
    "components.select.control.borderRadius" ??= theme "borderRadius";
    "components.select.control.minHeight" ??= str "fit-content";
    "components.select.control.hover" ??= obj;
    "components.select.control.hover.borderColor" ??= theme "colors.state.hover.color";
    "components.select.control.hover.cursor" ??= str "pointer";
    "components.select.control.focusWithin" ??= obj;
    "components.select.control.focusWithin.boxShadow" ??= tmpl "0 0 0 1px " [((theme "colors.default.primary" +! theme "transparency.high"), "")];
    "components.select.menu" ??= obj;
    "components.select.menu.bg" ??= theme "components.input.bg";
    "components.select.menu.color" ??= theme "components.input.color";
    "components.select.menu.borderRadius" ??= theme "components.input.borderRadius";
    "components.select.option" ??= obj;
    "components.select.option.bg" ??= theme "components.input.bg";
    "components.select.option.color" ??= theme "colors.default.textSecondary";
    "components.select.option.cursor" ??= str "pointer";
    "components.select.option.before" ??= obj;
    "components.select.option.before.color" ??= theme "colors.default.primary";
    "components.select.option.focus" ??= obj;
    "components.select.option.focus.bg" ??= theme "colors.state.hover.bg";
    "components.select.option.focus.color" ??= theme "colors.default.primary";
    "components.select.option.active" ??= obj;
    "components.select.option.active.bg" ??= theme "colors.state.hover.bg";
    "components.select.singleValue" ??= obj;
    "components.select.singleValue.bg" ??= theme "components?.input?.bg";
    "components.select.singleValue.color" ??= theme "components?.input?.color";
    "components.select.input" ??= obj;
    "components.select.input.color" ??= theme "components?.input?.color";
    "components.select.groupHeading" ??= obj;
    "components.select.groupHeading.color" ??= theme "colors.default.textSecondary";
    "components.select.dropdownIndicator" ??= obj;
    "components.select.dropdownIndicator.padding" ??= str "0.25rem";
    "components.select.indicatorSeparator" ??= obj;
    "components.select.indicatorSeparator.bg" ??= theme "colors.default.textSecondary" ].

(** Set default skeleton component *)
Definition _toast : list Stmt :=
  [ "components.toast" ??= obj;
    "components.toast.default" ??= obj;
    "components.toast.default.bg" ??= theme "colors.default.bgPrimary";
    "components.toast.default.color" ??= theme "colors.default.textPrimary";
    "components.toast.default.borderRadius" ??= theme "borderRadius";
    "components.toast.default.fontFamily" ??= theme "font.code.family";
    "components.toast.default.fontSize" ??= theme "font.code.size.medium";
    "components.toast.default.cursor" ??= str "default";
    "components.toast.progress" ??= obj;
    "components.toast.progress.bg" ??= theme "colors.default.primary";
    "components.toast.closeButton" ??= obj;
    "components.toast.closeButton.color" ??= theme "colors.default.textSecondary" ].

(** Set default tooltip component *)
Definition _tooltip : list Stmt :=
  [ "components.tooltip" ??= obj;
    "components.tooltip.bg" ??= theme "colors.default.bgPrimary";
    "components.tooltip.color" ??= theme "colors.default.textPrimary";
    "components.tooltip.bgSecondary" ??= theme "colors.default.bgSecondary";
    "components.tooltip.borderRadius" ??= theme "borderRadius";
    "components.tooltip.boxShadow" ??= theme "boxShadow";
    "components.tooltip.fontSize" ??= theme "font.code.size.small" ].

(** Set default markdown component *)
Definition _markdown : list Stmt :=
  [ "components.markdown" ??= obj;
    "components.markdown.default" ??= obj;
    "components.markdown.default.bg" ??= str "inherit";
    "components.markdown.default.color" ??= theme "colors.default.textPrimary";
    "components.markdown.default.fontFamily" ??= theme "font.other.family";
    "components.markdown.default.fontSize" ??= theme "font.other.size.medium";
    "components.markdown.code" ??= obj;
    "components.markdown.code.bg" ??= theme "colors.default.bgSecondary";
    "components.markdown.code.color" ??= theme "colors.default.textPrimary";
    "components.markdown.code.borderRadius" ??= theme "borderRadius";
    "components.markdown.code.fontFamily" ??= theme "font.code.family";
    "components.markdown.code.fontSize" ??= theme "font.code.size.medium" ].

(** Set default sidebar component *)
Definition _sidebar : list Stmt :=
  [ "components.sidebar" ??= obj;
    "components.sidebar.default" ??= obj;
    "components.sidebar.left" ??= obj;
    "components.sidebar.left.default" ??= obj;
    "components.sidebar.left.default.bg" ??= theme "colors.default.bgPrimary";
    "components.sidebar.left.default.borderRight" ??= tmpl "1px solid " [(theme "colors.default.borderColor", "")];
    "components.sidebar.left.iconButton" ??= obj;
    "components.sidebar.left.iconButton.default" ??= obj;
    "components.sidebar.left.iconButton.selected" ??= obj;
    "components.sidebar.left.iconButton.selected.bg" ??= theme "colors.state.hover.bg";
    "components.sidebar.left.iconButton.selected.borderLeft" ??= tmpl "2px solid " [(theme "colors.default.secondary", "")];
    "components.sidebar.left.iconButton.selected.borderRight" ??= str "2px solid transparent";
    "components.sidebar.right" ??= obj;
    "components.sidebar.right.default" ??= obj;
    "components.sidebar.right.default.bg" ??= theme "colors.default.bgSecondary";
    "components.sidebar.right.default.otherBg" ??= theme "colors.default.bgPrimary";
    "components.sidebar.right.default.borderRight" ??= tmpl "1px solid " [(theme "colors.default.borderColor", "")];
    "components.sidebar.right.title" ??= obj;
    "components.sidebar.right.title.borderBottom" ??= tmpl "1px solid " [(theme "colors.default.borderColor", ";")];
    "components.sidebar.right.title.color" ??= theme "colors.default.textSecondary";
    "components.sidebar.right.title.fontSize" ??= theme "font.code.size.large" ].

(** Set default editor *)
Definition _editor : list Stmt :=
  [ "colors.editor" ??= obj;
    "colors.editor.bg" ??= theme "colors.default.bgPrimary";
    "colors.editor.color" ??= theme "colors.default.textPrimary";
    "colors.editor.cursorColor" ??= theme "colors.default.textSecondary";
    "colors.editor.activeLine" ??= obj;
    "colors.editor.activeLine.bg" ??= str "inherit";
    "colors.editor.activeLine.borderColor" ??= theme "colors.default.borderColor";
    "colors.editor.selection" ??= obj;
    "colors.editor.selection.bg" ??= (theme "colors.default.primary" +! theme "transparency.medium");
    "colors.editor.selection.color" ??= str "inherit";
    "colors.editor.searchMatch" ??= obj;
    "colors.editor.searchMatch.bg" ??= (theme "colors.default.textSecondary" +! theme "transparency.medium");
    "colors.editor.searchMatch.color" ??= str "inherit";
    "colors.editor.searchMatch.selectedBg" ??= str "inherit";
    "colors.editor.searchMatch.selectedColor" ??= str "inherit";
    "colors.editor.gutter" ??= obj;
    "colors.editor.gutter.bg" ??= theme "colors.editor.bg";
    "colors.editor.gutter.color" ??= theme "colors.default.textSecondary";
    "colors.editor.tooltip" ??= obj;
    "colors.editor.tooltip.bg" ??= theme "colors.default.bgPrimary";
    "colors.editor.tooltip.color" ??= theme "colors.default.textPrimary";
    "colors.editor.tooltip.selectedBg" ??= (theme "colors.default.primary" +! theme "transparency.medium");
    "colors.editor.tooltip.selectedColor" ??= theme "colors.default.textPrimary" ].

(** Set default home *)
Definition _home : list Stmt :=
  [ "components.home" ??= obj;
    "components.home.default" ??= obj;
    "components.home.default.bg" ??= theme "colors.default.bgSecondary";
    "components.home.default.color" ??= theme "colors.default.textPrimary";
    "components.home.default.height" ??= str "100%";
    "components.home.default.padding" ??= str "0 8%";
    "components.home.title" ??= obj;
    "components.home.title.color" ??= theme "colors.default.textSecondary";
    "components.home.title.padding" ??= str "2rem";
    "components.home.title.fontWeight" ??= str "bold";
    "components.home.title.fontSize" ??= str "2rem";
    "components.home.title.textAlign" ??= str "center";
    "components.home.resources" ??= obj;
    "components.home.resources.default" ??= obj;
    "components.home.resources.default.maxWidth" ??= str "53rem";
    "components.home.resources.title" ??= obj;
    "components.home.resources.title.marginBottom" ??= str "1rem";
    "components.home.resources.title.fontWeight" ??= str "bold";
    "components.home.resources.title.fontSize" ??= str "1.25rem";
    "components.home.resources.card" ??= obj;
    "components.home.resources.card.default" ??= obj;
    "components.home.resources.card.default.bg" ??= theme "colors.default.bgPrimary";
    "components.home.resources.card.default.color" ??= theme "colors.default.textPrimary";
    "components.home.resources.card.default.border" ??= tmpl "1px solid " [((theme "colors.default.borderColor" +! theme "transparency.medium"), "")];
    "components.home.resources.card.default.borderRadius" ??= theme "borderRadius";
    "components.home.resources.card.default.width" ??= str "15rem";
    "components.home.resources.card.default.height" ??= str "15rem";
    "components.home.resources.card.default.padding" ??= str "1rem 1.5rem 1.5rem 1.5rem";
    "components.home.resources.card.default.marginRight" ??= str "2rem";
    "components.home.resources.card.default.marginBottom" ??= str "2rem";
    "components.home.resources.card.image" ??= obj;
    "components.home.resources.card.image.width" ??= str "1.25rem";
    "components.home.resources.card.image.height" ??= str "1.25rem";
    "components.home.resources.card.image.marginRight" ??= str "0.5rem";
    "components.home.resources.card.title" ??= obj;
    "components.home.resources.card.title.display" ??= str "flex";
    "components.home.resources.card.title.alignItems" ??= str "center";
    "components.home.resources.card.title.height" ??= str "20%";
    "components.home.resources.card.title.fontWeight" ??= str "bold";
    "components.home.resources.card.title.fontSize" ??= theme "font.code.size.xlarge";
    "components.home.resources.card.description" ??= obj;
    "components.home.resources.card.description.color" ??= theme "colors.default.textSecondary";
    "components.home.resources.card.description.height" ??= str "60%";
    "components.home.resources.card.button" ??= obj;
    "components.home.resources.card.button.width" ??= str "100%";
    "components.home.tutorials" ??= obj;
    "components.home.tutorials.default" ??= obj;
    "components.home.tutorials.default.minWidth" ??= str "16rem";
    "components.home.tutorials.default.maxWidth" ??= str "27rem";
    "components.home.tutorials.title" ??= obj;
    "components.home.tutorials.title.marginBottom" ??= str "1rem";
    "components.home.tutorials.title.fontWeight" ??= str "bold";
    "components.home.tutorials.title.fontSize" ??= str "1.25rem";
    "components.home.tutorials.card" ??= obj;
    "components.home.tutorials.card.bg" ??= theme "colors.default.bgPrimary";
    "components.home.tutorials.card.color" ??= theme "colors.default.textPrimary";
    "components.home.tutorials.card.border" ??= tmpl "1px solid
      " [((theme "colors.default.borderColor" +! theme "transparency.medium"), "")];
    "components.home.tutorials.card.borderRadius" ??= theme "borderRadius";
    "components.home.tutorials.card.padding" ??= str "1rem";
    "components.home.tutorials.card.marginBottom" ??= str "1rem";
    "components.home.tutorials.card.transition" ??= tmpl "all " [(theme "transition.duration.medium", " "); (theme "transition.type", "")];
    "components.home.tutorials.card.display" ??= str "flex";
    "components.home.tutorials.card.alignItems" ??= str "center";
    "components.home.tutorials.card.hover" ??= obj;
    "components.home.tutorials.card.hover.bg" ??= theme "colors.state.hover.bg" ].

(** Set default terminal component *)
Definition _terminal : list Stmt :=
  [ "components.terminal" ??= obj;
    "components.terminal.default" ??= obj;
    "components.terminal.default.bg" ??= theme "colors.default.bgPrimary";
    "components.terminal.default.color" ??= theme "colors.default.textPrimary";
    "components.terminal.default.borderTop" ??= tmpl "1px solid " [(theme "colors.default.primary", ";")];
    "components.terminal.xterm" ??= obj;
    "components.terminal.xterm.textPrimary" ??= theme "colors.default.textPrimary";
    "components.terminal.xterm.textSecondary" ??= theme "colors.default.textSecondary";
    "components.terminal.xterm.primary" ??= theme "colors.default.primary";
    "components.terminal.xterm.secondary" ??= theme "colors.default.secondary";
    "components.terminal.xterm.success" ??= theme "colors.state.success.color";
    "components.terminal.xterm.error" ??= theme "colors.state.error.color";
    "components.terminal.xterm.warning" ??= theme "colors.state.warning.color";
    "components.terminal.xterm.info" ??= theme "colors.state.info.color";
    "components.terminal.xterm.selectionBg" ??= theme "colors.default.textSecondary";
    "components.terminal.xterm.cursor" ??= obj;
    "components.terminal.xterm.cursor.color" ??= theme "colors.default.textPrimary";
    "components.terminal.xterm.cursor.accentColor" ??= theme "components.terminal.default.bg" ].

(** Set default bottom bar component *)
Definition _bottom : list Stmt :=
  [ "components.bottom" ??= obj;
    "components.bottom.default" ??= obj;
    "components.bottom.default.bg" ??= theme "colors.default.primary";
    "components.bottom.default.color" ??= theme "colors.default.textPrimary";
    "components.bottom.default.padding" ??= str "0 0.5rem";
    "components.bottom.default.fontSize" ??= theme "font.code.size.small";
    "components.bottom.connect" ??= obj;
    "components.bottom.connect.border" ??= str "none";
    "components.bottom.connect.padding" ??= str "0 0.75rem";
    "components.bottom.connect.hover" ??= obj;
    "components.bottom.connect.hover.bg" ??= (theme "components.bottom.default.color" +! theme "transparency.low");
    "components.bottom.endpoint" ??= obj;
    "components.bottom.address" ??= obj;
    "components.bottom.balance" ??= obj ].

(** Set default tutorial component *)
Definition _tutorial : list Stmt :=
  [ "components.tutorial" ??= obj;
    "components.tutorial.default" ??= obj;
    "components.tutorial.default.bg" ??= theme "colors.default.bgSecondary";
    "components.tutorial.default.color" ??= theme "colors.default.textPrimary";
    "components.tutorial.default.flex" ??= num 1;
    "components.tutorial.default.overflow" ??= str "auto";
    "components.tutorial.default.opacity" ??= num 0;
    "components.tutorial.default.transition" ??= tmpl "opacity " [(theme "transition.duration.medium", " "); (theme "transition.type", "")];
    "components.tutorial.aboutPage" ??= obj;
    "components.tutorial.aboutPage.bg" ??= theme "colors.default.bgPrimary";
    "components.tutorial.aboutPage.borderBottomRightRadius" ??= theme "borderRadius";
    "components.tutorial.aboutPage.borderTopRightRadius" ??= theme "borderRadius";
    "components.tutorial.aboutPage.fontFamily" ??= theme "font.other.family";
    "components.tutorial.aboutPage.fontSize" ??= theme "font.other.size.medium";
    "components.tutorial.aboutPage.padding" ??= str "2rem";
    "components.tutorial.aboutPage.maxWidth" ??= str "60rem";
    "components.tutorial.tutorialPage" ??= obj;
    "components.tutorial.tutorialPage.bg" ??= theme "colors.default.bgPrimary";
    "components.tutorial.tutorialPage.fontFamily" ??= theme "font.other.family";
    "components.tutorial.tutorialPage.fontSize" ??= theme "font.other.size.medium";
    "components.tutorial.tutorialPage.padding" ??= str "2rem" ].

(** Set default tutorials component *)
Definition _tutorials : list Stmt :=
  [ "components.tutorials" ??= obj;
    "components.tutorials.default" ??= obj;
    "components.tutorials.default.bg" ??= theme "colors.default.bgSecondary";
    "components.tutorials.default.color" ??= theme "colors.default.textPrimary";
    "components.tutorials.default.fontFamily" ??= theme "font.other.family";
    "components.tutorials.default.fontSize" ??= theme "font.other.size.medium";
    "components.tutorials.card" ??= obj;
    "components.tutorials.card.default" ??= obj;
    "components.tutorials.card.default.bg" ??= theme "colors.default.bgPrimary";
    "components.tutorials.card.default.color" ??= theme "colors.default.textPrimary";
    "components.tutorials.card.default.border" ??= tmpl "1px solid " [((theme "colors.default.borderColor" +! theme "transparency.medium"), "")];
    "components.tutorials.card.default.borderRadius" ??= theme "borderRadius";
    "components.tutorials.card.default.boxShadow" ??= theme "boxShadow";
    "components.tutorials.card.default.transition" ??= tmpl "all " [(theme "transition.duration.medium", "
      "); (theme "transition.type", "")];
    "components.tutorials.card.gradient" ??= obj;
    "components.tutorials.card.info" ??= obj;
    "components.tutorials.card.info.default" ??= obj;
    "components.tutorials.card.info.default.padding" ??= str " 1rem 0.75rem";
    "components.tutorials.card.info.name" ??= obj;
    "components.tutorials.card.info.name.fontWeight" ??= str "bold";
    "components.tutorials.card.info.description" ??= obj;
    "components.tutorials.card.info.description.marginTop" ??= str "0.5rem";
    "components.tutorials.card.info.description.color" ??= theme "colors.default.textSecondary";
    "components.tutorials.card.info.category" ??= obj;
    "components.tutorials.card.info.category.padding" ??= str "0.5rem 0.75rem";
    "components.tutorials.card.info.category.bg" ??= theme "components.tutorials.default.bg";
    "components.tutorials.card.info.category.color" ??= theme "colors.default.textSecondary";
    "components.tutorials.card.info.category.fontSize" ??= theme "font.other.size.small";
    "components.tutorials.card.info.category.fontWeight" ??= str "bold";
    "components.tutorials.card.info.category.borderRadius" ??= theme "borderRadius";
    "components.tutorials.card.info.category.boxShadow" ??= theme "boxShadow";
    "components.tutorials.card.info.category.width" ??= str "fit-content" ].

(** Set default fonts *)
Definition _theme_fonts (font : JsValue) : list Stmt :=
  [ "font" ??= obj;
    "font.code" ??= Lit font;
    "font.other" ??= Lit DEFAULT_FONT_OTHER ].

(** ** The filling pass *)

(** Set defaults (order matters). *)
Definition fill (font : JsValue) : list Stmt :=
  _theme_fonts font ++ _transparency ++ _borderRadius ++ _boxShadow ++
  _scrollbar ++ _transition ++ _stateColors ++ _components ++ _skeleton ++
  _button ++ _menu ++ _input ++ _select ++ _toast ++ _tooltip ++ _markdown ++
  _sidebar ++ _editor ++ _home ++ _terminal ++ _bottom ++ _tutorial ++
  _tutorials.

(** ** convertToCSS *)

(** [PgCommon.toKebabFromCamel], which is defined in [../common], outside
    [theme.ts]. *)
Variable toKebabFromCamel : string → string.

Definition pseudoClass (key : string) : bool :=
  bool_decide (key ∈ ["hover"; "active"; "focus"; "focusWithin"]).

Definition pseudoElement (key : string) : bool :=
  bool_decide (key ∈ ["before"; "after"]).

(** The end of the callback of [reduce], for a key that is no pseudo key:
    only string and number values are allowed. *)
Definition declaration (key : string) (value : JsValue) : string :=
  let prop := if String.eqb key "bg" then "background" else toKebabFromCamel key in
  match value with
  | JStr s => prop +:+ ":" +:+ s +:+ ";"
  | JNum n => prop +:+ ":" +:+ num_show n +:+ ";"
  | _ => ""
  end.

(** [Object.keys(component).reduce(..., "")] over the properties still to
    visit; [convert] is [convertToCSS] itself. *)
Fixpoint reduceKeys (convert : JsValue → Outcome string)
    (props : list (string * JsValue)) (acc : string) : Outcome string :=
  match props with
  | [] => Return acc
  | (key, value) :: rest =>
      if pseudoClass key then
        try! nested := convert value in
        reduceKeys convert rest
          (acc +:+ "&:" +:+ toKebabFromCamel key +:+ "{" +:+ nested +:+ "}")
      else if pseudoElement key then
        try! nested := convert value in
        reduceKeys convert rest
          (acc +:+ "&::" +:+ toKebabFromCamel key +:+ "{" +:+ nested +:+ "}")
      else reduceKeys convert rest (acc +:+ declaration key value)
  end.

(** The keys of a string are its indices, each with its character. *)
Definition characters (s : string) : list (string * JsValue) :=
  imap (λ i c, (showNat i, JStr (String c EmptyString))) (String.list_ascii_of_string s).

(** Convert the component object styles into CSS styles.  [Object.keys]
    throws on [undefined] and [null], and a number or a boolean has no
    keys. *)
Fixpoint convertToCSS (component : JsValue) : Outcome string :=
  match component with
  | JUndefined | JNull => Throw TypeError
  | JBool _ | JNum _ => Return ""
  | JStr s => Return (foldl (λ acc kv, acc +:+ declaration (fst kv) (snd kv)) "" (characters s))
  | JObj props => reduceKeys convertToCSS props ""
  end.

(** ** set *)

(** Modelled from the spec: [ImportableTheme] and [PgFont] are declared in
    [./interface], outside [theme.ts].  An importable theme has a
    name and a loader whose module is either imported or rejected; a font
    is a family name with its size scale. *)
Record ImportableTheme : Type := mkImportable {
  name : string;
  importTheme : Outcome JsValue;
}.

Record PgFont : Type := mkFont {
  family : string;
  sizes : JsValue;
}.

Definition fontValue (font : option PgFont) : JsValue :=
  match font with
  | Some f => JObj [("family", JStr (family f)); ("size", sizes f)]
  | None => JUndefined
  end.

(** The events of [EventName] the manager dispatches. *)
Inductive EventName : Type := THEME_SET | THEME_FONT_SET.

(** The static fields of [PgThemeManager], the [localStorage] of the page
    and the custom events dispatched so far. *)
Record Manager : Type := mkManager {
  _theme : JsValue;
  _font : option PgFont;
  _themes : list ImportableTheme;
  _fonts : list PgFont;
  localStorage : gmap string string;
  dispatched : list (EventName * JsValue);
}.

(** Theme key in localStorage *)
Definition _THEME_KEY : string := "theme".

(** Font key in localStorage *)
Definition _FONT_KEY : string := "font".

Record Params : Type := mkParams {
  themeName : option string;
  fontFamily : option string;
}.

(** [params.themeName ??= localStorage.getItem(this._THEME_KEY) ??
    this._themes[0].name] *)
Definition resolveThemeName (params : Params) (m : Manager) : Outcome string :=
  match themeName params with
  | Some given => Return given
  | None =>
      match localStorage m !! _THEME_KEY with
      | Some stored => Return stored
      | None =>
          match _themes m with
          | first :: _ => Return (name first)
          | [] => Throw TypeError
          end
      end
  end.

(** [params.fontFamily ??= localStorage.getItem(this._FONT_KEY) ??
    this._fonts[0].family] *)
Definition resolveFontFamily (params : Params) (m : Manager) : Outcome string :=
  match fontFamily params with
  | Some given => Return given
  | None =>
      match localStorage m !! _FONT_KEY with
      | Some stored => Return stored
      | None =>
          match _fonts m with
          | first :: _ => Return (family first)
          | [] => Throw TypeError
          end
      end
  end.

Definition withTheme (m : Manager) (t : JsValue) : Manager :=
  mkManager t (_font m) (_themes m) (_fonts m) (localStorage m) (dispatched m).

Definition withFont (m : Manager) (f : option PgFont) : Manager :=
  mkManager (_theme m) f (_themes m) (_fonts m) (localStorage m) (dispatched m).

(** [localStorage.setItem(key, value)] *)
Definition setItem (key value : string) (m : Manager) : Manager :=
  mkManager (_theme m) (_font m) (_themes m) (_fonts m)
    (<[key := value]> (localStorage m)) (dispatched m).

(** [PgCommon.createAndDispatchCustomEvent(eventName, detail)] *)
Definition dispatchEvent (eventName : EventName) (detail : JsValue) (m : Manager) : Manager :=
  mkManager (_theme m) (_font m) (_themes m) (_fonts m) (localStorage m)
    (dispatched m ++ [(eventName, detail)]).

(** Set theme and font.  [structuredClone] of a tree is the tree. *)
Definition set (params : Params) (m : Manager) : Outcome unit * Manager :=
  match resolveThemeName params m with
  | Throw e => (Throw e, m)
  | Return themeName =>
  match resolveFontFamily params m with
  | Throw e => (Throw e, m)
  | Return fontFamily =>
    let importableTheme := List.find (λ t, String.eqb (name t) themeName) (_themes m) in
    let font := List.find (λ f, String.eqb (family f) fontFamily) (_fonts m) in
    match importableTheme with
    | None => (Throw TypeError, m)
    | Some importableTheme =>
      match try! module := importTheme importableTheme in member module "default" with
      | Throw e => (Throw e, m)
      | Return clone =>
        let m := withTheme m clone in
        match writePath ["name"] (JStr (name importableTheme)) (_theme m) with
        | Throw e => (Throw e, m)
        | Return named =>
          let m := withFont (withTheme m named) font in
          match exec (fill (fontValue (_font m))) (_theme m) with
          | (Throw e, partial) => (Throw e, withTheme m partial)
          | (Return _, filled) =>
              let m := withTheme m filled in
              let m := setItem _THEME_KEY themeName m in
              let m := dispatchEvent THEME_SET (_theme m) m in
              let m := setItem _FONT_KEY fontFamily m in
              let m := dispatchEvent THEME_FONT_SET (fontValue (_font m)) m in
              (Return tt, m)
          end
        end
      end
    end
  end
  end.

(** Create the initial theme and font from [localStorage]. *)
Definition create (themes : list ImportableTheme) (fonts : list PgFont) (m : Manager)
    : Outcome unit * Manager :=
  set (mkParams None None)
    (mkManager (_theme m) (_font m) themes fonts (localStorage m) (dispatched m)).

(** ** overrideDefaults *)

(** The own enumerable properties of a value, which [for (const key in v)]
    visits and [{ ...v }] copies: the properties of an object, the
    characters of a string, nothing for any other value. *)
Definition ownProps (v : JsValue) : list (string * JsValue) :=
  match v with
  | JObj props => props
  | JStr s => characters s
  | _ => []
  end.

(** A new object on which the given properties are defined in turn. *)
Definition objectLiteral (entries : list (string * JsValue)) : list (string * JsValue) :=
  foldl (λ acc kv, setProp (fst kv) (snd kv) acc) [] entries.

(** [typeof value === "object"], which holds of [null] as well. *)
Definition typeofObject (v : JsValue) : bool :=
  match v with
  | JObj _ | JNull => true
  | _ => false
  end.

(** [for (const key in overrides) { ... }] over the properties still to
    visit.  The assignment to [component[key]] throws on [undefined] and
    [null], and in strict mode on a primitive.  The keys are taken to be the
    keys of style properties: an own key [__proto__] of the overrides, for
    which the assignment would set the prototype of the component, is
    outside the model. *)
Fixpoint overrideLoop (entries : list (string * JsValue)) (component : JsValue)
    : Outcome JsValue :=
  match entries with
  | [] => Return component
  | (key, value) :: rest =>
      match component with
      | JObj props =>
          let assigned :=
            if typeofObject value
            then JObj (objectLiteral (ownProps (getProp key props) ++ ownProps value))
            else value in
          overrideLoop rest (JObj (setProp key assigned props))
      | _ => Throw TypeError
      end
  end.

(** Override default component styles with the given overrides.  The
    component is changed in place and returned; [component] and
    [overrides] are two objects. *)
Definition overrideDefaults (component overrides : JsValue) : Outcome JsValue :=
  if falsy overrides then Return component
  else overrideLoop (ownProps overrides) component.

End Manager.

Arguments JsValue : clear implicits.
Arguments Expr : clear implicits.
Arguments Stmt : clear implicits.
Arguments ImportableTheme : clear implicits.
Arguments PgFont : clear implicits.
Arguments Manager : clear implicits.

End Theme.

(** * Facts about strings and lists *)

Example split_ex : split "foo bar  baz" = ["foo"; "bar"; ""; "baz"].
Proof. reflexivity. Qed.
Example trim_ex : trim "  foo bar " = "foo bar".
Proof. reflexivity. Qed.

Lemma append_assoc (x y z : string) : (x +:+ y) +:+ z = x +:+ (y +:+ z).
Proof.
  induction x as [|a x IH]; [done|].
  change (String a ((x +:+ y) +:+ z) = String a (x +:+ (y +:+ z))). by f_equal.
Qed.

Lemma append_empty_r (x : string) : x +:+ "" = x.
Proof.
  induction x as [|a x IH]; [done|].
  change (String a (x +:+ "") = String a x). by f_equal.
Qed.

Lemma find_app_first {A : Type} (f : A → bool) (l1 l2 : list A) :
  List.find f (l1 ++ l2) =
  match List.find f l1 with
  | Some x => Some x
  | None => List.find f l2
  end.
Proof. induction l1 as [|x l1 IH]; [done|]. cbn. by destruct (f x). Qed.


(** In a list without two elements of one key, the last element of a key
    is the first one. *)
Lemma find_reverse_NoDup {A : Type} (key : A → string) (l : list A) token :
  NoDup (key <$> l) →
  List.find (λ x, String.eqb (key x) token) (reverse l) =
  List.find (λ x, String.eqb (key x) token) l.
Proof.
  induction l as [|x l IH]; [done|]. rewrite fmap_cons, NoDup_cons. intros [Hx Hl].
  rewrite reverse_cons, find_app_first, (IH Hl). cbn.
  destruct (String.eqb (key x) token) eqn:Hk.
  - apply String.eqb_eq in Hk as <-.
    destruct (List.find _ l) as [y|] eqn:Hy; [|done].
    apply find_some in Hy as [Hin Heq]. apply String.eqb_eq in Heq.
    destruct Hx. rewrite <- Heq. apply list_elem_of_fmap. exists y.
    split; [done|by apply list_elem_of_In].
  - by destruct (List.find _ l).
Qed.

(** * The dispatcher, specified *)

Module CommandSpec.
Import Command.

(** ** A reference engine *)

(** An engine to run the dispatcher on: [Array.prototype.sort] as a stable
    insertion sort and [localeCompare] as the comparison of code units. *)

Fixpoint insertInto {A : Type} (cmp : A → A → Z) (x : A) (l : list A) : list A :=
  match l with
  | [] => [x]
  | y :: l' => if (cmp x y <? 0)%Z then x :: l else y :: insertInto cmp x l'
  end.

(** A stable insertion sort: every element, from left to right, goes before
    the first element it compares less than. *)
Definition insertionSort {A : Type} (cmp : A → A → Z) (l : list A) : list A :=
  foldl (λ acc x, insertInto cmp x acc) [] l.

(** Comparison by code units. *)
Definition codeUnitCompare (a b : string) : Z :=
  match String.compare a b with
  | Lt => (-1)%Z
  | Eq => 0%Z
  | Gt => 1%Z
  end.

(** ** A small command tree *)

Module Demo.

Definition Cmd : Type := Command unit string.

Definition refuses : @PreCheck unit := λ w, (Throw (Error "Not connected"), w).
Definition echo : @Handler unit string := λ input _ w, (Return input, w).

Definition bar : Cmd :=
  mkCommand "bar" "Bar" None (Some [mkArg "target" false]) (Some echo) None.
Definition foo : Cmd := mkCommand "foo" "Foo" None None None (Some [bar]).
Definition fooGuarded : Cmd :=
  mkCommand "foo" "Foo" (Some (One refuses)) None None (Some [bar]).
Definition fooInner : Cmd := mkCommand "foo" "Inner" None None (Some echo) None.
Definition fooSelf : Cmd := mkCommand "foo" "Foo" None None None (Some [fooInner; bar]).
Definition guarded : Cmd :=
  mkCommand "deploy" "Deploy" (Some (One refuses)) (Some [mkArg "path" false]) (Some echo) None.
Definition group : Cmd :=
  mkCommand "group" "Group" None (Some [mkArg "path" false]) None (Some [bar]).
Definition opt : Cmd :=
  mkCommand "build" "Build" None (Some [mkArg "path" true]) (Some echo) None.
Definition proto : Cmd :=
  mkCommand "link" "Link" None (Some [mkArg "__proto__" true; mkArg "path" true])
    (Some echo) None.
Definition help : Cmd := mkCommand "help" "Print help" None None (Some echo) None.
Definition again : Cmd := mkCommand "!!" "Run the last command" None None (Some echo) None.
Definition long : Cmd :=
  mkCommand "abcdefghijklmnopqrstuvwxy" "Long" None None (Some echo) None.
Definition menu : Cmd := mkCommand "menu" "Menu" None None None (Some [help; again]).
Definition wide : Cmd := mkCommand "wide" "Wide" None None None (Some [long]).
Definition guardedMenu : Cmd :=
  mkCommand "foo" "Foo" (Some (One refuses)) None None (Some [menu]).
Definition tidy : Cmd := mkCommand "tidy" "Tidy" None None None (Some [help; bar]).

Definition plain (s : string) : string := s.

Definition st0 : State unit string := mkState tt [].

Definition exec (commands : list (string * Cmd)) (input : string) :=
  execute plain codeUnitCompare insertionSort commands input st0.

Definition started (cmdName input : string) : State unit string :=
  mkState tt [Dispatched (getEventName cmdName Start) (DInput input)].

End Demo.

(** ** The dispatcher on every command tree *)

Section Facts.
Context {World R : Type}.
Variable italic : string → string.
Variable localeCompare : string → string → Z.
Variable sort : (Command World R → Command World R → Z) → list (Command World R) → list (Command World R).
Variable commands : list (string * Command World R).

Local Abbreviation iteration := (Command.iteration localeCompare sort).
Local Abbreviation loop := (Command.loop localeCompare sort).
Local Abbreviation execute := (Command.execute italic localeCompare sort commands).
Local Abbreviation topLevel := (Command.topLevel commands).

Implicit Types (st : State World R) (cmd c foo bar : Command World R).

(** ** Notions the statements use *)

(** The effects one turn of the loop can add, by the way it ends. *)
Definition turnEffects (P : Command World R → ParsedInput → Prop)
    (input cmdName : string) (o : Outcome (@Step World R))
    (new : list (Effect World R)) : Prop :=
  match o with
  | Return (Continue _ inputArgs) => new = [] ∧ inputArgs = []
  | Return Break => ∃ text, new = [Logged text]
  | Return (Returned r) =>
      ∃ c p, P c p ∧
        new = [Ran c input p (Return r);
               Dispatched (getEventName cmdName Finish) (DResult r)]
  | Throw e => new = [] ∨ ∃ c p, P c p ∧ new = [Ran c input p (Throw e)]
  end.

(** The mapping [p] is what the loop over the specs of [c] makes of some
    run of argument tokens at the end of [tokens]. *)
Definition parsedFrom (tokens : list string) c (p : ParsedInput) : Prop :=
  ∃ inputArgs,
    inputArgs `suffix_of` tokens ∧
    parseArgs (default [] (args c)) 0 inputArgs ∅ = Return (parsed_args p).

(** The effects a whole dispatch can add after the start notification. *)
Definition loopEffects (tokens : list string) (input cmdName : string)
    (o : Outcome (option R)) (new : list (Effect World R)) : Prop :=
  match o with
  | Return None => new = [] ∨ ∃ text, new = [Logged text]
  | Return (Some r) =>
      ∃ c p, parsedFrom tokens c p ∧
        new = [Ran c input p (Return r);
               Dispatched (getEventName cmdName Finish) (DResult r)]
  | Throw e =>
      new = [] ∨ ∃ c p, parsedFrom tokens c p ∧ new = [Ran c input p (Throw e)]
  end.

(** Every precondition check of [cmd] passes in world [w] and leaves the
    world [w']. *)
Definition checksPass cmd (w w' : World) : Prop :=
  ∀ tr, handleChecks cmd (mkState w tr) = (Return tt, mkState w' tr).

(** What the caller of [execute] gets from the way the handler ended. *)
Definition handlerResult (out : Outcome R) : Outcome (option R) :=
  match out with
  | Return r => Return (Some r)
  | Throw e => Throw e
  end.

(** The finish notification of a handler call. *)
Definition finishOf (cmdName : string) (out : Outcome R) : list (Effect World R) :=
  match out with
  | Return r => [Dispatched (getEventName cmdName Finish) (DResult r)]
  | Throw _ => []
  end.

Definition stepOf (out : Outcome R) : Outcome (@Step World R) :=
  match out with
  | Return r => Return (Returned r)
  | Throw e => Throw e
  end.

(** Whether the turn at position [i] finds argument tokens, once the current
    command is [c]. *)
Definition argsFollow (tokens : list string) (i : nat) c : bool :=
  truthy (tokens !! (i + 1)) && negb (someSub c (tokens !! (i + 1))).

(** [reaches input cmdName tokens top st0 i cmd st]: started in state [st0]
    at the top-level command [top], the loop arrives at position [i] with
    current command [cmd] in state [st], every earlier turn having gone on
    to the next one. *)
Inductive reaches (input cmdName : string) (tokens : list string) top st0 :
    nat → Command World R → State World R → Prop :=
| reaches_top : reaches input cmdName tokens top st0 0 top st0
| reaches_next i cmd st c st1 :
    reaches input cmdName tokens top st0 i cmd st →
    iteration input cmdName tokens i cmd [] st = (Return (Continue c []), st1) →
    reaches input cmdName tokens top st0 (S i) c st1.

(** [execute input] in state [st] resolves the top-level command under the
    code name [cmdName] and arrives at position [i] of the tokens with
    current command [cmd] in state [st_i]. *)
Definition arrives (input : string) st (cmdName : string) (i : nat) cmd st_i : Prop :=
  let tokens := split (trim input) in
  trim input ≠ "" ∧ (i < length tokens)%nat ∧
  ∃ inputCmdName top,
    head tokens = Some inputCmdName ∧
    topLevel inputCmdName = Some (cmdName, top) ∧
    reaches (trim input) cmdName tokens top
      (mkState (world st)
         (trace st ++ [Dispatched (getEventName cmdName Start) (DInput (trim input))]))
      i cmd st_i.

(** The spec at index [j] is unmet: no token (or an empty one) and not
    optional. *)
Definition unmet (inputArgs : list string) (j : nat) (arg : Arg) : bool :=
  negb (truthy (inputArgs !! j)) && negb (optional arg).

(** What the handler called in the turn at position [i] is given, when the
    turn starts with the current command [cmd]: the mapping the loop over
    the specs makes of the argument tokens read at that position. *)
Definition parsedAt (tokens : list string) (i : nat) cmd c (p : ParsedInput) : Prop :=
  c = descend cmd (tokens !! i) ∧
  parseArgs (default [] (args c)) 0
    (if argsFollow tokens i c then drop (i + 1) tokens else []) ∅ =
    Return (parsed_args p).

(** What ECMAScript asks of [Array.prototype.sort]: the result holds the
    elements of the array, and it is in order whenever the comparator is
    consistent on them. *)
Definition Consistent {A : Type} (cmp : A → A → Z) (l : list A) : Prop :=
  (∀ x y, x ∈ l → y ∈ l → (cmp x y < 0 ↔ 0 < cmp y x)%Z) ∧
  (∀ x y z, x ∈ l → y ∈ l → z ∈ l →
     (cmp x y ≤ 0 → cmp y z ≤ 0 → cmp x z ≤ 0)%Z).

Definition SortPermutes : Prop := ∀ cmp l, sort cmp l ≡ₚ l.

Definition SortSorts : Prop :=
  ∀ cmp l, Consistent cmp l → StronglySorted (λ a b, (cmp a b ≤ 0)%Z) (sort cmp l).

(** [localeCompare] orders all strings consistently. *)
Definition LocaleConsistent : Prop :=
  (∀ x y, (localeCompare x y < 0 ↔ 0 < localeCompare y x)%Z) ∧
  (∀ x y z, (localeCompare x y ≤ 0 → localeCompare y z ≤ 0 → localeCompare x z ≤ 0)%Z).

Fixpoint spaces (n : nat) : string :=
  match n with
  | O => ""
  | S n => String " " (spaces n)
  end.

(** The line of one entry in the list. *)
Definition formatLine c : string :=
  "    " +:+ name c +:+ spaces (25 - String.length (name c)) +:+ description c +:+ nl.

(** The exception of the padding for a name of 25 characters or more. *)
Definition paddingError (len : nat) : JsError :=
  if (len =? 25)%nat then TypeError else RangeError.

(** The text of the list: the lines of its entries, one after the other. *)
Definition formatLines (l : list (Command World R)) : string :=
  foldr String.append "" (formatLine <$> l).

(** A string of white space only. *)
Fixpoint blank (s : string) : bool :=
  match s with
  | EmptyString => true
  | String a s' => isWhiteSpace a && blank s'
  end.

(** ** The effects of a dispatch *)

Lemma runPreChecks_trace (cs : list (@PreCheck World)) st o st' :
  runPreChecks cs st = (o, st') → trace st' = trace st.
Proof.
  revert st. induction cs as [|c cs IH]; intros st H.
  - by inversion H.
  - cbn in H. unfold bind, check in H.
    destruct (c (world st)) as [[[]|e] w] eqn:Hc.
    + apply IH in H. exact H.
    + by inversion H.
Qed.

Lemma handleChecks_trace cmd st o st' :
  handleChecks cmd st = (o, st') → trace st' = trace st.
Proof.
  unfold handleChecks. destruct (preCheck cmd).
  - apply runPreChecks_trace.
  - by inversion 1.
Qed.

(** The part of a turn after the argument tokens are known. *)
Lemma iteration_tail_effects input cmdName tokens i cmd specs inputArgs st o st' :
  (let! _ := handleChecks cmd in
   if negb (i =? length tokens - 1)%nat && (length inputArgs =? 0)%nat
   then ret (Continue cmd inputArgs)
   else
     match run cmd with
     | None =>
         let! formatted :=
           lift (match subcommands cmd with
                 | Some subs => formatCmdList localeCompare sort subs
                 | None => Throw TypeError
                 end) in
         let! _ := log (usageMessage tokens i cmd formatted) in
         ret Break
     | Some handler =>
         let! parsedArgs := lift (parseArgs specs 0 inputArgs ∅) in
         let! result := call cmd handler input (mkParsed parsedArgs) in
         let! _ := dispatch (getEventName cmdName Finish) (DResult result) in
         ret (Returned result)
     end) st = (o, st') →
  ∃ new, trace st' = trace st ++ new ∧
    turnEffects (λ c p, c = cmd ∧ parseArgs specs 0 inputArgs ∅ = Return (parsed_args p))
      input cmdName o new.
Proof.
  unfold bind at 1.
  destruct (handleChecks cmd st) as [[[]|e] st1] eqn:Hc;
    apply handleChecks_trace in Hc; rewrite <- Hc; clear Hc.
  2: { intros [= <- <-]. exists []. rewrite app_nil_r. split; [done|by left]. }
  destruct (negb _ && _) eqn:Hcont.
  { intros [= <- <-]. exists []. rewrite app_nil_r. split; [done|].
    split; [done|]. apply andb_true_iff in Hcont as [_ Hlen].
    apply Nat.eqb_eq in Hlen. by apply nil_length_inv. }
  destruct (run cmd) as [handler|].
  - unfold bind, lift, call, dispatch, emit, ret.
    destruct (parseArgs _ _ _ _) as [parsed|e] eqn:Hparse.
    2: { intros [= <- <-]. exists []. rewrite app_nil_r. split; [done|by left]. }
    destruct (handler input _ (world st1)) as [[r|e] w] eqn:Hh.
    + intros [= <- <-]. eexists. simpl. rewrite <- app_assoc. split; [done|].
      simpl. by exists cmd, (mkParsed parsed).
    + intros [= <- <-]. eexists. split; [done|]. right.
      by exists cmd, (mkParsed parsed).
  - unfold bind, lift, log, emit, ret.
    destruct (match subcommands cmd with Some _ => _ | None => _ end) as [formatted|e].
    + intros [= <- <-]. eexists. split; [done|]. simpl. eauto.
    + intros [= <- <-]. exists []. rewrite app_nil_r. split; [done|by left].
Qed.

Lemma bind_ret {A B : Type} (a : A) (k : A → M B) st : bind (ret a) k st = k a st.
Proof. reflexivity. Qed.

Lemma bind_throw {A B : Type} (e : JsError) (k : A → M B) st :
  bind (throw e) k st = (Throw e, st).
Proof. reflexivity. Qed.

Lemma turnEffects_mono (P Q : Command World R → ParsedInput → Prop) input cmdName o new :
  (∀ c p, P c p → Q c p) →
  turnEffects P input cmdName o new → turnEffects Q input cmdName o new.
Proof.
  intros HPQ. destruct o as [[c a| |r]|e]; simpl; [done|done|..].
  - intros (c & p & HP & ->). eauto.
  - intros [->|(c & p & HP & ->)]; [by left|right; eauto].
Qed.

Lemma iteration_effects input cmdName tokens i cmd st o st' :
  iteration input cmdName tokens i cmd [] st = (o, st') →
  ∃ new, trace st' = trace st ++ new ∧
    turnEffects (parsedFrom tokens) input cmdName o new.
Proof.
  unfold Command.iteration.
  destruct (truthy _ && negb _).
  - destruct (args _) as [specs|] eqn:Hspecs.
    + destruct (_ <? _)%nat.
      * rewrite bind_throw.
        intros [= <- <-]. exists []. rewrite app_nil_r. split; [done|by left].
      * rewrite bind_ret. intros H.
        apply iteration_tail_effects in H as (new & Htr & Hnew).
        exists new. split; [done|]. revert Hnew. apply turnEffects_mono.
        intros c p [-> Hp]. exists (drop (i + 1) tokens).
        split; [apply suffix_drop|]. by rewrite Hspecs.
    + rewrite bind_throw.
      intros [= <- <-]. exists []. rewrite app_nil_r. split; [done|by left].
  - rewrite bind_ret. intros H.
    apply iteration_tail_effects in H as (new & Htr & Hnew).
    exists new. split; [done|]. revert Hnew. apply turnEffects_mono.
    intros c p [-> Hp]. exists []. split; [apply suffix_nil|done].
Qed.

Lemma loop_effects input cmdName tokens indices cmd st o st' :
  loop input cmdName tokens indices cmd [] st = (o, st') →
  ∃ new, trace st' = trace st ++ new ∧ loopEffects tokens input cmdName o new.
Proof.
  revert cmd st. induction indices as [|i rest IH]; intros cmd st.
  - intros [= <- <-]. exists []. rewrite app_nil_r. split; [done|by left].
  - cbn [Command.loop]. unfold bind at 1.
    destruct (iteration _ _ _ _ _ _ _) as [[[c a| |r]|e] st1] eqn:Hit;
      apply iteration_effects in Hit as (new & Htr & Hnew); simpl in Hnew.
    + destruct Hnew as [-> ->]. rewrite app_nil_r in Htr. rewrite <- Htr.
      apply IH.
    + intros [= <- <-]. exists new. split; [done|]. by right.
    + intros [= <- <-]. exists new. split; [done|]. done.
    + intros [= <- <-]. exists new. split; [done|]. done.
Qed.

(** ** The first token *)

(** After [trim], the first token is empty only for the empty line. *)
Lemma trimStart_head s :
  match trimStart s with
  | EmptyString => True
  | String c _ => isWhiteSpace c = false
  end.
Proof.
  induction s as [|c s IH]; simpl; [done|].
  destruct (isWhiteSpace c) eqn:Hc; [exact IH|exact Hc].
Qed.

Lemma trimEnd_head s :
  match s with
  | EmptyString => True
  | String c _ => isWhiteSpace c = false
  end →
  match trimEnd s with
  | EmptyString => s = EmptyString
  | String c _ => isWhiteSpace c = false
  end.
Proof.
  destruct s as [|c s]; simpl; [done|].
  intros Hc. rewrite Hc. by destruct (trimEnd s).
Qed.

Lemma trim_head s :
  match trim s with
  | EmptyString => True
  | String c _ => isWhiteSpace c = false
  end.
Proof.
  unfold trim. pose proof (trimEnd_head _ (trimStart_head s)) as H.
  by destruct (trimEnd (trimStart s)).
Qed.

Lemma split_head_truthy s :
  match s with
  | EmptyString => True
  | String c _ => isWhiteSpace c = false
  end →
  truthy (head (split s)) = negb (String.eqb s "").
Proof.
  destruct s as [|c s]; simpl; [done|].
  intros Hc. destruct (Ascii.eqb c " ") eqn:Hsp.
  - apply Ascii.eqb_eq in Hsp. subst c. discriminate Hc.
  - by destruct (split s).
Qed.

Lemma first_token_truthy input :
  truthy (head (split (trim input))) = negb (String.eqb (trim input) "").
Proof. apply split_head_truthy, trim_head. Qed.

Lemma split_head_is_Some s : is_Some (head (split s)).
Proof.
  induction s as [|c s IH]; simpl; [by eexists|].
  destruct (Ascii.eqb c " "); [by eexists|]. destruct (split s); by eexists.
Qed.

(** C2 (amended).  For every line: a line that is blank after trimming
    ends without a result, without an error and without a notification.
    Otherwise, if the first token is the code name of no top-level command,
    [execute] fails with the not-found error and dispatches nothing.  If it
    is, exactly one start notification is dispatched first, keyed by the
    code name and carrying the trimmed line, and what follows is one of:
    nothing or one usage text, with no result or an error; one handler call
    that throws, with that error and no finish notification; one handler
    call that returns, then exactly one finish notification carrying the
    result, which is also the result of [execute]. *)
Theorem execute_notifications input st o st' :
  execute input st = (o, st') →
  (trim input = "" → o = Return None ∧ st' = st) ∧
  (trim input ≠ "" →
   ∃ inputCmdName, head (split (trim input)) = Some inputCmdName ∧
     match topLevel inputCmdName with
     | None => o = Throw (Error (notFoundMessage italic inputCmdName)) ∧ st' = st
     | Some (cmdName, _) =>
         ∃ new,
           trace st' =
             trace st ++
             Dispatched (getEventName cmdName Start) (DInput (trim input)) :: new ∧
           (((new = [] ∨ ∃ text, new = [Logged text]) ∧
             (o = Return None ∨ ∃ e, o = Throw e)) ∨
            (∃ c p e, new = [Ran c (trim input) p (Throw e)] ∧ o = Throw e) ∨
            (∃ c p r,
               new = [Ran c (trim input) p (Return r);
                      Dispatched (getEventName cmdName Finish) (DResult r)] ∧
               o = Return (Some r)))
     end).
Proof.
  unfold Command.execute, process. rewrite first_token_truthy.
  intros H. split.
  - intros Hblank. rewrite Hblank in H. simpl in H. by inversion H.
  - intros Hne. apply String.eqb_neq in Hne. rewrite Hne in H. simpl in H.
    destruct (split_head_is_Some (trim input)) as [tok Htok].
    exists tok. split; [done|]. rewrite Htok in H. simpl in H.
    destruct (topLevel tok) as [[cmdName cmd]|].
    + unfold bind at 1, dispatch, emit in H. simpl in H.
      apply loop_effects in H as (new & Htr & Hnew). simpl in Htr.
      exists new. rewrite Htr, <- app_assoc. split; [done|].
      destruct o as [[r|]|e]; simpl in Hnew.
      * right; right. destruct Hnew as (c & p & _ & ->). eauto 6.
      * left. split; [done|by left].
      * destruct Hnew as [->|(c & p & _ & ->)].
        -- left. split; [by left|right; eauto].
        -- right; left. eauto 6.
    + by inversion H.
Qed.

(** ** A turn that goes on and a turn that runs the handler *)

Lemma handler_step cmdName cmd handler input parsed st :
  (let! result := call cmd handler input parsed in
   let! _ := dispatch (getEventName cmdName Finish) (DResult result) in
   ret (Returned result)) st =
  let (out, w) := handler input parsed (world st) in
  (match out return Outcome (@Step World R) with
   | Return r => Return (Returned r)
   | Throw e => Throw e
   end,
   mkState w (trace st ++ Ran cmd input parsed out :: finishOf cmdName out)).
Proof.
  unfold bind, call, dispatch, emit, ret.
  destruct (handler input parsed (world st)) as [[r|e] w]; simpl.
  - by rewrite <- app_assoc.
  - done.
Qed.

Lemma argsFollow_drop tokens i c :
  argsFollow tokens i c = true → (length (drop (i + 1) tokens) =? 0)%nat = false.
Proof.
  unfold argsFollow. intros [Ht _]%andb_true_iff.
  destruct (tokens !! (i + 1)) as [t|] eqn:Hl; [|done].
  apply Nat.eqb_neq. rewrite length_drop.
  apply lookup_lt_Some in Hl. lia.
Qed.

(** A turn that finds neither arguments nor the end of the line goes on
    with the command it has descended to. *)
Lemma iteration_continue input cmdName tokens i cmd st w' :
  let c := descend cmd (tokens !! i) in
  argsFollow tokens i c = false →
  checksPass c (world st) w' →
  (i =? length tokens - 1)%nat = false →
  iteration input cmdName tokens i cmd [] st =
    (Return (Continue c []), mkState w' (trace st)).
Proof.
  intros c Hargs Hchk Hlast. unfold Command.iteration. fold c.
  unfold argsFollow in Hargs. rewrite Hargs, bind_ret.
  unfold bind at 1. destruct st as [w tr]. cbn [world trace] in *. rewrite (Hchk tr).
  by rewrite Hlast.
Qed.

(** A turn that finds as many argument tokens as the command accepts, and
    a handler, calls the handler. *)
Lemma iteration_run input cmdName tokens i cmd st w' specs handler parsed :
  let c := descend cmd (tokens !! i) in
  let inputArgs := if argsFollow tokens i c then drop (i + 1) tokens else [] in
  (argsFollow tokens i c = false → (i =? length tokens - 1)%nat = true) →
  args c = Some specs →
  (length inputArgs ≤ length specs)%nat →
  checksPass c (world st) w' →
  run c = Some handler →
  parseArgs specs 0 inputArgs ∅ = Return parsed →
  iteration input cmdName tokens i cmd [] st =
    let (out, w) := handler input (mkParsed parsed) w' in
    (stepOf out,
     mkState w (trace st ++ Ran c input (mkParsed parsed) out :: finishOf cmdName out)).
Proof.
  intros c inputArgs Hlast Hspecs Hlen Hchk Hrun Hparse.
  unfold Command.iteration. fold c.
  pose proof (argsFollow_drop tokens i c) as Hdrop.
  unfold argsFollow in *. subst inputArgs.
  destruct (truthy _ && negb _) eqn:Hargs.
  - rewrite Hspecs. apply Nat.ltb_ge in Hlen. rewrite Hlen, bind_ret.
    unfold bind at 1. destruct st as [w tr]. cbn [world trace] in *. rewrite (Hchk tr).
    rewrite Hdrop by done. rewrite andb_false_r, Hrun. cbn [default from_option id].
    unfold bind at 1, lift at 1. rewrite Hparse.
    rewrite handler_step. cbn [world trace].
    by destruct (handler _ _ _) as [[r|e] w2].
  - rewrite bind_ret.
    unfold bind at 1. destruct st as [w tr]. cbn [world trace] in *. rewrite (Hchk tr).
    rewrite Hlast by done. cbn [negb andb]. rewrite Hrun, Hspecs.
    cbn [default from_option id].
    unfold bind at 1, lift at 1. rewrite Hparse.
    rewrite handler_step. cbn [world trace].
    by destruct (handler _ _ _) as [[r|e] w2].
Qed.

Lemma loop_continue input cmdName tokens i rest cmd st c st1 :
  iteration input cmdName tokens i cmd [] st = (Return (Continue c []), st1) →
  loop input cmdName tokens (i :: rest) cmd [] st =
  loop input cmdName tokens rest c [] st1.
Proof. intros H. cbn [Command.loop]. unfold bind at 1. by rewrite H. Qed.

Lemma loop_run input cmdName tokens i rest cmd st out st1 :
  iteration input cmdName tokens i cmd [] st = (stepOf out, st1) →
  loop input cmdName tokens (i :: rest) cmd [] st = (handlerResult out, st1).
Proof.
  intros H. cbn [Command.loop]. unfold bind at 1. rewrite H. by destruct out.
Qed.

(** C1 (amended).  Take the line [foo bar baz] and a command tree where
    [foo] is registered under the code name [foo], has no subcommand that
    is itself named [foo], and has a subcommand [bar] with a handler, the
    one required argument spec [target] and no subcommand named [baz].
    When the checks of [foo] and of [bar] pass, [execute] dispatches the
    start notification, walks to [foo.bar], binds [target] to [baz] by
    position, calls the handler of [bar] once with the line and the
    mapping [{ target: baz }], and ends as the handler ends: with its
    result after the finish notification, or with its exception. *)
Theorem execute_foo_bar_baz foo bar handler st w1 w2 :
  topLevel "foo" = Some ("foo", foo) →
  findSub foo (Some "foo") = None →
  findSub foo (Some "bar") = Some bar →
  run bar = Some handler →
  args bar = Some [mkArg "target" false] →
  someSub bar (Some "baz") = false →
  checksPass foo (world st) w1 →
  checksPass bar w1 w2 →
  let parsed := mkParsed {[ "target" := Some "baz" ]} in
  let (out, w) := handler "foo bar baz" parsed w2 in
  execute "foo bar baz" st =
    (handlerResult out,
     mkState w
       (trace st ++
        Dispatched (getEventName "foo" Start) (DInput "foo bar baz") ::
        Ran bar "foo bar baz" parsed out :: finishOf "foo" out)).
Proof.
  intros Htop Hfoo Hbar Hrun Hargs Hbaz Hc1 Hc2 parsed.
  assert (Hsome : someSub foo (Some "bar") = true).
  { unfold findSub, someSub in *. destruct (subcommands foo) as [subs|]; [|done].
    apply existsb_exists. apply find_some in Hbar. eauto. }
  destruct (handler "foo bar baz" parsed w2) as [out w] eqn:Hh.
  unfold Command.execute, process.
  change (trim "foo bar baz") with "foo bar baz".
  change (split "foo bar baz") with ["foo"; "bar"; "baz"].
  cbn [head truthy String.eqb Ascii.eqb Bool.eqb negb default from_option id].
  rewrite Htop. unfold bind at 1, dispatch, emit. cbn [length seq].
  pose proof (iteration_continue "foo bar baz" "foo" ["foo"; "bar"; "baz"] 0 foo
    (mkState (world st) (trace st ++ [Dispatched (getEventName "foo" Start) (DInput "foo bar baz")]))
    w1) as Hgo.
  cbn [lookup list_lookup Nat.add] in Hgo. unfold descend in Hgo.
  rewrite Hfoo in Hgo. unfold argsFollow in Hgo.
  cbn [lookup list_lookup Nat.add] in Hgo. rewrite Hsome in Hgo.
  rewrite (loop_continue _ _ _ _ _ _ _ _ _ (Hgo eq_refl Hc1 eq_refl)).
  cbn [world trace].
  pose proof (iteration_run "foo bar baz" "foo" ["foo"; "bar"; "baz"] 1 foo
    (mkState w1 (trace st ++ [Dispatched (getEventName "foo" Start) (DInput "foo bar baz")]))
    w2 [mkArg "target" false] handler {[ "target" := Some "baz" ]}) as Hit.
  cbn [lookup list_lookup Nat.add] in Hit. unfold descend in Hit.
  rewrite Hbar in Hit. unfold argsFollow in Hit.
  cbn [lookup list_lookup Nat.add] in Hit. rewrite Hbaz in Hit.
  cbn [truthy String.eqb negb andb drop length world trace] in Hit.
  fold parsed in Hit. rewrite Hh in Hit.
  rewrite (loop_run _ _ _ _ _ _ _ _ _
    (Hit (λ H, False_ind _ (diff_true_false H)) Hargs (le_n _) Hc2 Hrun eq_refl)).
  by rewrite <- app_assoc.
Qed.

(** ** Positions a dispatch arrives at *)

Lemma reaches_loop input cmdName tokens top st0 i cmd st n :
  reaches input cmdName tokens top st0 i cmd st →
  loop input cmdName tokens (seq 0 (i + n)) top [] st0 =
  loop input cmdName tokens (seq i n) cmd [] st.
Proof.
  intros H. revert n. induction H as [|i cmd st c st1 _ IH Hit]; intros n.
  - done.
  - replace (S i + n)%nat with (i + S n)%nat by lia. rewrite IH.
    cbn [seq]. by apply loop_continue.
Qed.

Lemma reaches_trace input cmdName tokens top st0 i cmd st :
  reaches input cmdName tokens top st0 i cmd st → trace st = trace st0.
Proof.
  induction 1 as [|i cmd st c st1 _ IH Hit]; [done|].
  apply iteration_effects in Hit as (new & Htr & [-> _]).
  by rewrite Htr, app_nil_r.
Qed.

(** From the position it has arrived at, [execute] is the rest of the loop. *)
Lemma arrives_execute input st cmdName i cmd st_i :
  arrives input st cmdName i cmd st_i →
  let tokens := split (trim input) in
  execute input st =
    loop (trim input) cmdName tokens (seq i (length tokens - i)) cmd [] st_i ∧
  trace st_i =
    trace st ++ [Dispatched (getEventName cmdName Start) (DInput (trim input))].
Proof.
  intros (Hne & Hi & tok & top & Htok & Htop & Hreach) tokens.
  split; [|by rewrite (reaches_trace _ _ _ _ _ _ _ _ Hreach)].
  unfold Command.execute, process. rewrite first_token_truthy.
  apply String.eqb_neq in Hne. rewrite Hne. cbn [negb]. subst tokens.
  rewrite Htok. cbn [default from_option id]. rewrite Htop.
  unfold bind at 1, dispatch, emit. cbn [fst].
  rewrite <- (reaches_loop _ _ _ _ _ _ _ _ (length (split (trim input)) - i) Hreach).
  by replace (i + (length (split (trim input)) - i))%nat
    with (length (split (trim input))) by lia.
Qed.

(** ** Argument errors *)

Lemma parseArgs_first_unmet pre a post inputArgs k parsedArgs :
  (∀ j b, pre !! j = Some b → unmet inputArgs (k + j) b = false) →
  unmet inputArgs (k + length pre) a = true →
  parseArgs (pre ++ a :: post) k inputArgs parsedArgs =
    Throw (Error (missingMessage (arg_name a))).
Proof.
  revert k parsedArgs. induction pre as [|b pre IH]; intros k m Hpre Ha.
  - cbn [app length parseArgs]. rewrite Nat.add_0_r in Ha. unfold unmet in Ha.
    by rewrite Ha.
  - cbn [app parseArgs]. pose proof (Hpre 0%nat b eq_refl) as Hb.
    rewrite Nat.add_0_r in Hb. unfold unmet in Hb. rewrite Hb.
    apply IH.
    + intros j b' Hj. replace (S k + j)%nat with (k + S j)%nat by lia.
      by apply Hpre.
    + by replace (S k + length pre)%nat with (k + length (b :: pre))%nat
        by (cbn [length]; lia).
Qed.

Lemma loop_throw input cmdName tokens i rest cmd st e st1 :
  iteration input cmdName tokens i cmd [] st = (Throw e, st1) →
  loop input cmdName tokens (i :: rest) cmd [] st = (Throw e, st1).
Proof. intros H. cbn [Command.loop]. unfold bind at 1. by rewrite H. Qed.

Lemma iteration_too_many input cmdName tokens i cmd st specs :
  let c := descend cmd (tokens !! i) in
  let inputArgs := if argsFollow tokens i c then drop (i + 1) tokens else [] in
  args c = Some specs →
  (length specs < length inputArgs)%nat →
  iteration input cmdName tokens i cmd [] st =
    (Throw (Error (tooManyMessage (length inputArgs))), st).
Proof.
  intros c inputArgs Hspecs Hlen. unfold Command.iteration. fold c.
  unfold argsFollow in *. subst inputArgs.
  destruct (truthy _ && negb _); [|cbn [length] in Hlen; lia].
  rewrite Hspecs. apply Nat.ltb_lt in Hlen. rewrite Hlen. by rewrite bind_throw.
Qed.

Lemma iteration_missing input cmdName tokens i cmd st w' handler pre a post :
  let c := descend cmd (tokens !! i) in
  let inputArgs := if argsFollow tokens i c then drop (i + 1) tokens else [] in
  args c = Some (pre ++ a :: post) →
  (length inputArgs ≤ length (pre ++ a :: post))%nat →
  (argsFollow tokens i c = false → i = (length tokens - 1)%nat) →
  checksPass c (world st) w' →
  run c = Some handler →
  (∀ j b, pre !! j = Some b → unmet inputArgs j b = false) →
  unmet inputArgs (length pre) a = true →
  iteration input cmdName tokens i cmd [] st =
    (Throw (Error (missingMessage (arg_name a))), mkState w' (trace st)).
Proof.
  intros c inputArgs Hspecs Hlen Hlast Hchk Hrun Hpre Ha.
  unfold Command.iteration. fold c.
  pose proof (argsFollow_drop tokens i c) as Hdrop.
  unfold argsFollow in *. subst inputArgs.
  destruct st as [w tr]. cbn [world trace] in *.
  destruct (truthy _ && negb _) eqn:Hargs.
  - rewrite Hspecs. apply Nat.ltb_ge in Hlen. rewrite Hlen, bind_ret.
    unfold bind at 1. rewrite (Hchk tr).
    rewrite Hdrop by done. rewrite andb_false_r, Hrun. cbn [default from_option id].
    unfold bind at 1, lift at 1.
    by rewrite (parseArgs_first_unmet pre a post _ 0).
  - rewrite bind_ret. unfold bind at 1. rewrite (Hchk tr).
    rewrite <- Hlast by done. rewrite Nat.eqb_refl. cbn [negb andb].
    rewrite Hrun, Hspecs. cbn [default from_option id].
    unfold bind at 1, lift at 1.
    by rewrite (parseArgs_first_unmet pre a post _ 0).
Qed.

(** C3 (amended).  Let a dispatch arrive at position [i], every earlier
    turn having gone on to the next token with its checks passing, and let
    the command [c] found there declare argument specs.  The argument
    tokens [inputArgs] of the turn are the tokens after position [i] when
    the next token is not empty and is not the name of a subcommand of
    [c], and none otherwise.  Then only the start notification has been
    dispatched, and:
    - if there are more argument tokens than specs, [execute] fails with
      the too-many-arguments error before any check of this turn and
      before any handler;
    - if there are not, and the turn is one that parses arguments
      (argument tokens follow, or position [i] is the last one; any other
      turn goes on to the next token), the checks of [c] pass, [c] has a
      handler and some required spec has no token or an empty one,
      [execute] fails with the missing-argument error that names the first
      such spec in spec order, and the handler is not called. *)
Theorem execute_argument_errors input st cmdName i cmd st_i specs :
  arrives input st cmdName i cmd st_i →
  let tokens := split (trim input) in
  let c := descend cmd (tokens !! i) in
  let inputArgs := if argsFollow tokens i c then drop (i + 1) tokens else [] in
  args c = Some specs →
  trace st_i =
    trace st ++ [Dispatched (getEventName cmdName Start) (DInput (trim input))] ∧
  ((length specs < length inputArgs)%nat →
   execute input st = (Throw (Error (tooManyMessage (length inputArgs))), st_i)) ∧
  (∀ handler w' pre a post,
     (length inputArgs ≤ length specs)%nat →
     (argsFollow tokens i c = false → i = (length tokens - 1)%nat) →
     checksPass c (world st_i) w' →
     run c = Some handler →
     specs = pre ++ a :: post →
     (∀ j b, pre !! j = Some b → unmet inputArgs j b = false) →
     unmet inputArgs (length pre) a = true →
     execute input st =
       (Throw (Error (missingMessage (arg_name a))), mkState w' (trace st_i))).
Proof.
  intros Harr tokens c inputArgs Hspecs.
  destruct (arrives_execute _ _ _ _ _ _ Harr) as [Hexec Htr]. fold tokens in Hexec.
  destruct Harr as (_ & Hi & _). fold tokens in Hi.
  rewrite Hexec. split; [done|]. clear Hexec Htr.
  destruct (length tokens - i)%nat as [|n] eqn:Hn; [lia|]. cbn [seq].
  split.
  - intros Hlen. apply loop_throw. by apply (iteration_too_many _ _ _ _ _ _ specs).
  - intros handler w' pre a post Hlen Hlast Hchk Hrun -> Hpre Ha.
    apply loop_throw. by eapply iteration_missing.
Qed.

(** ** The parsed mapping *)

Lemma assign_lookup key inputArg (m : gmap string (option string)) n :
  assign key inputArg m !! n =
  if decide (key = n ∧ key ≠ "__proto__") then Some inputArg else m !! n.
Proof.
  unfold assign. destruct (String.eqb key "__proto__") eqn:Hk.
  - apply String.eqb_eq in Hk. rewrite decide_False; [done|]. by intros [_ ?].
  - apply String.eqb_neq in Hk. destruct (decide (key = n)) as [->|Hne].
    + rewrite decide_True by done. apply lookup_insert_eq.
    + rewrite decide_False by (by intros [? _]). by apply lookup_insert_ne.
Qed.

Lemma parseArgs_keeps_keys specs k inputArgs m parsed n :
  parseArgs specs k inputArgs m = Return parsed →
  is_Some (m !! n) → is_Some (parsed !! n).
Proof.
  revert k m. induction specs as [|b specs IH]; intros k m; cbn [parseArgs].
  - by intros [= <-].
  - destruct (negb _ && negb _); [done|]. intros H Hm. apply (IH _ _ H).
    rewrite assign_lookup. by destruct (decide _).
Qed.

Lemma parseArgs_other specs k inputArgs m parsed n :
  parseArgs specs k inputArgs m = Return parsed →
  (∀ j b, specs !! j = Some b → arg_name b ≠ n) →
  parsed !! n = m !! n.
Proof.
  revert k m. induction specs as [|b specs IH]; intros k m; cbn [parseArgs].
  - by intros [= <-].
  - destruct (negb _ && negb _); [done|]. intros H Hn.
    rewrite (IH _ _ H).
    + rewrite assign_lookup, decide_False; [done|].
      intros [Heq _]. by apply (Hn 0%nat b eq_refl).
    + intros j b' Hj. apply (Hn (S j) b' Hj).
Qed.

(** The key [__proto__] is never defined. *)
Lemma parseArgs_proto specs k inputArgs m parsed :
  parseArgs specs k inputArgs m = Return parsed →
  parsed !! "__proto__" = m !! "__proto__".
Proof.
  revert k m. induction specs as [|b specs IH]; intros k m; cbn [parseArgs].
  - by intros [= <-].
  - destruct (negb _ && negb _); [done|]. intros H.
    rewrite (IH _ _ H), assign_lookup, decide_False; [done|].
    by intros [-> ?].
Qed.

Lemma parseArgs_keys specs k inputArgs m parsed key :
  parseArgs specs k inputArgs m = Return parsed →
  is_Some (parsed !! key) ↔
  is_Some (m !! key) ∨
  (key ≠ "__proto__" ∧ ∃ j a, specs !! j = Some a ∧ arg_name a = key).
Proof.
  revert k m. induction specs as [|b specs IH]; intros k m; cbn [parseArgs].
  - intros [= <-]. split; [by left|]. intros [?|(_ & j & a & Hj & _)]; done.
  - destruct (negb _ && negb _); [done|]. intros H.
    rewrite (IH _ _ H), assign_lookup. split.
    + intros [Hm|(Hp & j & a & Hj & Ha)].
      * destruct (decide _) as [[<- Hp]|_]; [|by left].
        right. split; [done|]. by exists 0%nat, b.
      * right. split; [done|]. by exists (S j), a.
    + intros [Hm|(Hp & [|j] & a & Hj & Ha)].
      * left. by destruct (decide _).
      * injection Hj as ->. left. rewrite decide_True; [by eexists|by subst].
      * right. split; [done|]. by exists j, a.
Qed.

Lemma parseArgs_binds specs k inputArgs m parsed j a :
  parseArgs specs k inputArgs m = Return parsed →
  specs !! j = Some a →
  arg_name a ≠ "__proto__" →
  (∀ j' b, (j < j')%nat → specs !! j' = Some b → arg_name b ≠ arg_name a) →
  parsed !! arg_name a = Some (inputArgs !! (k + j)%nat).
Proof.
  revert k m j. induction specs as [|b specs IH]; intros k m j; cbn [parseArgs]; [done|].
  destruct (negb _ && negb _); [done|]. intros H Hj Hp Hlast.
  destruct j as [|j]; cbn in Hj.
  - injection Hj as ->. rewrite (parseArgs_other _ _ _ _ _ _ H).
    + by rewrite assign_lookup, decide_True, Nat.add_0_r.
    + intros j' b' Hj'. apply (Hlast (S j') b'); [lia|done].
  - replace (k + S j)%nat with (S k + j)%nat by lia.
    apply (IH _ _ _ H Hj Hp). intros j' b' Hlt Hj'. apply (Hlast (S j') b'); [lia|done].
Qed.

(** The effects of a turn, with what its handler call is given. *)
Lemma iteration_ran input cmdName tokens i cmd st o st' :
  iteration input cmdName tokens i cmd [] st = (o, st') →
  ∃ new, trace st' = trace st ++ new ∧
    turnEffects (parsedAt tokens i cmd) input cmdName o new.
Proof.
  unfold Command.iteration.
  destruct (truthy _ && negb _) eqn:Hargs.
  - destruct (args _) as [specs|] eqn:Hspecs.
    + destruct (_ <? _)%nat.
      * rewrite bind_throw.
        intros [= <- <-]. exists []. rewrite app_nil_r. split; [done|by left].
      * rewrite bind_ret. intros H.
        apply iteration_tail_effects in H as (new & Htr & Hnew).
        exists new. split; [done|]. revert Hnew. apply turnEffects_mono.
        intros c p [-> Hp]. split; [done|].
        unfold argsFollow. by rewrite Hargs, Hspecs.
    + rewrite bind_throw.
      intros [= <- <-]. exists []. rewrite app_nil_r. split; [done|by left].
  - rewrite bind_ret. intros H.
    apply iteration_tail_effects in H as (new & Htr & Hnew).
    exists new. split; [done|]. revert Hnew. apply turnEffects_mono.
    intros c p [-> Hp]. split; [done|]. unfold argsFollow. by rewrite Hargs.
Qed.

(** Every handler call of the loop is the call of a turn the loop has
    arrived at. *)
Lemma loop_ran input cmdName tokens top st0 n i cmd st o st' c inp p out :
  reaches input cmdName tokens top st0 i cmd st →
  loop input cmdName tokens (seq i n) cmd [] st = (o, st') →
  Ran c inp p out ∈ drop (length (trace st)) (trace st') →
  ∃ i' cmd' st_i,
    reaches input cmdName tokens top st0 i' cmd' st_i ∧ (i' < i + n)%nat ∧
    inp = input ∧ parsedAt tokens i' cmd' c p.
Proof.
  revert i cmd st. induction n as [|n IH]; intros i cmd st Hreach.
  { intros [= <- <-]. rewrite drop_all. intros H. by apply elem_of_nil in H. }
  cbn [seq Command.loop]. unfold bind at 1.
  destruct (iteration _ _ _ _ _ _ _) as [[[c' a| |r]|e] st1] eqn:Hit;
    pose proof (iteration_ran _ _ _ _ _ _ _ _ Hit) as (new & Htr & Hnew);
    simpl in Hnew.
  - destruct Hnew as [-> ->]. rewrite app_nil_r in Htr. intros Hloop Hran.
    rewrite <- Htr in Hran.
    destruct (IH (S i) c' st1 (reaches_next _ _ _ _ _ _ _ _ _ _ Hreach Hit) Hloop Hran)
      as (i' & cmd' & st_i & Hr & Hlt & Hrest).
    exists i', cmd', st_i. split; [done|]. split; [lia|done].
  - intros [= <- <-]. rewrite Htr, drop_app_length. destruct Hnew as [text ->].
    intros H. by apply list_elem_of_singleton in H.
  - intros [= <- <-]. rewrite Htr, drop_app_length.
    destruct Hnew as (c0 & p0 & Hp & ->).
    intros [[= -> -> -> ->]|H]%elem_of_cons.
    + exists i, cmd, st. split; [done|]. split; [lia|done].
    + by apply list_elem_of_singleton in H.
  - intros [= <- <-]. rewrite Htr, drop_app_length.
    destruct Hnew as [->|(c0 & p0 & Hp & ->)].
    + intros H. by apply elem_of_nil in H.
    + intros [= -> -> -> ->]%list_elem_of_singleton.
      exists i, cmd, st. split; [done|]. split; [lia|done].
Qed.

(** C5 (amended).  Every handler call of a dispatch is made in a turn the
    dispatch has arrived at, for the command [c] found at that position
    [i] and with the trimmed line.  The argument tokens of the turn are the
    tokens after position [i] when the next token is not empty and is not
    the name of a subcommand of [c], and none otherwise.  The keys of the
    parsed mapping are the names of the argument specs of [c], except
    [__proto__], for which the assignment defines no key.  The key of the
    spec at index [j] is bound to the argument token at index [j], and to
    [undefined] ([None]) when there is no such token, as for an optional
    spec without a token; of several specs of one name the last one
    decides. *)
Theorem handler_parsed_arguments input st o st' c inp p out :
  execute input st = (o, st') →
  Ran c inp p out ∈ drop (length (trace st)) (trace st') →
  ∃ cmdName i cmd st_i,
    arrives input st cmdName i cmd st_i ∧
    let tokens := split (trim input) in
    let inputArgs := if argsFollow tokens i c then drop (i + 1) tokens else [] in
    let specs := default [] (args c) in
    c = descend cmd (tokens !! i) ∧
    inp = trim input ∧
    (∀ key, is_Some (parsed_args p !! key) ↔
       key ≠ "__proto__" ∧ ∃ j a, specs !! j = Some a ∧ arg_name a = key) ∧
    (∀ j a, specs !! j = Some a →
       arg_name a ≠ "__proto__" →
       (∀ j' b, (j < j')%nat → specs !! j' = Some b → arg_name b ≠ arg_name a) →
       parsed_args p !! arg_name a = Some (inputArgs !! j)).
Proof.
  unfold Command.execute, process. rewrite first_token_truthy. intros H Hran.
  destruct (String.eqb (trim input) "") eqn:Hne; cbn [negb] in H.
  { injection H as <- <-. rewrite drop_all in Hran. by apply elem_of_nil in Hran. }
  apply String.eqb_neq in Hne.
  destruct (split_head_is_Some (trim input)) as [tok Htok].
  rewrite Htok in H. cbn [default from_option id] in H.
  destruct (topLevel tok) as [[cmdName top]|] eqn:Htop.
  2: { injection H as <- <-. rewrite drop_all in Hran. by apply elem_of_nil in Hran. }
  unfold bind at 1, dispatch, emit in H. cbn [fst] in H.
  set (st0 := mkState (world st) (trace st ++ [_])) in H.
  pose proof (loop_effects _ _ _ _ _ _ _ _ H) as (new & Htr & _).
  assert (Ran c inp p out ∈ drop (length (trace st0)) (trace st')) as Hran0.
  { rewrite Htr, drop_app_length.
    rewrite Htr in Hran. unfold st0 in Hran. cbn [trace] in Hran.
    rewrite <- app_assoc, drop_app_length in Hran.
    by apply elem_of_cons in Hran as [[=]|Hran]. }
  destruct (loop_ran _ _ _ top st0 _ 0 top st0 _ _ _ _ _ _ (reaches_top _ _ _ _ _) H Hran0)
    as (i & cmd & st_i & Hreach & Hlt & -> & -> & Hparse).
  exists cmdName, i, cmd, st_i. split.
  { split; [done|]. split; [lia|]. by exists tok, top. }
  cbn zeta. split; [done|]. split; [done|]. split.
  - intros key. rewrite (parseArgs_keys _ _ _ _ _ key Hparse), lookup_empty.
    split; [intros [[? [=]]|?]; done|by right].
  - intros j a Hj Hp Hlast.
    by rewrite (parseArgs_binds _ _ _ _ _ _ _ Hparse Hj Hp Hlast).
Qed.

(** ** formatCmdList *)

Lemma padding_short len :
  (len < 25)%nat → padding len = Return (spaces (25 - len)).
Proof.
  intros H. do 25 (destruct len as [|len]; [reflexivity|]). lia.
Qed.

Lemma padding_25 : padding 25 = Throw TypeError.
Proof. reflexivity. Qed.

Lemma padding_long len : (25 < len)%nat → padding len = Throw RangeError.
Proof.
  intros H. unfold padding.
  destruct (25 - Z.of_nat len <? 0)%Z eqn:Hn; [done|].
  apply Z.ltb_ge in Hn. lia.
Qed.

Lemma padding_throws len : (25 ≤ len)%nat → padding len = Throw (paddingError len).
Proof.
  intros H. unfold paddingError. destruct (len =? 25)%nat eqn:He.
  - apply Nat.eqb_eq in He as ->. apply padding_25.
  - apply Nat.eqb_neq in He. apply padding_long. lia.
Qed.

Lemma formatReduce_short (l : list (Command World R)) acc :
  Forall (λ c, (String.length (name c) < 25)%nat) l →
  formatReduce l acc = Return (acc +:+ formatLines l).
Proof.
  intros H. revert acc. induction H as [|c l Hc _ IH]; intros acc.
  - cbn [formatReduce]. unfold formatLines. cbn [fmap list_fmap foldr].
    by rewrite append_empty_r.
  - cbn [formatReduce]. rewrite (padding_short _ Hc). cbn [obind]. rewrite IH.
    unfold formatLines. cbn [fmap list_fmap foldr]. unfold formatLine.
    by rewrite !append_assoc.
Qed.

Lemma formatReduce_long (pre post : list (Command World R)) c acc :
  Forall (λ c, (String.length (name c) < 25)%nat) pre →
  (25 ≤ String.length (name c))%nat →
  formatReduce (pre ++ c :: post) acc = Throw (paddingError (String.length (name c))).
Proof.
  intros H Hc. revert acc. induction H as [|b pre Hb _ IH]; intros acc;
    cbn [app formatReduce].
  - by rewrite (padding_throws _ Hc).
  - rewrite (padding_short _ Hb). cbn [obind]. apply IH.
Qed.

(** A list either has only short names or a first long one. *)
Lemma first_long (l : list (Command World R)) :
  Forall (λ c, (String.length (name c) < 25)%nat) l ∨
  ∃ pre c post, l = pre ++ c :: post ∧
    Forall (λ c, (String.length (name c) < 25)%nat) pre ∧
    (25 ≤ String.length (name c))%nat.
Proof.
  induction l as [|c l IH]; [by left|].
  destruct (decide (String.length (name c) < 25)%nat) as [Hc|Hc].
  - destruct IH as [IH|(pre & c' & post & -> & Hpre & Hc')].
    + left. by constructor.
    + right. exists (c :: pre), c', post. split; [done|]. split; [by constructor|done].
  - right. exists [], c, l. split; [done|]. split; [constructor|lia].
Qed.

(** C10.  The padding of a name of 25 characters throws a [TypeError]
    (an empty array reduced without an initial value) and the padding of a
    longer name throws a [RangeError] (an array of negative length).  So
    for every list with an entry whose name has 25 characters or more,
    [formatCmdList] throws, with the exception of the first such entry in
    sorted order, and for every list whose names have at most 24
    characters it returns a text. *)
Theorem formatCmdList_long_name (list : list (Command World R)) :
  SortPermutes →
  padding 25 = Throw TypeError ∧
  (∀ len, (25 < len)%nat → padding len = Throw RangeError) ∧
  ((∃ c, c ∈ list ∧ (25 ≤ String.length (name c))%nat) →
   ∃ first, first ∈ list ∧ (25 ≤ String.length (name first))%nat ∧
     formatCmdList localeCompare sort list =
       Throw (if (String.length (name first) =? 25)%nat then TypeError else RangeError)) ∧
  (Forall (λ c, (String.length (name c) ≤ 24)%nat) list →
   ∃ text, formatCmdList localeCompare sort list = Return text).
Proof.
  intros Hperm. split; [apply padding_25|]. split; [apply padding_long|].
  unfold formatCmdList. specialize (Hperm (cmdCompare localeCompare) list).
  destruct (first_long (sort (cmdCompare localeCompare) list))
    as [Hshort|(pre & first & post & Heq & Hpre & Hfirst)].
  - split.
    + intros (c & Hin & Hc). rewrite <- Hperm in Hin.
      rewrite Forall_forall in Hshort. specialize (Hshort c Hin). simpl in Hshort. lia.
    + intros _. rewrite (formatReduce_short _ _ Hshort). eauto.
  - split.
    + intros _. exists first. split; [|split; [done|]].
      * rewrite <- Hperm, Heq. set_solver.
      * rewrite Heq. by apply formatReduce_long.
    + intros Hall. assert (first ∈ list) as Hin by (rewrite <- Hperm, Heq; set_solver).
      rewrite Forall_forall in Hall. specialize (Hall first Hin). simpl in Hall. lia.
Qed.

(** ** The usage block *)

Lemma StronglySorted_on {A : Type} (P Q : A → A → Prop) (l : list A) :
  (∀ x y, x ∈ l → y ∈ l → P x y → Q x y) →
  StronglySorted P l → StronglySorted Q l.
Proof.
  intros HPQ H. induction H as [|x l Hl IH Hx]; constructor.
  - apply IH. intros y z Hy Hz. apply HPQ; by right.
  - rewrite Forall_forall in *. intros y Hy. apply HPQ; [by left|by right|by apply Hx].
Qed.

Lemma cmdCompare_letters (l : list (Command World R)) :
  LocaleConsistent →
  Forall (λ c, letterName (name c) = true) l →
  Consistent (cmdCompare localeCompare) l ∧
  ∀ x y, x ∈ l → y ∈ l →
    cmdCompare localeCompare x y = localeCompare (name x) (name y).
Proof.
  intros [Hanti Htrans] Hl. rewrite Forall_forall in Hl.
  assert (∀ x y, x ∈ l → y ∈ l →
    cmdCompare localeCompare x y = localeCompare (name x) (name y)) as Heq.
  { intros x y _ Hy. unfold cmdCompare. by rewrite (Hl y Hy). }
  split; [|done]. split.
  - intros x y Hx Hy. rewrite !Heq by done. apply Hanti.
  - intros x y z Hx Hy Hz. rewrite !Heq by done. apply Htrans.
Qed.

Lemma iteration_usage input cmdName tokens i cmd st w' subs text :
  let c := descend cmd (tokens !! i) in
  i = (length tokens - 1)%nat →
  argsFollow tokens i c = false →
  checksPass c (world st) w' →
  run c = None →
  subcommands c = Some subs →
  formatCmdList localeCompare sort subs = Return text →
  iteration input cmdName tokens i cmd [] st =
    (Return Break, mkState w' (trace st ++ [Logged (usageMessage tokens i c text)])).
Proof.
  intros c Hlast Hargs Hchk Hrun Hsubs Htext.
  unfold Command.iteration. fold c. unfold argsFollow in Hargs.
  rewrite Hargs, bind_ret. destruct st as [w tr]. cbn [world trace] in *.
  unfold bind at 1. rewrite (Hchk tr). rewrite <- Hlast, Nat.eqb_refl.
  cbn [negb andb]. rewrite Hrun, Hsubs. unfold bind at 1, lift at 1.
  by rewrite Htext.
Qed.

Lemma loop_break input cmdName tokens i rest cmd st st1 :
  iteration input cmdName tokens i cmd [] st = (Return Break, st1) →
  loop input cmdName tokens (i :: rest) cmd [] st = (Return None, st1).
Proof. intros H. cbn [Command.loop]. unfold bind at 1. by rewrite H. Qed.

(** C4 (amended).  Let a dispatch arrive at the last token, every earlier
    turn having gone on to the next token with its checks passing, and let
    the command [c] found there have subcommands and no handler, the
    checks of [c] passing and every immediate child having a name of at
    most 24 characters.  Then [execute] logs one usage block that lists
    every immediate child exactly once, calls no handler, dispatches no
    finish notification and ends without a result and without an error.
    When every name is made of letters and hyphens only, the listing is in
    the order of [localeCompare], whatever the order of the child list. *)
Theorem execute_usage input st cmdName i cmd st_i subs w' :
  SortPermutes →
  arrives input st cmdName i cmd st_i →
  let tokens := split (trim input) in
  let c := descend cmd (tokens !! i) in
  i = (length tokens - 1)%nat →
  run c = None →
  subcommands c = Some subs →
  checksPass c (world st_i) w' →
  Forall (λ s, (String.length (name s) ≤ 24)%nat) subs →
  ∃ listing,
    listing ≡ₚ subs ∧
    (SortSorts → LocaleConsistent →
     Forall (λ s, letterName (name s) = true) subs →
     StronglySorted (λ a b, (localeCompare (name a) (name b) ≤ 0)%Z) listing) ∧
    execute input st =
      (Return None,
       mkState w'
         (trace st ++
          [Dispatched (getEventName cmdName Start) (DInput (trim input));
           Logged (usageMessage tokens i c (formatLines listing))])).
Proof.
  intros Hperm Harr tokens c Hlast Hrun Hsubs Hchk Hshort.
  unfold SortPermutes in Hperm.
  exists (sort (cmdCompare localeCompare) subs). split; [apply Hperm|]. split.
  - intros Hsorts Hlocale Hletters.
    destruct (cmdCompare_letters subs Hlocale Hletters) as [Hcons Heq].
    apply (StronglySorted_on (λ a b, (cmdCompare localeCompare a b ≤ 0)%Z)).
    + intros x y Hx Hy. rewrite Hperm in Hx, Hy. by rewrite Heq.
    + by apply Hsorts.
  - destruct (arrives_execute _ _ _ _ _ _ Harr) as [Hexec Htr]. fold tokens in Hexec.
    destruct Harr as (_ & Hi & _). fold tokens in Hi.
    rewrite Hexec.
    destruct (length tokens - i)%nat as [|n] eqn:Hn; [lia|]. cbn [seq].
    rewrite (loop_break _ _ _ _ _ _ _
      (mkState w' (trace st_i ++
         [Logged (usageMessage tokens i c
            (formatLines (sort (cmdCompare localeCompare) subs)))]))).
    { by rewrite Htr, <- app_assoc. }
    apply iteration_usage with (subs := subs); try done.
    + unfold argsFollow. rewrite lookup_ge_None_2; [done|lia].
    + unfold formatCmdList. rewrite formatReduce_short; [done|].
      rewrite Hperm. eapply Forall_impl; [exact Hshort|]. simpl. lia.
Qed.

(** ** The line as it is read *)

Lemma trimStart_fixed s :
  match s with
  | EmptyString => True
  | String c _ => isWhiteSpace c = false
  end →
  trimStart s = s.
Proof. destruct s as [|a s]; [done|]. cbn. by intros ->. Qed.

Lemma trimEnd_cons (a : ascii) s :
  trimEnd (String a s) =
  match trimEnd s with
  | EmptyString => if isWhiteSpace a then EmptyString else String a EmptyString
  | t => String a t
  end.
Proof. done. Qed.

Lemma trimEnd_idempotent s : trimEnd (trimEnd s) = trimEnd s.
Proof.
  induction s as [|a s IH]; [done|]. rewrite trimEnd_cons.
  destruct (trimEnd s) as [|d t] eqn:Ht.
  - destruct (isWhiteSpace a) eqn:Ha; [done|]. rewrite trimEnd_cons. cbn. by rewrite Ha.
  - rewrite trimEnd_cons, IH. done.
Qed.

Lemma trim_idempotent s : trim (trim s) = trim s.
Proof.
  unfold trim. rewrite (trimStart_fixed (trimEnd (trimStart s))).
  - apply trimEnd_idempotent.
  - pose proof (trimStart_head s) as Hs. apply trimEnd_head in Hs.
    destruct (trimEnd (trimStart s)); done.
Qed.

Lemma append_cons (a : ascii) (s t : string) : String a s +:+ t = String a (s +:+ t).
Proof. done. Qed.

Lemma trimStart_blank ws : blank ws = true → trimStart ws = "".
Proof.
  induction ws as [|a ws IH]; [done|]. cbn [blank trimStart].
  intros [-> Hws]%andb_true_iff. by apply IH.
Qed.

Lemma trimEnd_blank ws : blank ws = true → trimEnd ws = "".
Proof.
  induction ws as [|a ws IH]; [done|]. cbn [blank].
  intros [Ha Hws]%andb_true_iff. by rewrite trimEnd_cons, (IH Hws), Ha.
Qed.

Lemma trimStart_blank_app ws s : blank ws = true → trimStart (ws +:+ s) = trimStart s.
Proof.
  induction ws as [|a ws IH]; [done|]. cbn [blank].
  intros [Ha Hws]%andb_true_iff. rewrite append_cons. cbn [trimStart].
  rewrite Ha. by apply IH.
Qed.

Lemma trimEnd_app_blank s ws : blank ws = true → trimEnd (s +:+ ws) = trimEnd s.
Proof.
  intros Hws. induction s as [|a s IH]; [by apply trimEnd_blank|].
  by rewrite append_cons, !trimEnd_cons, IH.
Qed.

(** [trim] strips the white space around a string. *)
Lemma trim_strips ws s ws' :
  blank ws = true → blank ws' = true → trim (ws +:+ s +:+ ws') = trim s.
Proof.
  intros Hws Hws'. unfold trim. rewrite (trimStart_blank_app _ _ Hws).
  induction s as [|a s IH].
  - change ("" +:+ ws') with ws'. by rewrite (trimStart_blank _ Hws').
  - rewrite append_cons. cbn [trimStart]. destruct (isWhiteSpace a); [exact IH|].
    rewrite <- append_cons. by apply trimEnd_app_blank.
Qed.

(** X1.  White space around the line is not part of it: [execute] does to a
    line with white space before and after it what it does to the line
    itself. *)
Theorem execute_trim ws input ws' st :
  blank ws = true → blank ws' = true →
  execute (ws +:+ input +:+ ws') st = execute input st.
Proof.
  intros Hws Hws'. unfold Command.execute, process. by rewrite (trim_strips _ _ _ Hws Hws').
Qed.

(** ** Event names *)

(** X2.  The event names of two commands, or of the start and the finish of one
    command, are never the same. *)
Theorem getEventName_inj n n' k k' :
  getEventName n k = getEventName n' k' ↔ n = n' ∧ k = k'.
Proof.
  split; [|by intros [-> ->]].
  destruct k, k'; cbv [getEventName String.append]; intros H;
    by simplify_eq.
Qed.

(** ** A turn that throws before the handler *)

(** The first position: the start notification has been dispatched and the
    current command is the top-level one. *)
Lemma arrives_first input st inputCmdName cmdName top :
  trim input ≠ "" →
  head (split (trim input)) = Some inputCmdName →
  topLevel inputCmdName = Some (cmdName, top) →
  arrives input st cmdName 0 top
    (mkState (world st)
       (trace st ++ [Dispatched (getEventName cmdName Start) (DInput (trim input))])).
Proof.
  intros Hne Hhead Htop. split; [done|]. split.
  - destruct (split (trim input)); [done|cbn; lia].
  - exists inputCmdName, top. split; [done|]. split; [done|]. apply reaches_top.
Qed.

(** From a position whose turn goes on, the dispatch arrives at the next
    one. *)
Lemma arrives_next input st cmdName i cmd st_i w' :
  arrives input st cmdName i cmd st_i →
  let tokens := split (trim input) in
  let c := descend cmd (tokens !! i) in
  (S i < length tokens)%nat →
  argsFollow tokens i c = false →
  checksPass c (world st_i) w' →
  arrives input st cmdName (S i) c (mkState w' (trace st_i)).
Proof.
  intros (Hne & Hi & tok & top & Htok & Htop & Hreach) tokens c Hlt Hargs Hchk.
  split; [done|]. split; [done|]. exists tok, top. split; [done|]. split; [done|].
  eapply reaches_next; [exact Hreach|].
  apply iteration_continue; [done|done|]. apply Nat.eqb_neq. subst tokens. lia.
Qed.

Lemma iteration_no_subcommand input cmdName tokens i cmd st nextToken :
  let c := descend cmd (tokens !! i) in
  tokens !! (i + 1) = Some nextToken →
  argsFollow tokens i c = true →
  args c = None →
  iteration input cmdName tokens i cmd [] st =
    (Throw (Error (noSubcommandMessage c nextToken)), st).
Proof.
  intros c Hnext Hargs Hnone. unfold Command.iteration. fold c.
  unfold argsFollow in Hargs. rewrite Hargs, Hnone, Hnext.
  cbn [default from_option id]. by rewrite bind_throw.
Qed.

(** X3.  A token that follows a command, is not the name of one of its
    subcommands and meets no argument specs at all is reported as a
    subcommand that does not exist, with the names of the subcommands
    there are.  Nothing but the start notification has happened by then:
    the checks of the command have not run. *)
Theorem execute_unknown_subcommand input st cmdName i cmd st_i nextToken :
  arrives input st cmdName i cmd st_i →
  let tokens := split (trim input) in
  let c := descend cmd (tokens !! i) in
  tokens !! (i + 1) = Some nextToken →
  nextToken ≠ "" →
  someSub c (Some nextToken) = false →
  args c = None →
  execute input st = (Throw (Error (noSubcommandMessage c nextToken)), st_i) ∧
  trace st_i =
    trace st ++ [Dispatched (getEventName cmdName Start) (DInput (trim input))].
Proof.
  intros Harr tokens c Hnext Hne Hsub Hnone.
  pose proof Harr as (_ & Hi & _).
  destruct (arrives_execute _ _ _ _ _ _ Harr) as [Hexec Htr].
  split; [|done]. rewrite Hexec. fold tokens.
  replace (length tokens - i)%nat with (S (length tokens - i - 1)) by (subst tokens; lia).
  cbn [seq]. apply loop_throw. apply iteration_no_subcommand; [done| |done].
  unfold argsFollow. fold c. rewrite Hnext, Hsub. cbn [truthy].
  apply String.eqb_neq in Hne. by rewrite Hne.
Qed.

Lemma iteration_check_throws input cmdName tokens i cmd st e st' :
  let c := descend cmd (tokens !! i) in
  let inputArgs := if argsFollow tokens i c then drop (i + 1) tokens else [] in
  (argsFollow tokens i c = true →
   ∃ specs, args c = Some specs ∧ (length inputArgs ≤ length specs)%nat) →
  handleChecks c st = (Throw e, st') →
  iteration input cmdName tokens i cmd [] st = (Throw e, st').
Proof.
  intros c inputArgs Hspecs Hchk. unfold Command.iteration. fold c.
  unfold argsFollow in *. subst inputArgs.
  destruct (truthy _ && negb _) eqn:Hargs.
  - destruct (Hspecs eq_refl) as (specs & -> & Hlen).
    apply Nat.ltb_ge in Hlen. rewrite Hlen, bind_ret.
    unfold bind at 1. by rewrite Hchk.
  - rewrite bind_ret. unfold bind at 1. by rewrite Hchk.
Qed.

(** X4.  A precondition check that throws ends the dispatch with its exception:
    no handler is called, nothing is logged and no finish notification is
    dispatched. *)
Theorem execute_precheck_throws input st cmdName i cmd st_i e st' :
  arrives input st cmdName i cmd st_i →
  let tokens := split (trim input) in
  let c := descend cmd (tokens !! i) in
  let inputArgs := if argsFollow tokens i c then drop (i + 1) tokens else [] in
  (argsFollow tokens i c = true →
   ∃ specs, args c = Some specs ∧ (length inputArgs ≤ length specs)%nat) →
  handleChecks c st_i = (Throw e, st') →
  execute input st = (Throw e, st') ∧
  trace st' =
    trace st ++ [Dispatched (getEventName cmdName Start) (DInput (trim input))].
Proof.
  intros Harr tokens c inputArgs Hspecs Hchk.
  pose proof Harr as (_ & Hi & _).
  destruct (arrives_execute _ _ _ _ _ _ Harr) as [Hexec Htr].
  split; [|by rewrite (handleChecks_trace _ _ _ _ Hchk)].
  rewrite Hexec. fold tokens.
  replace (length tokens - i)%nat with (S (length tokens - i - 1)) by (subst tokens; lia).
  cbn [seq]. apply loop_throw. by apply iteration_check_throws.
Qed.

(** X5.  The checks of a command run in order and the first one that throws is
    the last one that runs: the checks after it have no part in the
    outcome. *)
Theorem runPreChecks_first_failure (pre post : list (@PreCheck World))
    (c : @PreCheck World) st st1 e w :
  runPreChecks pre st = (Return tt, st1) →
  c (world st1) = (Throw e, w) →
  runPreChecks (pre ++ c :: post) st = (Throw e, mkState w (trace st1)).
Proof.
  revert st. induction pre as [|p pre IH]; intros st Hpre Hc.
  - injection Hpre as <-. cbn. unfold bind, check. by rewrite Hc.
  - cbn in *. unfold bind, check in *.
    destruct (p (world st)) as [[[]|e'] w'] eqn:Hp; [|done].
    by apply IH.
Qed.

(** ** A turn that runs the handler *)

Lemma iteration_handler input cmdName tokens i cmd st w' handler parsed :
  let c := descend cmd (tokens !! i) in
  let inputArgs := if argsFollow tokens i c then drop (i + 1) tokens else [] in
  (argsFollow tokens i c = false → i = (length tokens - 1)%nat) →
  (argsFollow tokens i c = true →
   ∃ specs, args c = Some specs ∧ (length inputArgs ≤ length specs)%nat) →
  checksPass c (world st) w' →
  run c = Some handler →
  parseArgs (default [] (args c)) 0 inputArgs ∅ = Return parsed →
  iteration input cmdName tokens i cmd [] st =
    let (out, w) := handler input (mkParsed parsed) w' in
    (stepOf out,
     mkState w (trace st ++ Ran c input (mkParsed parsed) out :: finishOf cmdName out)).
Proof.
  intros c inputArgs Hlast Hspecs Hchk Hrun Hparse.
  unfold Command.iteration. fold c.
  pose proof (argsFollow_drop tokens i c) as Hdrop.
  unfold argsFollow in *. subst inputArgs.
  destruct st as [w tr]. cbn [world trace] in *.
  destruct (truthy _ && negb _) eqn:Hargs.
  - destruct (Hspecs eq_refl) as (specs & Hs & Hlen). rewrite Hs in *.
    apply Nat.ltb_ge in Hlen. rewrite Hlen, bind_ret.
    unfold bind at 1. rewrite (Hchk tr).
    rewrite Hdrop by done. rewrite andb_false_r, Hrun.
    unfold bind at 1, lift at 1. rewrite Hparse.
    rewrite handler_step. cbn [world trace].
    by destruct (handler _ _ _) as [[r|e] w2].
  - rewrite bind_ret. unfold bind at 1. rewrite (Hchk tr).
    rewrite <- Hlast by done. rewrite Nat.eqb_refl. cbn [negb andb]. rewrite Hrun.
    unfold bind at 1, lift at 1. rewrite Hparse.
    rewrite handler_step. cbn [world trace].
    by destruct (handler _ _ _) as [[r|e] w2].
Qed.

(** X6.  A dispatch that arrives at a command with a handler, at the end of the
    line or with no more argument tokens than the command has specs, with
    the checks of the command passing and no required argument missing,
    calls that handler once with the trimmed line and the parsed mapping.
    It ends as the handler ends: with its result after one finish
    notification that carries the result, or with its exception and no
    finish notification. *)
Theorem execute_runs_handler input st cmdName i cmd st_i handler w' parsed :
  arrives input st cmdName i cmd st_i →
  let tokens := split (trim input) in
  let c := descend cmd (tokens !! i) in
  let inputArgs := if argsFollow tokens i c then drop (i + 1) tokens else [] in
  (argsFollow tokens i c = false → i = (length tokens - 1)%nat) →
  (argsFollow tokens i c = true →
   ∃ specs, args c = Some specs ∧ (length inputArgs ≤ length specs)%nat) →
  checksPass c (world st_i) w' →
  run c = Some handler →
  parseArgs (default [] (args c)) 0 inputArgs ∅ = Return parsed →
  let (out, w) := handler (trim input) (mkParsed parsed) w' in
  execute input st =
    (handlerResult out,
     mkState w
       (trace st ++
        Dispatched (getEventName cmdName Start) (DInput (trim input)) ::
        Ran c (trim input) (mkParsed parsed) out :: finishOf cmdName out)).
Proof.
  intros Harr tokens c inputArgs Hlast Hspecs Hchk Hrun Hparse.
  pose proof Harr as (_ & Hi & _).
  destruct (arrives_execute _ _ _ _ _ _ Harr) as [Hexec Htr].
  pose proof (iteration_handler (trim input) cmdName tokens i cmd st_i w' handler parsed
                Hlast Hspecs Hchk Hrun Hparse) as Hit.
  fold c in Hit.
  destruct (handler (trim input) (mkParsed parsed) w') as [out w] eqn:Hh.
  rewrite Hexec. fold tokens.
  replace (length tokens - i)%nat with (S (length tokens - i - 1)) by (subst tokens; lia).
  cbn [seq]. rewrite (loop_run _ _ _ _ _ _ _ out _ Hit).
  rewrite Htr. by rewrite <- app_assoc.
Qed.

(** ** The lines of formatCmdList *)

Lemma length_append (x y : string) :
  String.length (x +:+ y) = (String.length x + String.length y)%nat.
Proof.
  induction x as [|a x IH]; [done|].
  change (S (String.length (x +:+ y)) = S (String.length x + String.length y)).
  by rewrite IH.
Qed.

Lemma length_spaces n : String.length (spaces n) = n.
Proof. induction n as [|n IH]; [done|]. cbn. by rewrite IH. Qed.

(** X7.  For names of at most 24 characters [formatCmdList] returns one line for
    every entry of the list, in the order the engine sorts them in: four
    spaces, the name, spaces up to 25 characters, the description and a
    line feed.  So the description starts at column 29 in every line. *)
Theorem formatCmdList_lines (list : list (Command World R)) :
  SortPermutes →
  Forall (λ c, (String.length (name c) ≤ 24)%nat) list →
  ∃ listing,
    listing ≡ₚ list ∧
    formatCmdList localeCompare sort list = Return (formatLines listing) ∧
    ∀ c, c ∈ list →
      ∃ column,
        formatLine c = column +:+ description c +:+ nl ∧
        column = "    " +:+ name c +:+ spaces (25 - String.length (name c)) ∧
        String.length column = 29%nat.
Proof.
  intros Hperm Hshort. exists (sort (cmdCompare localeCompare) list).
  split; [apply Hperm|]. split.
  - unfold Command.formatCmdList. rewrite formatReduce_short; [done|].
    unfold SortPermutes in Hperm. rewrite Hperm.
    eapply Forall_impl; [exact Hshort|]. simpl. lia.
  - intros c Hc. eexists. split; [|split; [reflexivity|]].
    + unfold formatLine. by rewrite !append_assoc.
    + rewrite Forall_forall in Hshort. specialize (Hshort c Hc). simpl in Hshort.
      rewrite !length_append, length_spaces. cbn. lia.
Qed.

(** ** Names and completions *)

Lemma execute_not_found input st inputCmdName :
  trim input ≠ "" →
  head (split (trim input)) = Some inputCmdName →
  topLevel inputCmdName = None →
  execute input st = (Throw (Error (notFoundMessage italic inputCmdName)), st).
Proof.
  intros Hne Hhead Hnone. unfold Command.execute, process.
  rewrite first_token_truthy. apply String.eqb_neq in Hne. rewrite Hne. cbn [negb].
  rewrite Hhead. cbn [default from_option id]. by rewrite Hnone.
Qed.


(** X9.  The top-level lookup is by code name.  A command whose name is the code
    name of no command is among the names of [getNames], and the line made
    of its name is answered with the not-found error. *)
Theorem execute_name_is_no_code_name k c st :
  (k, c) ∈ commands →
  (∀ k' c', (k', c') ∈ commands → k' ≠ name c) →
  name c ≠ "" →
  split (trim (name c)) = [name c] →
  name c ∈ getNames commands ∧
  execute (name c) st = (Throw (Error (notFoundMessage italic (name c))), st).
Proof.
  intros Hin Hkeys Hne Hsplit. split.
  - unfold getNames. apply list_elem_of_fmap. by exists (k, c).
  - apply execute_not_found.
    + intros Hempty. rewrite Hempty in Hsplit. cbn in Hsplit. by injection Hsplit.
    + by rewrite Hsplit.
    + destruct (Command.topLevel commands (name c)) as [[k' c']|] eqn:Hfind; [|done].
      apply find_some in Hfind as [Hin' Hk]. cbn in Hk. apply String.eqb_eq in Hk.
      destruct (Hkeys k' c'); [by apply list_elem_of_In|done].
Qed.






End Facts.

(** ** The reference engine meets the contract of the engine *)

Lemma insertInto_perm {A : Type} (cmp : A → A → Z) x l : insertInto cmp x l ≡ₚ x :: l.
Proof.
  induction l as [|y l IH]; cbn [insertInto]; [done|].
  destruct (cmp x y <? 0)%Z; [done|]. rewrite IH. apply Permutation_swap.
Qed.

Lemma insertionSort_perm {A : Type} (cmp : A → A → Z) l : insertionSort cmp l ≡ₚ l.
Proof.
  unfold insertionSort.
  assert (∀ acc, foldl (λ acc x, insertInto cmp x acc) acc l ≡ₚ l ++ acc) as H.
  { induction l as [|x l IH]; intros acc; cbn [foldl]; [done|].
    rewrite IH, insertInto_perm. symmetry. apply Permutation_middle. }
  by rewrite H, app_nil_r.
Qed.

Lemma insertInto_sorted {A : Type} (cmp : A → A → Z) (L : list A) x l :
  Consistent cmp L → x ∈ L → l ⊆ L →
  StronglySorted (λ a b, (cmp a b ≤ 0)%Z) l →
  StronglySorted (λ a b, (cmp a b ≤ 0)%Z) (insertInto cmp x l).
Proof.
  intros [Hanti Htrans] Hx Hl Hs. induction Hs as [|y l Hs IH Hy]; cbn [insertInto].
  - repeat constructor.
  - assert (y ∈ L) as HyL by (apply Hl; by left).
    assert (l ⊆ L) as HlL by (intros z Hz; apply Hl; by right).
    destruct (cmp x y <? 0)%Z eqn:Hc.
    + apply Z.ltb_lt in Hc. constructor; [by constructor|].
      constructor; [simpl; lia|]. rewrite Forall_forall in *. intros z Hz.
      apply (Htrans x y z); [done|done|by apply HlL|lia|by apply Hy].
    + apply Z.ltb_ge in Hc. constructor; [by apply IH|].
      rewrite Forall_forall in *. intros z Hz.
      rewrite insertInto_perm in Hz. apply elem_of_cons in Hz as [->|Hz]; [|by apply Hy].
      destruct (Hanti x y Hx HyL) as [_ H2]. simpl.
      destruct (Z.lt_trichotomy (cmp y x) 0) as [?|[?|?]]; [lia|lia|].
      specialize (H2 ltac:(lia)). lia.
Qed.

Lemma insertionSort_sorted {A : Type} (cmp : A → A → Z) l :
  Consistent cmp l → StronglySorted (λ a b, (cmp a b ≤ 0)%Z) (insertionSort cmp l).
Proof.
  intros Hc. unfold insertionSort.
  assert (∀ l' acc, l' ⊆ l → acc ⊆ l →
    StronglySorted (λ a b, (cmp a b ≤ 0)%Z) acc →
    StronglySorted (λ a b, (cmp a b ≤ 0)%Z) (foldl (λ acc x, insertInto cmp x acc) acc l'))
    as H.
  { induction l' as [|x l' IH]; intros acc Hl' Hacc Hs; cbn [foldl]; [done|].
    apply IH.
    - intros z Hz. apply Hl'. by right.
    - intros z Hz. rewrite insertInto_perm in Hz.
      apply elem_of_cons in Hz as [->|Hz]; [apply Hl'; by left|by apply Hacc].
    - apply (insertInto_sorted cmp l); [done|apply Hl'; by left|done|done]. }
  apply H; [done|intros z Hz; by apply elem_of_nil in Hz|constructor].
Qed.

Lemma codeUnitCompare_le a b : (codeUnitCompare a b ≤ 0)%Z ↔ String.le a b.
Proof.
  unfold codeUnitCompare, String.le, String.leb.
  destruct (String.compare a b); simpl; split; (done || lia).
Qed.

Lemma codeUnitCompare_consistent :
  (∀ x y, (codeUnitCompare x y < 0 ↔ 0 < codeUnitCompare y x)%Z) ∧
  (∀ x y z, (codeUnitCompare x y ≤ 0 → codeUnitCompare y z ≤ 0 →
             codeUnitCompare x z ≤ 0)%Z).
Proof.
  split.
  - intros x y. unfold codeUnitCompare. rewrite (String.compare_antisym y x).
    destruct (String.compare x y); simpl; lia.
  - intros x y z. rewrite !codeUnitCompare_le. apply transitivity.
Qed.

(** ** The dispatcher on the small command tree *)

Import Demo.

(** *** C1 *)

Lemma execute_foo_bar_baz_witness :
  exec [("foo", foo)] "foo bar baz" =
    (Return (Some "foo bar baz"),
     mkState tt
       [Dispatched "ondidrunstartfoo" (DInput "foo bar baz");
        Ran bar "foo bar baz" (mkParsed {[ "target" := Some "baz" ]})
          (Return "foo bar baz");
        Dispatched "ondidrunfinishfoo" (DResult "foo bar baz")]).
Proof.
  exact (execute_foo_bar_baz plain codeUnitCompare insertionSort [("foo", foo)]
           foo bar echo st0 tt tt eq_refl eq_refl eq_refl eq_refl eq_refl eq_refl
           (λ tr, eq_refl) (λ tr, eq_refl)).
Defined.

(** A check of [foo] that throws keeps the handler of [bar] from running,
    and so does a subcommand of [foo] that is itself named [foo]. *)
Lemma execute_foo_bar_baz_counterexample :
  (topLevel [("foo", fooGuarded)] "foo" = Some ("foo", fooGuarded) ∧
   findSub fooGuarded (Some "bar") = Some bar ∧
   run bar = Some echo ∧
   args bar = Some [mkArg "target" false] ∧
   someSub bar (Some "baz") = false ∧
   exec [("foo", fooGuarded)] "foo bar baz" =
     (Throw (Error "Not connected"),
      mkState tt [Dispatched "ondidrunstartfoo" (DInput "foo bar baz")])) ∧
  (topLevel [("foo", fooSelf)] "foo" = Some ("foo", fooSelf) ∧
   In bar (default [] (subcommands fooSelf)) ∧
   ∃ message,
     exec [("foo", fooSelf)] "foo bar baz" =
       (Throw (Error message),
        mkState tt [Dispatched "ondidrunstartfoo" (DInput "foo bar baz")])).
Proof.
  split.
  - repeat apply conj; reflexivity.
  - split; [reflexivity|]. split; [right; left; reflexivity|].
    eexists. vm_compute. reflexivity.
Qed.

(** *** C2 *)

Lemma execute_notifications_witness :
  exec [("foo", foo)] "foo bar baz" =
    (Return (Some "foo bar baz"),
     mkState tt
       [Dispatched "ondidrunstartfoo" (DInput "foo bar baz");
        Ran bar "foo bar baz" (mkParsed {[ "target" := Some "baz" ]})
          (Return "foo bar baz");
        Dispatched "ondidrunfinishfoo" (DResult "foo bar baz")]) ∧
  ∃ inputCmdName, head (split (trim "foo bar baz")) = Some inputCmdName ∧
    match topLevel [("foo", foo)] inputCmdName with
    | None =>
        Return (Some "foo bar baz") = Throw (Error (notFoundMessage plain inputCmdName)) ∧
        mkState tt
          [Dispatched "ondidrunstartfoo" (DInput "foo bar baz");
           Ran bar "foo bar baz" (mkParsed {[ "target" := Some "baz" ]})
             (Return "foo bar baz");
           Dispatched "ondidrunfinishfoo" (DResult "foo bar baz")] = st0
    | Some (cmdName, _) =>
        ∃ new,
          [Dispatched "ondidrunstartfoo" (DInput "foo bar baz");
           Ran bar "foo bar baz" (mkParsed {[ "target" := Some "baz" ]})
             (Return "foo bar baz");
           Dispatched "ondidrunfinishfoo" (DResult "foo bar baz")] =
            [] ++ Dispatched (getEventName cmdName Start) (DInput (trim "foo bar baz")) :: new ∧
          (((new = [] ∨ ∃ text, new = [Logged text]) ∧
            (Return (Some "foo bar baz") = Return None ∨
             ∃ e, @Return (option string) (Some "foo bar baz") = Throw e)) ∨
           (∃ c p e, new = [Ran c (trim "foo bar baz") p (Throw e)] ∧
              @Return (option string) (Some "foo bar baz") = Throw e) ∨
           (∃ c p r,
              new = [Ran c (trim "foo bar baz") p (Return r);
                     Dispatched (getEventName cmdName Finish) (DResult r)] ∧
              Return (Some "foo bar baz") = Return (Some r)))
    end.
Proof.
  split; [reflexivity|].
  exact (proj2 (execute_notifications plain codeUnitCompare insertionSort
                  [("foo", foo)] "foo bar baz" st0 _ _ eq_refl)
           ltac:(discriminate)).
Defined.

(** A blank line is not an error, and the start notification carries the
    trimmed line. *)
Lemma execute_notifications_counterexample :
  (head (split (trim "   ")) = Some "" ∧
   topLevel [("foo", foo)] "" = None ∧
   exec [("foo", foo)] "   " = (Return None, st0)) ∧
  (∃ new,
     trace (exec [("foo", foo)] " foo bar baz").2 =
       Dispatched "ondidrunstartfoo" (DInput "foo bar baz") :: new ∧
     "foo bar baz" ≠ " foo bar baz").
Proof.
  split; [repeat apply conj; reflexivity|].
  eexists. split; [vm_compute; reflexivity|discriminate].
Qed.

(** *** C3 *)

Lemma arrives_foo_bar input :
  trim input = input →
  input ≠ "" →
  take 2 (split input) = ["foo"; "bar"] →
  arrives codeUnitCompare insertionSort [("foo", foo)] input st0 "foo" 1 foo
    (started "foo" input).
Proof.
  intros Htrim Hne Htok. unfold arrives. rewrite Htrim.
  destruct (split input) as [|t0 [|t1 tokens]] eqn:Hsplit; try discriminate.
  injection Htok as -> ->.
  split; [done|]. split; [cbn; lia|]. exists "foo", foo.
  split; [done|]. split; [done|].
  eapply reaches_next; [apply reaches_top|]. by destruct tokens.
Defined.

Lemma execute_argument_errors_witness :
  exec [("foo", foo)] "foo bar baz qux" =
    (Throw (Error "Provided argument count is higher than expected: 2"),
     started "foo" "foo bar baz qux") ∧
  exec [("foo", foo)] "foo bar" =
    (Throw (Error "Argument not specified: `target`"), started "foo" "foo bar").
Proof.
  split.
  - exact (proj1 (proj2 (execute_argument_errors plain codeUnitCompare insertionSort
             [("foo", foo)] "foo bar baz qux" st0 "foo" 1 foo _ [mkArg "target" false]
             (arrives_foo_bar "foo bar baz qux" eq_refl ltac:(discriminate) eq_refl)
             eq_refl))
           ltac:(vm_compute; lia)).
  - exact (proj2 (proj2 (execute_argument_errors plain codeUnitCompare insertionSort
             [("foo", foo)] "foo bar" st0 "foo" 1 foo _ [mkArg "target" false]
             (arrives_foo_bar "foo bar" eq_refl ltac:(discriminate) eq_refl)
             eq_refl))
           echo tt [] (mkArg "target" false) []
           ltac:(vm_compute; lia) (λ _, eq_refl) (λ tr, eq_refl) eq_refl eq_refl
           (λ j b H, ltac:(discriminate H)) eq_refl).
Defined.

(** With a required argument missing, a check that throws decides the
    error, and a command without a handler prints its usage; with too many
    arguments, a check of an earlier turn that throws decides the error. *)
Lemma execute_argument_errors_counterexample :
  (args guarded = Some [mkArg "path" false] ∧
   exec [("deploy", guarded)] "deploy" =
     (Throw (Error "Not connected"), started "deploy" "deploy")) ∧
  (args group = Some [mkArg "path" false] ∧
   ∃ text,
     exec [("group", group)] "group" =
       (Return None,
        mkState tt [Dispatched "ondidrunstartgroup" (DInput "group"); Logged text])) ∧
  (args bar = Some [mkArg "target" false] ∧
   exec [("foo", fooGuarded)] "foo bar a b" =
     (Throw (Error "Not connected"), started "foo" "foo bar a b")).
Proof.
  split; [split; reflexivity|]. split; [|split; reflexivity].
  split; [reflexivity|]. eexists. vm_compute. reflexivity.
Qed.

(** A turn that finds no argument tokens before the end of the line goes
    on: with two spaces after [bar] the turn of [bar] reads no arguments,
    and the next turn, at the empty token, reads [x]. *)
Example execute_argument_errors_gap :
  exec [("bar", bar)] "bar  x" =
    (Return (Some "bar  x"),
     mkState tt
       [Dispatched "ondidrunstartbar" (DInput "bar  x");
        Ran bar "bar  x" (mkParsed {[ "target" := Some "x" ]}) (Return "bar  x");
        Dispatched "ondidrunfinishbar" (DResult "bar  x")]).
Proof. reflexivity. Qed.

(** *** C5 *)

Lemma handler_parsed_arguments_witness :
  exec [("build", opt)] "build" =
    (Return (Some "build"),
     mkState tt
       [Dispatched "ondidrunstartbuild" (DInput "build");
        Ran opt "build" (mkParsed {[ "path" := None ]}) (Return "build");
        Dispatched "ondidrunfinishbuild" (DResult "build")]) ∧
  ∃ cmdName i cmd st_i,
    arrives codeUnitCompare insertionSort [("build", opt)] "build" st0 cmdName i cmd st_i ∧
    let tokens := split (trim "build") in
    let inputArgs := if argsFollow tokens i opt then drop (i + 1) tokens else [] in
    let specs := default [] (args opt) in
    opt = descend cmd (tokens !! i) ∧
    "build" = trim "build" ∧
    (∀ key, is_Some (({[ "path" := None ]} : gmap string (option string)) !! key) ↔
       key ≠ "__proto__" ∧ ∃ j a, specs !! j = Some a ∧ arg_name a = key) ∧
    (∀ j a, specs !! j = Some a →
       arg_name a ≠ "__proto__" →
       (∀ j' b, (j < j')%nat → specs !! j' = Some b → arg_name b ≠ arg_name a) →
       ({[ "path" := None ]} : gmap string (option string)) !! arg_name a =
         Some (inputArgs !! j)).
Proof.
  split; [reflexivity|].
  exact (handler_parsed_arguments plain codeUnitCompare insertionSort
           [("build", opt)] "build" st0 _ _ opt "build"
           (mkParsed {[ "path" := None ]}) (Return "build")
           eq_refl ltac:(right; left)).
Defined.

(** The optional argument without a token is a key of the mapping. *)
Lemma handler_parsed_arguments_counterexample :
  args opt = Some [mkArg "path" true] ∧
  ∃ parsed,
    exec [("build", opt)] "build" =
      (Return (Some "build"),
       mkState tt
         [Dispatched "ondidrunstartbuild" (DInput "build");
          Ran opt "build" parsed (Return "build");
          Dispatched "ondidrunfinishbuild" (DResult "build")]) ∧
    parsed_args parsed !! "path" = Some None.
Proof.
  split; [reflexivity|]. exists (mkParsed {[ "path" := None ]}).
  split; reflexivity.
Qed.

(** A spec named [__proto__] defines no key: the mapping of the line
    [link a b] holds the second argument only. *)
Example handler_parsed_arguments_proto :
  exec [("link", proto)] "link a b" =
    (Return (Some "link a b"),
     mkState tt
       [Dispatched "ondidrunstartlink" (DInput "link a b");
        Ran proto "link a b" (mkParsed {[ "path" := Some "b" ]}) (Return "link a b");
        Dispatched "ondidrunfinishlink" (DResult "link a b")]).
Proof. reflexivity. Qed.

(** *** C10 *)

Lemma formatCmdList_long_name_witness :
  (∃ c, c ∈ [help; long] ∧ (25 ≤ String.length (name c))%nat) ∧
  ∃ first, first ∈ [help; long] ∧ (25 ≤ String.length (name first))%nat ∧
    formatCmdList codeUnitCompare insertionSort [help; long] =
      Throw (if (String.length (name first) =? 25)%nat then TypeError else RangeError).
Proof.
  assert (∃ c, c ∈ [help; long] ∧ (25 ≤ String.length (name c))%nat) as H.
  { exists long. split; [right; left|vm_compute; lia]. }
  split; [exact H|].
  exact (proj1 (proj2 (proj2 (formatCmdList_long_name codeUnitCompare insertionSort
           [help; long] (λ cmp l, insertionSort_perm cmp l)))) H).
Defined.

(** *** C4 *)

Lemma arrives_top (cmd : Cmd) key :
  key ≠ "" → trim key = key → split key = [key] →
  arrives codeUnitCompare insertionSort [(key, cmd)] key st0 key 0 cmd
    (started key key).
Proof.
  intros Hne Htrim Hsplit. unfold arrives. rewrite Htrim, Hsplit.
  split; [done|]. split; [cbn; lia|]. exists key, cmd.
  split; [done|]. split; [|apply reaches_top].
  unfold topLevel. cbn. by rewrite String.eqb_refl.
Defined.

Lemma execute_usage_witness :
  ∃ listing,
    listing ≡ₚ [help; bar] ∧
    StronglySorted (λ a b, (codeUnitCompare (name a) (name b) ≤ 0)%Z) listing ∧
    exec [("tidy", tidy)] "tidy" =
      (Return None,
       mkState tt
         [Dispatched "ondidrunstarttidy" (DInput "tidy");
          Logged (usageMessage ["tidy"] 0 tidy (formatLines listing))]).
Proof.
  destruct (execute_usage plain codeUnitCompare insertionSort [("tidy", tidy)]
              "tidy" st0 "tidy" 0 tidy (started "tidy" "tidy") [help; bar] tt
              (λ cmp l, insertionSort_perm cmp l)
              (arrives_top tidy "tidy" ltac:(discriminate) eq_refl eq_refl)
              eq_refl eq_refl eq_refl (λ tr, eq_refl)
              ltac:(repeat constructor; vm_compute; lia))
    as (listing & Hperm & Hsorted & Hexec).
  exists listing. split; [exact Hperm|]. split; [|exact Hexec].
  apply Hsorted.
  - exact (λ cmp l, insertionSort_sorted cmp l).
  - exact codeUnitCompare_consistent.
  - repeat constructor.
Defined.

(** A child with a name of 25 characters makes the usage throw, and with
    the children [help] and [!!] in this order the entry [!!] is listed
    first. *)
Lemma execute_usage_counterexample :
  (subcommands wide = Some [long] ∧ run wide = None ∧
   exec [("wide", wide)] "wide" = (Throw TypeError, started "wide" "wide")) ∧
  (SortPermutes (World := unit) (R := string) insertionSort ∧
   SortSorts (World := unit) (R := string) insertionSort ∧
   LocaleConsistent codeUnitCompare ∧
   subcommands menu = Some [help; again] ∧ run menu = None ∧
   letterName (name again) = false ∧
   exec [("menu", menu)] "menu" =
     (Return None,
      mkState tt
        [Dispatched "ondidrunstartmenu" (DInput "menu");
         Logged (usageMessage ["menu"] 0 menu (formatLines [again; help]))])).
Proof.
  split; [repeat apply conj; reflexivity|].
  split; [exact (λ cmp l, insertionSort_perm cmp l)|].
  split; [exact (λ cmp l, insertionSort_sorted cmp l)|].
  split; [exact codeUnitCompare_consistent|].
  repeat apply conj; reflexivity.
Qed.

(** The checks of the commands on the way run first: under a parent whose
    check throws, the line that ends at [menu] ends with that exception
    and prints no usage. *)
Example execute_usage_guarded :
  subcommands menu = Some [help; again] ∧ run menu = None ∧
  exec [("foo", guardedMenu)] "foo menu" =
    (Throw (Error "Not connected"), started "foo" "foo menu").
Proof. repeat apply conj; reflexivity. Qed.

(** *** A line with white space around it *)

Lemma execute_trim_witness :
  exec [("build", opt)] "  build src " = exec [("build", opt)] "build src".
Proof.
  exact (execute_trim plain codeUnitCompare insertionSort [("build", opt)]
           "  " "build src" " " st0 eq_refl eq_refl).
Defined.

(** *** Lines the dispatcher refuses *)

Lemma execute_unknown_subcommand_witness :
  exec [("foo", foo)] "foo baz" =
    (Throw (Error (noSubcommandMessage foo "baz")), started "foo" "foo baz") ∧
  join ", " (map name (default [] (subcommands foo))) = "bar".
Proof.
  split; [|reflexivity].
  exact (proj1 (execute_unknown_subcommand plain codeUnitCompare insertionSort
                  [("foo", foo)] "foo baz" st0 "foo" 0 foo _ "baz"
                  (arrives_first codeUnitCompare insertionSort [("foo", foo)]
                     "foo baz" st0 "foo" "foo" foo
                     ltac:(discriminate) eq_refl eq_refl)
                  eq_refl ltac:(discriminate) eq_refl eq_refl)).
Defined.

Lemma execute_precheck_throws_witness :
  exec [("deploy", guarded)] "deploy program.so" =
    (Throw (Error "Not connected"), started "deploy" "deploy program.so").
Proof.
  exact (proj1 (execute_precheck_throws plain codeUnitCompare insertionSort
                  [("deploy", guarded)] "deploy program.so" st0 "deploy" 0 guarded _
                  (Error "Not connected") _
                  (arrives_first codeUnitCompare insertionSort [("deploy", guarded)]
                     "deploy program.so" st0 "deploy" "deploy" guarded
                     ltac:(discriminate) eq_refl eq_refl)
                  ltac:(intros _; exists [mkArg "path" false];
                        split; [reflexivity|vm_compute; lia])
                  eq_refl)).
Defined.

(** Checks that write their name down: the third one never runs. *)
Lemma runPreChecks_first_failure_witness :
  runPreChecks (World := list string) (R := string)
    [λ w, (Return tt, w ++ ["wallet"]);
     λ w, (Throw (Error "Not connected"), w ++ ["connection"]);
     λ w, (Return tt, w ++ ["balance"])]
    (mkState [] []) =
  (Throw (Error "Not connected"), mkState ["wallet"; "connection"] []).
Proof.
  exact (runPreChecks_first_failure (World := list string) (R := string)
           [λ w, (Return tt, w ++ ["wallet"])]
           [λ w, (Return tt, w ++ ["balance"])]
           (λ w, (Throw (Error "Not connected"), w ++ ["connection"]))
           (mkState [] []) (mkState ["wallet"] []) (Error "Not connected")
           ["wallet"; "connection"] eq_refl eq_refl).
Defined.

(** *** A line that runs a handler *)

Lemma execute_runs_handler_witness :
  exec [("build", opt)] "  build src " =
    (Return (Some "build src"),
     mkState tt
       [Dispatched "ondidrunstartbuild" (DInput "build src");
        Ran opt "build src" (mkParsed {[ "path" := Some "src" ]}) (Return "build src");
        Dispatched "ondidrunfinishbuild" (DResult "build src")]).
Proof.
  exact (execute_runs_handler plain codeUnitCompare insertionSort
           [("build", opt)] "  build src " st0 "build" 0 opt _ echo tt
           {[ "path" := Some "src" ]}
           (arrives_first codeUnitCompare insertionSort [("build", opt)]
              "  build src " st0 "build" "build" opt
              ltac:(discriminate) eq_refl eq_refl)
           (λ H, ltac:(discriminate H))
           ltac:(intros _; exists [mkArg "path" true];
                 split; [reflexivity|vm_compute; lia])
           (λ tr, eq_refl) eq_refl eq_refl).
Defined.

(** *** The list of commands *)

Lemma formatCmdList_lines_witness :
  ∃ listing,
    listing ≡ₚ [help; bar] ∧
    formatCmdList codeUnitCompare insertionSort [help; bar] = Return (formatLines listing) ∧
    ∀ c, c ∈ [help; bar] →
      ∃ column,
        formatLine c = column +:+ description c +:+ nl ∧
        column = "    " +:+ name c +:+ spaces (25 - String.length (name c)) ∧
        String.length column = 29%nat.
Proof.
  apply (formatCmdList_lines codeUnitCompare insertionSort [help; bar]
           (λ cmp l, insertionSort_perm cmp l)).
  repeat constructor; vm_compute; lia.
Defined.

Example formatCmdList_ex :
  formatCmdList codeUnitCompare insertionSort [help; bar] =
    Return ("    bar                      Bar" +:+ nl +:+
            "    help                     Print help" +:+ nl).
Proof. reflexivity. Qed.

(** *** Names and completions *)



Lemma execute_name_is_no_code_name_witness :
  "build" ∈ getNames [("b", opt)] ∧
  exec [("b", opt)] "build" = (Throw (Error "Command `build` not found."), st0).
Proof.
  apply (execute_name_is_no_code_name plain codeUnitCompare insertionSort
           [("b", opt)] "b" opt st0).
  - by left.
  - intros k' c' Hin. rewrite elem_of_cons, elem_of_nil in Hin.
    destruct Hin as [[= -> ->]|[]]. discriminate.
  - discriminate.
  - reflexivity.
Defined.



(** With two subcommands of one name the completions are those of the
    last one, and the dispatcher descends to the first one. *)
Example completions_of_a_shared_name :
  let inner := mkCommand "bar" "Second" None None (Some echo) (Some [help]) in
  let outer : Cmd := mkCommand "top" "Top" None None None (Some [bar; inner]) in
  entries (completionsOf outer) !! "bar" = Some (completionsOf inner) ∧
  findSub outer (Some "bar") = Some bar ∧
  completionsOf inner ≠ completionsOf bar.
Proof. cbv zeta. split; [reflexivity|]. split; [reflexivity|]. vm_compute. intros [=]. Qed.

End CommandSpec.

(** * The theme manager, specified *)

Module ThemeSpec.
Import Theme.

(** ** A small theme *)

Module Palette.

(** Integers and [NaN] as the numbers of the engine. *)
#[export] Instance integers : JsNumber (option Z) := {|
  num_lit n := Some (Z.of_nat n);
  num_nan := None;
  num_add a b := match a, b with Some x, Some y => Some (x + y)%Z | _, _ => None end;
  num_falsy a := match a with Some x => (x =? 0)%Z | None => true end;
  num_show a := match a with Some x => NilZero.string_of_int (Z.to_int x) | None => "NaN" end;
|}.

Definition Value : Type := JsValue (option Z).

Definition isUpper (c : ascii) : bool :=
  let n := nat_of_ascii c in (65 <=? n)%nat && (n <=? 90)%nat.

(** Modelled from the spec: [PgCommon.toKebabFromCamel] is defined in
    [../common], outside [theme.ts].  It converts a key from camel-case to
    kebab-case: every upper-case letter becomes a hyphen and the letter in
    lower case. *)
Fixpoint kebabCase (s : string) : string :=
  match s with
  | EmptyString => EmptyString
  | String c s' =>
      if isUpper c
      then String "-" (String (ascii_of_nat (nat_of_ascii c + 32)) (kebabCase s'))
      else String c (kebabCase s')
  end.

Definition borderRadius : Value := JStr "4px".
Definition boxShadow : Value := JStr "0 0 1px black".
Definition fontOther : Value :=
  JObj [("family", JStr "sans-serif");
        ("size", JObj [("small", JStr "0.8rem"); ("medium", JStr "1rem")])].
Definition scrollbar : Value :=
  JObj [("dark", JObj [("thumb", JStr "#fff")]); ("light", JObj [("thumb", JStr "#000")])].
Definition transition : Value :=
  JObj [("type", JStr "linear"); ("duration", JObj [("medium", JStr "250ms")])].
Definition transparency : Value :=
  JObj [("low", JStr "16"); ("medium", JStr "64"); ("high", JStr "bb")].

Definition mono : PgFont (option Z) :=
  mkFont "JetBrains Mono"
    (JObj [("small", JStr "0.8rem"); ("medium", JStr "0.9rem");
           ("large", JStr "1rem"); ("xlarge", JStr "1.1rem")]).

Definition state (color : string) : Value := JObj [("color", JStr color)].

(** A theme that gives colors and two fields of its own. *)
Definition dracula : Value :=
  JObj [("isDark", JBool true);
        ("colors",
         JObj [("default",
                JObj [("bgPrimary", JStr "#282A36"); ("bgSecondary", JStr "#21222C");
                      ("primary", JStr "#BD93F9"); ("secondary", JStr "#FF79C6");
                      ("textPrimary", JStr "#F8F8F2"); ("textSecondary", JStr "#BCC2CD");
                      ("borderColor", JStr "#44475A")]);
               ("state",
                JObj [("disabled", state "#111"); ("error", state "#F55");
                      ("hover", state "#999"); ("info", state "#8BE");
                      ("success", state "#5F7"); ("warning", state "#FB8")])]);
        ("borderRadius", JStr "8px");
        ("components", JObj [("skeleton", JObj [("bg", JStr "#123456")])])].

Definition fillPass : list (Stmt (option Z)) :=
  fill borderRadius boxShadow fontOther scrollbar transition transparency
    (fontValue (Some mono)).

Definition filled : Value := snd (exec fillPass dracula).

(** A manager with nothing stored yet. *)
Definition themes : list (ImportableTheme (option Z)) :=
  [mkImportable "dracula" (Return (JObj [("default", dracula)]))].

Definition fresh : Manager (option Z) :=
  mkManager JUndefined None themes [mono] ∅ [].

Definition setTheme :=
  set borderRadius boxShadow fontOther scrollbar transition transparency.

(** A second theme and a second font. *)
Definition light : Value :=
  JObj [("isDark", JBool false);
        ("colors", JObj [("default", JObj []); ("state", JObj [])])].

Definition sans : PgFont (option Z) :=
  mkFont "Inter" (JObj [("small", JStr "0.8rem"); ("medium", JStr "0.9rem")]).

(** A manager whose store holds the choice of an earlier session: the
    second theme and the second font. *)
Definition returning : Manager (option Z) :=
  mkManager JUndefined None
    [mkImportable "light" (Return (JObj [("default", light)]));
     mkImportable "dracula" (Return (JObj [("default", dracula)]))]
    [mono; sans]
    {[ _THEME_KEY := "dracula"; _FONT_KEY := "Inter" ]} [].

(** A store that holds the name of a theme that is no longer in the
    list. *)
Definition stale : Manager (option Z) :=
  mkManager JUndefined None themes [mono] {[ _THEME_KEY := "solarized" ]} [].

(** A component, overrides for it, and the component overridden. *)
Definition button : Value :=
  JObj [("bg", JStr "red");
        ("hover", JObj [("color", JStr "blue"); ("bg", JStr "white")])].

Definition overrides : Value :=
  JObj [("color", JStr "black"); ("hover", JObj [("color", JStr "green")])].

Definition overridden : Value :=
  JObj [("bg", JStr "red");
        ("hover", JObj [("color", JStr "green"); ("bg", JStr "white")]);
        ("color", JStr "black")].

End Palette.

(** ** The filling pass on every theme *)

Section FillFacts.
Context {Num : Type} {numbers : JsNumber Num}.
Variables DEFAULT_BORDER_RADIUS DEFAULT_BOX_SHADOW DEFAULT_FONT_OTHER
  DEFAULT_SCROLLBAR DEFAULT_TRANSITION DEFAULT_TRANSPARENCY : JsValue Num.

Local Abbreviation fill :=
  (Theme.fill DEFAULT_BORDER_RADIUS DEFAULT_BOX_SHADOW DEFAULT_FONT_OTHER
     DEFAULT_SCROLLBAR DEFAULT_TRANSITION DEFAULT_TRANSPARENCY).
Local Abbreviation set :=
  (Theme.set DEFAULT_BORDER_RADIUS DEFAULT_BOX_SHADOW DEFAULT_FONT_OTHER
     DEFAULT_SCROLLBAR DEFAULT_TRANSITION DEFAULT_TRANSPARENCY).
Local Abbreviation create :=
  (Theme.create DEFAULT_BORDER_RADIUS DEFAULT_BOX_SHADOW DEFAULT_FONT_OTHER
     DEFAULT_SCROLLBAR DEFAULT_TRANSITION DEFAULT_TRANSPARENCY).

Implicit Types (t v w : JsValue Num) (p q : list string)
  (props : list (string * JsValue Num)) (e : Expr Num) (s : Stmt Num).

(** ** Notions the statements use *)

(** Two paths part ways before either ends. *)
Fixpoint apart (p q : list string) : bool :=
  match p, q with
  | k :: p', k' :: q' => if String.eqb k k' then apart p' q' else true
  | _, _ => false
  end.

(** [q] goes on below [p]. *)
Fixpoint strictPrefix (p q : list string) : bool :=
  match p, q with
  | [], _ :: _ => true
  | k :: p', k' :: q' => String.eqb k k' && strictPrefix p' q'
  | _, _ => false
  end.

(** The value at the end of a path of own properties, if there is one. *)
Fixpoint own (path : list string) (v : JsValue Num) : option (JsValue Num) :=
  match path with
  | [] => Some v
  | k :: rest =>
      match v with
      | JObj props => lookupProp k props ≫= own rest
      | _ => None
      end
  end.

Definition isObject v : Prop := ∃ props, v = JObj props.

(** The paths of [this._theme] a right-hand side reads. *)
Fixpoint reads (e : Expr Num) : list (list string) :=
  match e with
  | Lit _ | Of _ _ => []
  | FromTheme steps => [fst <$> steps]
  | Plus e1 e2 => reads e1 ++ reads e2
  | Template _ holes => flat_map (λ h, reads (fst h)) holes
  | Cond c e1 e2 => reads c ++ reads e1 ++ reads e2
  end.

(** A value [v] at a path is kept as [v']: it is the same, or both are
    objects. *)
Definition kept v v' : Prop := v' = v ∨ (isObject v ∧ isObject v').

(** [s'] may come after [s]: its target is apart from the target of [s] or
    below it, and apart from everything [s] reads. *)
Definition later s s' : bool :=
  (apart (target s) (target s') || strictPrefix (target s) (target s')) &&
  forallb (apart (target s')) (reads (value s)).

(** Every statement reads nothing it assigns, and every later statement may
    come after it. *)
Fixpoint ordered (stmts : list (Stmt Num)) : bool :=
  match stmts with
  | [] => true
  | s :: rest =>
      forallb (apart (target s)) (reads (value s)) &&
      forallb (later s) rest && ordered rest
  end.

(** The fields that the pass fills with an object that exists already: a
    default or the font, assigned by reference. *)
Definition sharedFields : list (list string) :=
  [["transparency"]; ["scrollbar"]; ["transition"]; ["font"; "code"]; ["font"; "other"]].

(** The value of the statement is a field of the theme as it is. *)
Definition copies s : bool :=
  match value s with
  | FromTheme _ => true
  | _ => false
  end.

(** A value that is present and no object. *)
Definition primitive v : bool :=
  match v with
  | JBool _ | JNum _ | JStr _ => true
  | _ => false
  end.

(** The fallback the specification describes: the name given, or else the
    name stored, or else the name of the first entry of the list. *)
Inductive Fallback (given stored first : option string) : string → Prop :=
| fallback_given n : given = Some n → Fallback given stored first n
| fallback_stored n : given = None → stored = Some n → Fallback given stored first n
| fallback_first n :
    given = None → stored = None → first = Some n → Fallback given stored first n.

(** The pass writes to the background of a state color and to nothing else
    below [colors]. *)
Definition besideStateColor (target : list string) : bool :=
  apart ["colors"; "state"] target ||
  match target with
  | [_; _; _; k] => negb (String.eqb k "color")
  | _ => false
  end.

(** A right-hand side whose value is never [undefined] or [null]: a value
    that is neither, a concatenation or a template literal. *)
Definition definite e : bool :=
  match e with
  | Lit v => negb (nullish v)
  | Plus _ _ | Template _ _ => true
  | _ => false
  end.

(** The field a statement fills holds nothing the statement would keep. *)
Definition vacant s t : Prop :=
  ∀ v, own (target s) t = Some v → unset (guard s) v = true.

Definition emptyObject e : bool :=
  match e with
  | Lit (JObj []) => true
  | _ => false
  end.

(** ** Paths *)

Lemma apart_sym p q : apart p q = apart q p.
Proof.
  revert q. induction p as [|k p IH]; intros [|k' q]; cbn; try done.
  rewrite (String.eqb_sym k k'). destruct (String.eqb k' k); [apply IH|done].
Qed.

Lemma path_cases p q :
  p = q ∨ apart p q = true ∨ strictPrefix p q = true ∨ strictPrefix q p = true.
Proof.
  revert q. induction p as [|k p IH]; intros [|k' q]; cbn; auto.
  rewrite (String.eqb_sym k' k).
  destruct (String.eqb k k') eqn:Hk; [|auto].
  apply String.eqb_eq in Hk as ->. cbn.
  destruct (IH q) as [->|[?|[?|?]]]; auto.
Qed.

(** ** Own properties *)

Lemma lookupProp_cons k k' v props :
  lookupProp k ((k', v) :: props) = if String.eqb k' k then Some v else lookupProp k props.
Proof. unfold lookupProp. cbn. by destruct (String.eqb k' k). Qed.

Lemma lookupProp_replaceProp_eq k v props :
  is_Some (lookupProp k props) → lookupProp k (replaceProp k v props) = Some v.
Proof.
  induction props as [|[k' v'] props IH]; [by intros [? [=]]|].
  cbn [replaceProp]. rewrite lookupProp_cons.
  destruct (String.eqb k' k) eqn:Hk; rewrite lookupProp_cons.
  - by rewrite String.eqb_refl.
  - by rewrite Hk.
Qed.

Lemma lookupProp_replaceProp_ne k k' v props :
  k ≠ k' → lookupProp k' (replaceProp k v props) = lookupProp k' props.
Proof.
  intros Hne. induction props as [|[k0 v0] props IH]; [done|].
  cbn [replaceProp]. destruct (String.eqb k0 k) eqn:Hk; rewrite !lookupProp_cons.
  - apply String.eqb_eq in Hk as ->. apply String.eqb_neq in Hne. by rewrite Hne.
  - by rewrite IH.
Qed.

Lemma lookupProp_addProp_eq k v props :
  lookupProp k props = None → lookupProp k (addProp k v props) = Some v.
Proof.
  induction props as [|[k' v'] props IH].
  - intros _. cbn [addProp]. by rewrite lookupProp_cons, String.eqb_refl.
  - rewrite lookupProp_cons. destruct (String.eqb k' k) eqn:Hk; [done|]. intros Hnone.
    cbn [addProp]. destruct (rank k <? rank k')%N; rewrite !lookupProp_cons.
    + by rewrite String.eqb_refl.
    + rewrite Hk. by apply IH.
Qed.

Lemma lookupProp_addProp_ne k k' v props :
  k ≠ k' → lookupProp k' (addProp k v props) = lookupProp k' props.
Proof.
  intros Hne. apply String.eqb_neq in Hne.
  induction props as [|[k0 v0] props IH].
  - cbn [addProp]. by rewrite lookupProp_cons, Hne.
  - cbn [addProp]. destruct (rank k <? rank k0)%N; rewrite !lookupProp_cons.
    + by rewrite Hne.
    + by rewrite IH.
Qed.

Lemma lookupProp_setProp_eq k v props : lookupProp k (setProp k v props) = Some v.
Proof.
  unfold setProp. destruct (lookupProp k props) eqn:Hk.
  - apply lookupProp_replaceProp_eq. by eexists.
  - by apply lookupProp_addProp_eq.
Qed.

Lemma lookupProp_setProp_ne k k' v props :
  k ≠ k' → lookupProp k' (setProp k v props) = lookupProp k' props.
Proof.
  intros Hne. unfold setProp. destruct (lookupProp k props).
  - by apply lookupProp_replaceProp_ne.
  - by apply lookupProp_addProp_ne.
Qed.

Lemma setProp_id k v props : lookupProp k props = Some v → setProp k v props = props.
Proof.
  intros Hk. unfold setProp. rewrite Hk. revert Hk.
  induction props as [|[k' v'] props IH]; [done|].
  rewrite lookupProp_cons. cbn [replaceProp].
  destruct (String.eqb k' k) eqn:Hkk.
  - apply String.eqb_eq in Hkk as ->. by intros [= ->].
  - intros H. by rewrite IH.
Qed.

Lemma getProp_setProp_eq k v props : getProp k (setProp k v props) = v.
Proof. unfold getProp. by rewrite lookupProp_setProp_eq. Qed.

Lemma getProp_setProp_ne k k' v props :
  k ≠ k' → getProp k' (setProp k v props) = getProp k' props.
Proof. intros H. unfold getProp. by rewrite lookupProp_setProp_ne. Qed.

Lemma own_get p t v : own p t = Some v → readPath p t = Return v.
Proof.
  revert t. induction p as [|k p IH]; intros t; cbn; [by intros [= ->]|].
  destruct t as [| | | | |props]; try done. cbn.
  unfold getProp. destruct (lookupProp k props) as [x|]; [|done]. cbn. apply IH.
Qed.

Lemma get_undefined p : p ≠ [] → readPath p (@JUndefined Num) = Throw TypeError.
Proof. by destruct p. Qed.

Lemma get_own p t v : readPath p t = Return v → v ≠ JUndefined → own p t = Some v.
Proof.
  revert t. induction p as [|k p IH]; intros t; cbn; [by intros [= ->]|].
  assert (readPath p (@JUndefined Num) = Return v → v ≠ JUndefined → False) as Hu.
  { destruct p; cbn; [by intros [= <-]|done]. }
  destruct t as [| |b|n|s|props]; cbn; try done; try (intros; exfalso; eauto; fail).
  unfold getProp. destruct (lookupProp k props) as [x|]; cbn; [apply IH|].
  intros; exfalso; eauto.
Qed.

Lemma set_own_eq p v t t' : writePath p v t = Return t' → own p t' = Some v.
Proof.
  revert t t'. induction p as [|k p IH]; intros t t'; cbn; [by intros [= ->]|].
  destruct t as [| | | | |props]; try done.
  destruct (writePath p v (getProp k props)) as [child|] eqn:Hc; [|done].
  intros [= <-]. cbn. rewrite lookupProp_setProp_eq. cbn. by eapply IH.
Qed.

Lemma set_own_id p v t : own p t = Some v → writePath p v t = Return t.
Proof.
  revert t. induction p as [|k p IH]; intros t; cbn; [by intros [= ->]|].
  destruct t as [| | | | |props]; try done.
  destruct (lookupProp k props) as [x|] eqn:Hx; [|done]. cbn. intros Hown.
  unfold getProp. rewrite Hx. cbn. rewrite (IH _ Hown). cbn.
  by rewrite (setProp_id _ _ _ Hx).
Qed.

Lemma set_apart_own p q v t t' :
  apart q p = true → writePath p v t = Return t' → own q t' = own q t.
Proof.
  revert q t t'. induction p as [|k p IH]; intros [|k' q] t t'; cbn; try done.
  destruct t as [| | | | |props]; try done.
  destruct (writePath p v (getProp k props)) as [child|] eqn:Hc; [|done].
  intros Hap [= <-]. cbn.
  destruct (String.eqb k' k) eqn:Hk.
  - apply String.eqb_eq in Hk as ->. rewrite lookupProp_setProp_eq. cbn.
    rewrite (IH _ _ _ Hap Hc). unfold getProp.
    destruct (lookupProp k props) as [x|]; [done|]. cbn.
    destruct q; [by destruct p|done].
  - apply String.eqb_neq in Hk. by rewrite lookupProp_setProp_ne.
Qed.

Lemma set_apart_getSteps p (steps : list (string * bool)) v t t' :
  apart (fst <$> steps) p = true → writePath p v t = Return t' →
  readSteps steps t' = readSteps steps t.
Proof.
  revert steps t t'. induction p as [|k p IH]; intros [|[k' o] steps] t t'; cbn; try done.
  destruct t as [| | | | |props]; try done.
  destruct (writePath p v (getProp k props)) as [child|] eqn:Hc; [|done].
  intros Hap [= <-]. cbn. rewrite !andb_false_r.
  destruct (String.eqb k' k) eqn:Hk.
  - apply String.eqb_eq in Hk as ->. rewrite getProp_setProp_eq. by eapply IH.
  - apply String.eqb_neq in Hk. by rewrite getProp_setProp_ne.
Qed.

Lemma set_below_own p q v t t' :
  strictPrefix q p = true → writePath p v t = Return t' →
  (∃ props, own q t = Some (JObj props)) ∧ (∃ props, own q t' = Some (JObj props)).
Proof.
  revert q t t'. induction p as [|k p IH]; intros [|k' q] t t'; cbn; try done.
  - destruct t as [| | | | |props]; try done.
    destruct (writePath p v (getProp k props)) as [child|]; [|done].
    intros _ [= <-]. eauto.
  - destruct t as [| | | | |props]; try done.
    destruct (writePath p v (getProp k props)) as [child|] eqn:Hc; [|done].
    intros [Hk Hpre]%andb_true_iff [= <-]. apply String.eqb_eq in Hk as ->.
    destruct (IH _ _ _ Hpre Hc) as [[ps Hown] Hown']. cbn.
    rewrite lookupProp_setProp_eq. cbn. split; [|done].
    unfold getProp in Hown. destruct (lookupProp k props) as [x|]; cbn in *; [eauto|].
    by destruct q.
Qed.

Lemma own_prefix p q t v :
  strictPrefix q p = true → own p t = Some v → ∃ props, own q t = Some (JObj props).
Proof.
  revert q t. induction p as [|k p IH]; intros [|k' q] t; cbn; try done.
  - destruct t as [| | | | |props]; try done. eauto.
  - destruct t as [| | | | |props]; try done.
    intros [Hk Hpre]%andb_true_iff. apply String.eqb_eq in Hk as ->.
    destruct (lookupProp k props) as [x|]; cbn; [|done]. by apply IH.
Qed.

(** ** What a right-hand side reads *)

Lemma Expr_induction (P : Expr Num → Prop) :
  (∀ v, P (Lit v)) →
  (∀ v k, P (Of v k)) →
  (∀ steps, P (FromTheme steps)) →
  (∀ e1 e2, P e1 → P e2 → P (Plus e1 e2)) →
  (∀ text holes, Forall (λ h, P (fst h)) holes → P (Template text holes)) →
  (∀ c e1 e2, P c → P e1 → P e2 → P (Cond c e1 e2)) →
  ∀ e, P e.
Proof.
  intros HLit HOf HTheme HPlus HTemplate HCond.
  fix IH 1. intros [v|v k|steps|e1 e2|text holes|c e1 e2].
  - apply HLit.
  - apply HOf.
  - apply HTheme.
  - apply HPlus; apply IH.
  - apply HTemplate. induction holes as [|[e text'] holes IHholes]; constructor.
    + apply IH.
    + apply IHholes.
  - apply HCond; apply IH.
Qed.

Lemma eval_set_apart p v t t' e :
  forallb (apart p) (reads e) = true →
  writePath p v t = Return t' →
  eval t' e = eval t e.
Proof.
  intros Hreads Hset. revert Hreads.
  induction e as [x|x k|steps|e1 e2 IH1 IH2|text holes IH|c e1 e2 IHc IH1 IH2]
    using Expr_induction; cbn [reads eval]; intros Hreads.
  - done.
  - done.
  - cbn in Hreads. rewrite andb_true_r, apart_sym in Hreads.
    by eapply set_apart_getSteps.
  - rewrite forallb_app in Hreads. apply andb_true_iff in Hreads as [H1 H2].
    by rewrite IH1, IH2.
  - assert (∀ acc, evalHoles (eval t') holes acc = evalHoles (eval t) holes acc) as ->; [|done].
    induction IH as [|[e text'] holes He _ IHholes]; intros acc; cbn [evalHoles]; [done|].
    cbn [flat_map] in Hreads. rewrite forallb_app in Hreads.
    apply andb_true_iff in Hreads as [H1 H2]. cbn in He. rewrite (He H1).
    destruct (eval t e) as [x|err]; cbn [obind]; [|done]. by apply IHholes.
  - rewrite !forallb_app in Hreads.
    apply andb_true_iff in Hreads as [Hc [H1 H2]%andb_true_iff].
    by rewrite IHc, IH1, IH2.
Qed.

(** ** One statement *)

Lemma step_inv s t t' :
  step s t = Return t' →
  ∃ current, readPath (target s) t = Return current ∧
    ((unset (guard s) current = false ∧ t' = t) ∨
     (unset (guard s) current = true ∧
      ∃ v, eval t (value s) = Return v ∧ writePath (target s) v t = Return t')).
Proof.
  unfold step. destruct (readPath (target s) t) as [current|]; cbn [obind]; [|done].
  intros H. exists current. split; [done|].
  destruct (unset (guard s) current); [|injection H as ->; by left].
  destruct (eval t (value s)) as [v|]; cbn [obind] in H; [|done]. right. eauto.
Qed.

Lemma unset_object g props : unset g (@JObj Num props) = false.
Proof. by destruct g. Qed.

(** A statement changes nothing at a path apart from its target. *)
Lemma step_apart_own s t t' q :
  step s t = Return t' → apart q (target s) = true → own q t' = own q t.
Proof.
  intros (current & _ & [[_ ->]|(_ & v & _ & Hset)])%step_inv Hap; [done|].
  by eapply set_apart_own.
Qed.

Lemma step_apart_eval s t t' e :
  step s t = Return t' → forallb (apart (target s)) (reads e) = true →
  eval t' e = eval t e.
Proof.
  intros (current & _ & [[_ ->]|(_ & v & _ & Hset)])%step_inv Hap; [done|].
  by eapply eval_set_apart.
Qed.

(** A statement with its target below a path leaves an object there. *)
Lemma step_below_own s t t' q w :
  step s t = Return t' → strictPrefix q (target s) = true →
  own q t = Some w →
  ∃ w', own q t' = Some w' ∧ (w' = w ∨ (isObject w ∧ isObject w')).
Proof.
  intros (current & _ & [[_ ->]|(_ & v & _ & Hset)])%step_inv Hpre Hown; [eauto|].
  destruct (set_below_own _ _ _ _ _ Hpre Hset) as [[ps Hq] [ps' Hq']].
  rewrite Hown in Hq. injection Hq as ->. exists (JObj ps'). split; [done|].
  right. split; eexists; done.
Qed.

(** ** Statements in order *)

Lemma exec_cons_inv s rest t tn :
  exec (s :: rest) t = (Return tt, tn) →
  ∃ t1, step s t = Return t1 ∧ exec rest t1 = (Return tt, tn).
Proof. cbn [exec]. destruct (step s t) as [t1|]; [eauto|done]. Qed.

Lemma kept_trans v1 v2 v3 : kept v1 v2 → kept v2 v3 → kept v1 v3.
Proof.
  intros [->|[H1 H2]] [->|[H2' H3]]; unfold kept; auto.
Qed.

Lemma exec_own_later s rest t1 tn w :
  exec rest t1 = (Return tt, tn) →
  forallb (later s) rest = true →
  own (target s) t1 = Some w →
  ∃ w', own (target s) tn = Some w' ∧ kept w w'.
Proof.
  revert t1 w. induction rest as [|s' rest IH]; intros t1 w.
  - intros [= <-] _ Hown. exists w. split; [done|by left].
  - intros (t2 & Hstep & Hexec)%exec_cons_inv Hlater Hown. cbn in Hlater.
    apply andb_true_iff in Hlater as [[Hs' _]%andb_true_iff Hrest].
    assert (∃ w2, own (target s) t2 = Some w2 ∧ kept w w2) as (w2 & Hown2 & Hk2).
    { apply orb_true_iff in Hs' as [Hap|Hpre].
      - exists w. split; [|by left]. by rewrite (step_apart_own _ _ _ _ Hstep Hap).
      - by eapply step_below_own. }
    destruct (IH _ _ Hexec Hrest Hown2) as (w' & Hown' & Hk').
    exists w'. split; [done|]. by eapply kept_trans.
Qed.

Lemma exec_eval_later s rest t1 tn :
  exec rest t1 = (Return tt, tn) →
  forallb (later s) rest = true →
  eval tn (value s) = eval t1 (value s).
Proof.
  revert t1. induction rest as [|s' rest IH]; intros t1.
  - by intros [= <-].
  - intros (t2 & Hstep & Hexec)%exec_cons_inv Hlater. cbn in Hlater.
    apply andb_true_iff in Hlater as [[_ Hs']%andb_true_iff Hrest].
    rewrite (IH _ Hexec Hrest). by eapply step_apart_eval.
Qed.

Lemma unset_undefined g : unset g (@JUndefined Num) = true.
Proof. by destruct g. Qed.

(** Once the statements after it have run, a statement has nothing left to
    do. *)
Lemma step_stable s rest t0 t1 tn :
  forallb (apart (target s)) (reads (value s)) = true →
  forallb (later s) rest = true →
  step s t0 = Return t1 →
  exec rest t1 = (Return tt, tn) →
  step s tn = Return tn.
Proof.
  intros Hself Hlater Hstep Hexec.
  destruct (step_inv _ _ _ Hstep) as (current & Hget & [[Hset ->]|(Hunset & v & Hv & Hset)]).
  - assert (own (target s) t0 = Some current) as Hown.
    { apply (get_own _ _ _ Hget). intros ->. by rewrite unset_undefined in Hset. }
    destruct (exec_own_later _ _ _ _ _ Hexec Hlater Hown) as (w' & Hown' & Hk).
    unfold step. rewrite (own_get _ _ _ Hown'). cbn [obind].
    destruct Hk as [->|[_ [ps ->]]]; [by rewrite Hset|by rewrite unset_object].
  - pose proof (set_own_eq _ _ _ _ Hset) as Hown.
    destruct (exec_own_later _ _ _ _ _ Hexec Hlater Hown) as (w' & Hown' & Hk).
    unfold step. rewrite (own_get _ _ _ Hown'). cbn [obind].
    destruct (unset (guard s) w') eqn:Hw'; [|done].
    destruct Hk as [->|[_ [ps ->]]]; [|by rewrite unset_object in Hw'].
    rewrite (exec_eval_later _ _ _ _ Hexec Hlater).
    rewrite (eval_set_apart _ _ _ _ _ Hself Hset), Hv. cbn [obind].
    by apply set_own_id.
Qed.

Lemma exec_stable stmts t0 tn :
  ordered stmts = true →
  exec stmts t0 = (Return tt, tn) →
  Forall (λ s, step s tn = Return tn) stmts.
Proof.
  revert t0. induction stmts as [|s rest IH]; intros t0; [constructor|].
  cbn [ordered]. intros [[Hself Hlater]%andb_true_iff Hrest]%andb_true_iff.
  intros (t1 & Hstep & Hexec)%exec_cons_inv. constructor.
  - by eapply step_stable.
  - by eapply IH.
Qed.

Lemma exec_fixed stmts t :
  Forall (λ s, step s t = Return t) stmts → exec stmts t = (Return tt, t).
Proof. induction 1 as [|s rest Hs _ IH]; cbn [exec]; [done|by rewrite Hs]. Qed.

(** A pass in dependency order that has run once changes nothing when it
    runs again. *)
Lemma exec_idempotent stmts t0 tn :
  ordered stmts = true →
  exec stmts t0 = (Return tt, tn) →
  exec stmts tn = (Return tt, tn).
Proof. intros Hord Hexec. apply exec_fixed. by eapply exec_stable. Qed.

(** ** Present values *)

Lemma step_keeps s t t' p v :
  step s t = Return t' →
  own p t = Some v →
  nullish v = false →
  (guard s = IfFalsy → target s = p → falsy v = false) →
  ∃ v', own p t' = Some v' ∧ kept v v'.
Proof.
  intros Hstep Hown Hv Hfalsy.
  destruct (path_cases p (target s)) as [->|[Hap|[Hpre|Hpre]]].
  - destruct (step_inv _ _ _ Hstep) as (current & Hget & [[_ ->]|(Hunset & _)]).
    { exists v. split; [done|by left]. }
    rewrite (own_get _ _ _ Hown) in Hget. injection Hget as <-.
    destruct (guard s); cbn in Hunset; [congruence|].
    rewrite Hfalsy in Hunset; done.
  - exists v. split; [|by left]. by rewrite (step_apart_own _ _ _ _ Hstep Hap).
  - by eapply step_below_own.
  - destruct (own_prefix _ _ _ _ Hpre Hown) as [ps Hq].
    destruct (step_inv _ _ _ Hstep) as (current & Hget & [[_ ->]|(Hunset & _)]).
    { exists v. split; [done|by left]. }
    rewrite (own_get _ _ _ Hq) in Hget. injection Hget as <-.
    by rewrite unset_object in Hunset.
Qed.

Lemma kept_present v v' :
  kept v v' → nullish v = false → nullish v' = false ∧ (falsy v = false → falsy v' = false).
Proof. intros [->|[_ [ps ->]]]; auto. Qed.

Lemma exec_keeps stmts t tn p v :
  exec stmts t = (Return tt, tn) →
  own p t = Some v →
  nullish v = false →
  (∀ s, s ∈ stmts → guard s = IfFalsy → target s = p → falsy v = false) →
  ∃ v', own p tn = Some v' ∧ kept v v'.
Proof.
  revert t v. induction stmts as [|s rest IH]; intros t v.
  - intros [= <-] Hown _ _. exists v. split; [done|by left].
  - intros (t1 & Hstep & Hexec)%exec_cons_inv Hown Hv Hfalsy.
    destruct (step_keeps _ _ _ _ _ Hstep Hown Hv) as (v1 & Hown1 & Hk1).
    { apply Hfalsy. by left. }
    destruct (kept_present _ _ Hk1 Hv) as [Hv1 Hf1].
    destruct (IH _ _ Hexec Hown1 Hv1) as (v' & Hown' & Hk').
    { intros s' Hs' Hg Ht. apply Hf1. apply (Hfalsy s'); [by right|done..]. }
    exists v'. split; [done|]. by eapply kept_trans.
Qed.

(** ** The filling pass of the theme manager *)

(** The pass is in dependency order. *)
Lemma fill_ordered font : ordered (fill font) = true.
Proof. vm_compute. reflexivity. Qed.

(** The scrollbar is the one field the pass tests for truthiness. *)
Lemma fill_falsy_target font s :
  s ∈ fill font → guard s = IfFalsy → target s = ["scrollbar"].
Proof.
  assert (forallb (λ s, match guard s with
                        | IfFalsy => bool_decide (target s = ["scrollbar"])
                        | IfNullish => true
                        end) (fill font) = true) as H by (vm_compute; reflexivity).
  rewrite forallb_forall in H. intros Hin Hg. apply list_elem_of_In in Hin.
  specialize (H s Hin). rewrite Hg in H. by apply bool_decide_eq_true in H.
Qed.

(** No statement of the pass writes below a field that holds a shared
    object, or below a field that was filled with another field of the
    theme: the pass changes no object through a second reference, and
    reading the theme as a tree of values loses nothing. *)
Lemma fill_shared_untouched font s :
  s ∈ fill font →
  (∀ p, p ∈ sharedFields → strictPrefix p (target s) = false) ∧
  (∀ s', s' ∈ fill font → copies s' = true → strictPrefix (target s') (target s) = false).
Proof.
  assert (forallb (λ s,
            forallb (λ p, negb (strictPrefix p (target s))) sharedFields &&
            forallb (λ s', negb (copies s' && strictPrefix (target s') (target s)))
              (fill font)) (fill font) = true) as H by (vm_compute; reflexivity).
  rewrite forallb_forall in H. intros Hin. apply list_elem_of_In in Hin.
  apply H in Hin. apply andb_prop in Hin as [H1 H2].
  rewrite forallb_forall in H1, H2. split.
  - intros p Hp. apply list_elem_of_In, H1 in Hp. by apply negb_true_iff.
  - intros s' Hs' Hc. apply list_elem_of_In, H2 in Hs'. rewrite Hc in Hs'.
    by apply negb_true_iff.
Qed.

(** C7.  Theme filling is fill-if-absent and idempotent.  For every theme
    the filling pass completes on: every field that holds a string, a
    number or a boolean before the pass holds the same value after it
    (for the scrollbar, which is declared an object, a value that is not
    falsy), every field that holds an object before the pass holds an
    object after it, and the pass run again on the filled theme completes
    and leaves it unchanged. *)
Theorem fill_if_absent_idempotent font theme filled :
  exec (fill font) theme = (Return tt, filled) →
  (∀ p v, own p theme = Some v → primitive v = true →
     (p = ["scrollbar"] → falsy v = false) →
     own p filled = Some v) ∧
  (∀ p props, own p theme = Some (JObj props) →
     ∃ props', own p filled = Some (JObj props')) ∧
  exec (fill font) filled = (Return tt, filled).
Proof.
  intros Hexec. split; [|split].
  - intros p v Hown Hprim Hscroll.
    destruct (exec_keeps _ _ _ _ _ Hexec Hown) as (v' & Hown' & [->|[[ps ->] _]]).
    + by destruct v.
    + intros s Hs Hg <-. apply Hscroll. by eapply fill_falsy_target.
    + done.
    + done.
  - intros p props Hown.
    destruct (exec_keeps _ _ _ _ _ Hexec Hown) as (v' & Hown' & [->|[_ [ps ->]]]).
    + done.
    + intros s Hs Hg Ht. done.
    + eauto.
    + eauto.
  - eapply exec_idempotent; [apply fill_ordered|exact Hexec].
Qed.

(** ** set *)

Lemma resolveThemeName_fallback (params : Params) (m : Manager Num) n :
  resolveThemeName params m = Return n ↔
  Fallback (themeName params) (localStorage m !! _THEME_KEY) (name <$> head (_themes m)) n.
Proof.
  unfold resolveThemeName. split.
  - destruct (themeName params) as [g|] eqn:Hg; [intros [= ->]; by constructor 1|].
    destruct (localStorage m !! _THEME_KEY) as [x|] eqn:Hx;
      [intros [= ->]; by constructor 2|].
    destruct (_themes m) as [|first rest]; [done|]. intros [= <-]. by constructor 3.
  - intros [? -> | ? -> -> | ? -> -> Hfirst]; [done|done|].
    destruct (_themes m); [done|]. by injection Hfirst as ->.
Qed.

Lemma resolveFontFamily_fallback (params : Params) (m : Manager Num) f :
  resolveFontFamily params m = Return f ↔
  Fallback (fontFamily params) (localStorage m !! _FONT_KEY) (family <$> head (_fonts m)) f.
Proof.
  unfold resolveFontFamily. split.
  - destruct (fontFamily params) as [g|] eqn:Hg; [intros [= ->]; by constructor 1|].
    destruct (localStorage m !! _FONT_KEY) as [x|] eqn:Hx;
      [intros [= ->]; by constructor 2|].
    destruct (_fonts m) as [|first rest]; [done|]. intros [= <-]. by constructor 3.
  - intros [? -> | ? -> -> | ? -> -> Hfirst]; [done|done|].
    destruct (_fonts m); [done|]. by injection Hfirst as ->.
Qed.

(** C8.  For every call of [set], let the resolved theme name be the name
    given in the params, or else the name stored under the theme key, or
    else the name of the first entry of the theme list, and likewise the
    resolved font family with the font key and the font list.  Then:
    - the call does what the call with both resolved names given does, and
      when the theme list holds a theme of the resolved name whose module
      is imported and on which the defaults pass completes, the call
      returns: the theme is that theme, named and filled, the font is the
      font of the resolved family, both names are stored and both events
      are dispatched;
    - a call that returns has set the theme and the font found under the
      resolved names and stored both names;
    - with no name given, none stored and an empty list, the call throws a
      [TypeError] and changes nothing. *)
Theorem set_fallback (params : Params) (m : Manager Num) :
  (∀ themeName' fontFamily',
     Fallback (themeName params) (localStorage m !! _THEME_KEY)
       (name <$> head (_themes m)) themeName' →
     Fallback (fontFamily params) (localStorage m !! _FONT_KEY)
       (family <$> head (_fonts m)) fontFamily' →
     set params m = set (mkParams (Some themeName') (Some fontFamily')) m ∧
     ∀ importable module theme named filled,
       List.find (λ x, String.eqb (name x) themeName') (_themes m) = Some importable →
       importTheme importable = Return module →
       member module "default" = Return theme →
       writePath ["name"] (JStr (name importable)) theme = Return named →
       let font := List.find (λ x, String.eqb (family x) fontFamily') (_fonts m) in
       exec (fill (fontValue font)) named = (Return tt, filled) →
       set params m =
         (Return tt,
          mkManager filled font (_themes m) (_fonts m)
            (<[_FONT_KEY := fontFamily']> (<[_THEME_KEY := themeName']> (localStorage m)))
            (dispatched m ++ [(THEME_SET, filled); (THEME_FONT_SET, fontValue font)]))) ∧
  (∀ m', set params m = (Return tt, m') →
   ∃ themeName' fontFamily' importable,
     Fallback (themeName params) (localStorage m !! _THEME_KEY)
       (name <$> head (_themes m)) themeName' ∧
     Fallback (fontFamily params) (localStorage m !! _FONT_KEY)
       (family <$> head (_fonts m)) fontFamily' ∧
     List.find (λ x, String.eqb (name x) themeName') (_themes m) = Some importable ∧
     own ["name"] (_theme m') = Some (JStr (name importable)) ∧
     _font m' = List.find (λ x, String.eqb (family x) fontFamily') (_fonts m) ∧
     localStorage m' !! _THEME_KEY = Some themeName' ∧
     localStorage m' !! _FONT_KEY = Some fontFamily') ∧
  ((themeName params = None ∧ localStorage m !! _THEME_KEY = None ∧ _themes m = []) ∨
   (fontFamily params = None ∧ localStorage m !! _FONT_KEY = None ∧ _fonts m = []) →
   set params m = (Throw TypeError, m)).
Proof.
  split; [|split].
  - intros n f Hn%resolveThemeName_fallback Hf%resolveFontFamily_fallback.
    unfold Theme.set. rewrite Hn, Hf. split; [done|].
    intros importable module theme named filled Hfind Himport Hdefault Hnamed Hfill.
    rewrite Hfind, Himport. cbn [obind]. rewrite Hdefault.
    cbn [_theme withTheme withFont _font]. rewrite Hnamed.
    cbn [_theme withTheme withFont _font]. rewrite Hfill.
    unfold dispatchEvent, setItem, withTheme, withFont.
    cbn [_theme _font _themes _fonts localStorage dispatched].
    by rewrite <- app_assoc.
  - intros m'. unfold Theme.set.
    destruct (resolveThemeName params m) as [n|] eqn:Hn; [|done].
    destruct (resolveFontFamily params m) as [f|] eqn:Hf; [|done].
    destruct (List.find _ (_themes m)) as [it|] eqn:Hfind; [|done].
    destruct (obind _ _) as [clone|]; [|done]. cbn [_theme withTheme withFont _font].
    destruct (writePath _ _ _) as [named|] eqn:Hnamed; [|done].
    destruct (exec _ _) as [[[]|] filled] eqn:Hexec; [|done].
    intros [= <-]. exists n, f, it.
    split; [by apply resolveThemeName_fallback|].
    split; [by apply resolveFontFamily_fallback|]. repeat split; try done.
    + cbn. apply set_own_eq in Hnamed.
      destruct (exec_keeps _ _ _ _ _ Hexec Hnamed) as (v' & Hown' & [->|[[ps Hps] _]]);
        try done.
      intros s Hs Hg Ht. apply fill_falsy_target in Hs; [|done]. congruence.
    + cbn. unfold _THEME_KEY, _FONT_KEY.
      rewrite lookup_insert_ne by done. by rewrite lookup_insert_eq.
    + cbn. unfold _FONT_KEY. by rewrite lookup_insert_eq.
  - unfold Theme.set, resolveThemeName, resolveFontFamily.
    intros [(-> & -> & ->)|(-> & -> & ->)]; [done|].
    destruct (themeName params); [done|].
    destruct (localStorage m !! _THEME_KEY); [done|]. by destruct (_themes m).
Qed.

(** ** What the pass leaves alone *)

Lemma step_apart_readSteps s t t' (steps : list (string * bool)) :
  step s t = Return t' → apart (fst <$> steps) (target s) = true →
  readSteps steps t' = readSteps steps t.
Proof.
  intros (current & _ & [[_ ->]|(_ & v & _ & Hset)])%step_inv Hap; [done|].
  by eapply set_apart_getSteps.
Qed.

Lemma exec_apart_own stmts t o tn q :
  exec stmts t = (o, tn) →
  Forall (λ s, apart q (target s) = true) stmts →
  own q tn = own q t.
Proof.
  revert t. induction stmts as [|s rest IH]; intros t; cbn [exec].
  - by intros [= _ ->].
  - intros H [Hs Hrest]%Forall_cons. destruct (step s t) as [t1|] eqn:Hstep.
    + rewrite (IH _ H Hrest). by eapply step_apart_own.
    + by injection H as _ ->.
Qed.

Lemma exec_apart_readSteps stmts t o tn (steps : list (string * bool)) :
  exec stmts t = (o, tn) →
  Forall (λ s, apart (fst <$> steps) (target s) = true) stmts →
  readSteps steps tn = readSteps steps t.
Proof.
  revert t. induction stmts as [|s rest IH]; intros t; cbn [exec].
  - by intros [= _ ->].
  - intros H [Hs Hrest]%Forall_cons. destruct (step s t) as [t1|] eqn:Hstep.
    + rewrite (IH _ H Hrest). by eapply step_apart_readSteps.
    + by injection H as _ ->.
Qed.

Lemma apart_app p q r : apart p r = true → apart (p ++ q) r = true.
Proof.
  revert r. induction p as [|k p IH]; intros [|k' r]; cbn; try done.
  destruct (String.eqb k k'); [apply IH|done].
Qed.

Lemma besideStateColor_apart target state :
  besideStateColor target = true →
  apart ["colors"; "state"; state; "color"] target = true.
Proof.
  unfold besideStateColor. intros [H|H]%orb_true_iff.
  - by apply (apart_app ["colors"; "state"] [state; "color"]).
  - destruct target as [|a [|b [|x [|k [|? ?]]]]]; try done. cbn [apart].
    destruct (String.eqb "colors" a); [|done].
    destruct (String.eqb "state" b); [|done].
    destruct (String.eqb state x); [|done].
    rewrite String.eqb_sym. by destruct (String.eqb k "color").
Qed.

(** X13.  The pass never changes what the theme itself must give: its name, the
    [isDark] flag, anything below [colors.default] and the color of a
    state.  This holds for the theme a pass that throws leaves behind as
    well. *)
Theorem fill_leaves_alone font theme o filled :
  exec (fill font) theme = (o, filled) →
  ∀ p,
    p = ["name"] ∨ p = ["isDark"] ∨ (∃ q, p = "colors" :: "default" :: q) ∨
    (∃ state, p = ["colors"; "state"; state; "color"]) →
    own p filled = own p theme.
Proof.
  intros Hexec p Hp. eapply exec_apart_own; [exact Hexec|].
  assert (forallb (λ s, apart ["name"] (target s) && apart ["isDark"] (target s) &&
                        apart ["colors"; "default"] (target s) &&
                        besideStateColor (target s)) (fill font) = true) as H
    by (vm_compute; reflexivity).
  rewrite forallb_forall in H. apply Forall_forall. intros s Hs.
  apply list_elem_of_In, H in Hs.
  apply andb_prop in Hs as [[[Hname Hdark]%andb_prop Hdefault]%andb_prop Hstate].
  destruct Hp as [->|[->|[[q ->]|[state ->]]]]; [exact Hname|exact Hdark| |].
  - by apply (apart_app ["colors"; "default"] q).
  - by apply besideStateColor_apart.
Qed.

(** ** What the pass needs *)

Lemma member_throws v k (err : JsError) : member v k = Throw err → err = TypeError.
Proof. destruct v; cbn; by intros [=]. Qed.

Lemma readPath_throws p t (err : JsError) : readPath p t = Throw err → err = TypeError.
Proof.
  revert t. induction p as [|k p IH]; intros t; cbn; [done|].
  destruct (member t k) as [x|err'] eqn:Hm; cbn.
  - apply IH.
  - intros [= <-]. by eapply member_throws.
Qed.

Lemma readSteps_throws (steps : list (string * bool)) t (err : JsError) :
  readSteps steps t = Throw err → err = TypeError.
Proof.
  revert t. induction steps as [|[k o] steps IH]; intros t; cbn; [done|].
  destruct (o && nullish t); [done|].
  destruct (member t k) as [x|err'] eqn:Hm; cbn.
  - apply IH.
  - intros [= <-]. by eapply member_throws.
Qed.

Lemma writePath_throws p v t (err : JsError) :
  writePath p v t = Throw err → err = TypeError.
Proof.
  revert t. induction p as [|k p IH]; intros t; cbn; [done|].
  destruct t as [| | | | |props]; try by intros [=].
  destruct (writePath p v (getProp k props)) as [child|err'] eqn:Hw; cbn; [done|].
  intros [= <-]. by eapply IH.
Qed.

Lemma evalHoles_throws t (holes : list (Expr Num * string)) acc (err : JsError) :
  Forall (λ h, ∀ err' : JsError, eval t (fst h) = Throw err' → err' = TypeError) holes →
  evalHoles (eval t) holes acc = Throw err → err = TypeError.
Proof.
  revert acc. induction holes as [|[h text] holes IH]; intros acc; cbn; [done|].
  intros [Hh Hrest]%Forall_cons. cbn in Hh.
  destruct (eval t h) as [v|err'] eqn:He; cbn.
  - by apply IH.
  - intros [= <-]. by apply Hh.
Qed.

Lemma eval_throws t e (err : JsError) : eval t e = Throw err → err = TypeError.
Proof.
  revert err. induction e as [v|v k|steps|e1 e2 IH1 IH2|text holes IH|c e1 e2 IHc IH1 IH2]
    using Expr_induction; intros err; cbn [eval].
  - done.
  - apply member_throws.
  - apply readSteps_throws.
  - destruct (eval t e1) as [a|]; cbn; [|intros [= <-]; by apply IH1].
    destruct (eval t e2) as [b|]; cbn; [done|intros [= <-]; by apply IH2].
  - destruct (evalHoles (eval t) holes text) as [s'|err'] eqn:Hh; cbn; [done|].
    intros [= <-]. eapply evalHoles_throws; [|exact Hh]. done.
  - destruct (eval t c) as [b|]; cbn; [|intros [= <-]; by apply IHc].
    destruct (falsy b); [apply IH2|apply IH1].
Qed.

Lemma step_throws s t (err : JsError) : step s t = Throw err → err = TypeError.
Proof.
  unfold step. destruct (readPath (target s) t) as [current|err'] eqn:Hr; cbn.
  - destruct (unset (guard s) current); [|done].
    destruct (eval t (value s)) as [v|err'] eqn:Hv; cbn.
    + apply writePath_throws.
    + intros [= <-]. by eapply eval_throws.
  - intros [= <-]. by eapply readPath_throws.
Qed.

Lemma exec_throws stmts t (err : JsError) tn :
  exec stmts t = (Throw err, tn) → err = TypeError.
Proof.
  revert t. induction stmts as [|s rest IH]; intros t; cbn [exec]; [done|].
  destruct (step s t) as [t1|err'] eqn:Hstep; [apply IH|].
  intros [= <- _]. by eapply step_throws.
Qed.

Lemma exec_app stmts1 stmts2 t :
  exec (stmts1 ++ stmts2) t =
  match exec stmts1 t with
  | (Return _, t1) => exec stmts2 t1
  | (Throw e, t1) => (Throw e, t1)
  end.
Proof.
  revert t. induction stmts1 as [|s rest IH]; intros t; cbn [exec app]; [done|].
  destruct (step s t); [apply IH|done].
Qed.

(** X14.  A pass that throws throws a [TypeError], and the pass does throw when
    the theme has no [colors]: the state colors are the first thing it
    reads without a default of its own. *)
Theorem fill_needs_colors font theme :
  (∀ (err : JsError) partial,
     exec (fill font) theme = (Throw err, partial) → err = TypeError) ∧
  (∀ v, readPath ["colors"] theme = Return v → nullish v = true →
     ∃ partial, exec (fill font) theme = (Throw TypeError, partial)).
Proof.
  split; [intros err partial; apply exec_throws|].
  intros v Hv Hnull.
  rewrite <- (take_drop 8 (fill font)), exec_app.
  destruct (exec (take 8 (fill font)) theme) as [[[]|err] t1] eqn:Hpre.
  - assert (readSteps [("colors", false)] t1 = readSteps [("colors", false)] theme) as Hframe.
    { eapply exec_apart_readSteps; [exact Hpre|]. apply Forall_forall. intros s Hs.
      assert (forallb (λ s, apart ["colors"] (target s)) (take 8 (fill font)) = true) as H
        by (vm_compute; reflexivity).
      rewrite forallb_forall in H. by apply H, list_elem_of_In. }
    cbn [readSteps andb] in Hframe. cbn [readPath] in Hv.
    destruct (member theme "colors") as [x|] eqn:Hm; cbn [obind] in Hv, Hframe; [|done].
    injection Hv as ->.
    destruct (member t1 "colors") as [x1|] eqn:Hm1; cbn [obind] in Hframe; [|done].
    injection Hframe as ->.
    exists t1.
    assert (∃ s0 rest, drop 8 (fill font) = s0 :: rest ∧
                       target s0 = ["colors"; "state"; "disabled"; "bg"])
      as (s0 & rest & -> & Htarget) by (eexists _, _; split; reflexivity).
    cbn [exec]. assert (step s0 t1 = Throw TypeError) as ->; [|done].
    unfold step. rewrite Htarget. cbn [readPath]. rewrite Hm1. cbn [obind].
    by destruct v.
  - exists t1. by rewrite (exec_throws _ _ _ _ Hpre).
Qed.

(** ** What the pass guarantees *)

Lemma definite_eval t e v :
  definite e = true → eval t e = Return v → nullish v = false.
Proof.
  destruct e as [x|x k|steps|e1 e2|text holes|c e1 e2]; cbn [definite eval]; try done.
  - intros Hx [= <-]. by apply negb_true_iff.
  - intros _. destruct (eval t e1) as [a|]; cbn; [|done].
    destruct (eval t e2) as [b|]; cbn; [|done]. intros [= <-].
    unfold plus. by destruct (stringLike a || stringLike b).
  - intros _. destruct (evalHoles _ _ _); cbn; [|done]. by intros [= <-].
Qed.

Lemma unset_present g v : unset g v = false → nullish v = false.
Proof. destruct g; cbn; [done|]. by destruct v. Qed.

(** X15.  After a pass that completes, every field the pass fills is present, or
    it holds just what its default comes to in the filled theme, which is
    [undefined] or [null] then.  A field whose default is a value, a
    concatenation or a template literal is present. *)
Theorem fill_defaults_present font theme filled :
  exec (fill font) theme = (Return tt, filled) →
  ∀ s, s ∈ fill font →
    (∃ current, readPath (target s) filled = Return current ∧
       (nullish current = false ∨
        (nullish current = true ∧ eval filled (value s) = Return current))) ∧
    (definite (value s) = true →
     ∃ v, own (target s) filled = Some v ∧ nullish v = false).
Proof.
  intros Hexec s Hs.
  pose proof (exec_stable _ _ _ (fill_ordered font) Hexec) as Hstable.
  rewrite Forall_forall in Hstable. specialize (Hstable s Hs).
  apply step_inv in Hstable
    as (current & Hread & [[Hset _]|(Hunset & v & Hv & Hwrite)]).
  - apply unset_present in Hset. split; [by eauto|].
    intros _. exists current. split; [|done].
    apply get_own; [done|]. by intros ->.
  - apply set_own_eq in Hwrite. pose proof (own_get _ _ _ Hwrite) as Hread'.
    rewrite Hread in Hread'. injection Hread' as ->. split.
    + exists v. split; [done|]. destruct (nullish v) eqn:Hn; [right|left]; done.
    + intros Hdef. exists v. split; [done|]. by eapply definite_eval.
Qed.

(** ** What an absent field gets *)

Lemma set_own_under q p v t t' :
  writePath q v t = Return t' → strictPrefix q p = true →
  ∃ k r, own p t' = own (k :: r) v.
Proof.
  revert p t t'. induction q as [|k q IH]; intros [|k' p] t t'; cbn; try done.
  - intros [= <-] _. by exists k', p.
  - destruct t as [| | | | |props]; try done.
    destruct (writePath q v (getProp k props)) as [child|] eqn:Hc; [|done].
    intros [= <-] [Hk Hpre]%andb_true_iff. apply String.eqb_eq in Hk as <-.
    destruct (IH _ _ _ Hc Hpre) as (k0 & r & Hown). exists k0, r.
    rewrite lookupProp_setProp_eq. exact Hown.
Qed.

Lemma step_vacant s0 s t t' :
  step s0 t = Return t' →
  apart (target s0) (target s) = true ∨
  (strictPrefix (target s0) (target s) = true ∧ value s0 = Lit (JObj [])) →
  vacant s t → vacant s t'.
Proof.
  intros Hstep [Hap|[Hpre Hval]] Hvac v Hown.
  - rewrite apart_sym in Hap. rewrite (step_apart_own _ _ _ _ Hstep Hap) in Hown.
    by apply Hvac.
  - apply step_inv in Hstep as (current & _ & [[_ ->]|(_ & x & Hx & Hset)]).
    + by apply Hvac.
    + rewrite Hval in Hx. injection Hx as <-.
      destruct (set_own_under _ _ _ _ _ Hset Hpre) as (k & r & Hunder).
      rewrite Hunder in Hown. done.
Qed.

Lemma exec_vacant stmts s t tn :
  exec stmts t = (Return tt, tn) →
  Forall (λ s0, apart (target s0) (target s) = true ∨
                (strictPrefix (target s0) (target s) = true ∧ value s0 = Lit (JObj [])))
    stmts →
  vacant s t → vacant s tn.
Proof.
  revert t. induction stmts as [|s0 rest IH]; intros t.
  - by intros [= <-].
  - intros (t1 & Hstep & Hexec)%exec_cons_inv [H0 Hrest]%Forall_cons Hvac.
    eapply IH; [done|done|]. by eapply step_vacant.
Qed.

Lemma ordered_split pre s post :
  ordered (pre ++ s :: post) = true →
  Forall (λ s0, later s0 s = true) pre ∧
  forallb (apart (target s)) (reads (value s)) = true ∧
  forallb (later s) post = true.
Proof.
  induction pre as [|s0 pre IH]; cbn [app ordered].
  - intros [[Hself Hlater]%andb_true_iff _]%andb_true_iff. by split.
  - intros [[_ Hlater]%andb_true_iff Hrest]%andb_true_iff.
    destruct (IH Hrest) as (Hpre & Hself & Hpost). split; [|done].
    constructor; [|done]. rewrite forallb_app in Hlater.
    apply andb_true_iff in Hlater as [_ Hs]. cbn in Hs.
    by apply andb_true_iff in Hs as [Hs _].
Qed.

(** The pass writes below a field it has filled only where it has filled
    the field with [{}]. *)
Lemma fill_below_empty font s0 s :
  s0 ∈ fill font → s ∈ fill font →
  strictPrefix (target s0) (target s) = true → value s0 = Lit (JObj []).
Proof.
  assert (forallb (λ s0, forallb (λ s, negb (strictPrefix (target s0) (target s)) ||
                                       emptyObject (value s0)) (fill font))
            (fill font) = true) as H by (vm_compute; reflexivity).
  rewrite forallb_forall in H. intros Hs0 Hs Hpre.
  apply list_elem_of_In, H in Hs0. rewrite forallb_forall in Hs0.
  apply list_elem_of_In, Hs0 in Hs. rewrite Hpre in Hs. cbn in Hs.
  destruct (value s0) as [[| | | | |[|? ?]]| | | | |]; done.
Qed.

(** X16.  A field that holds nothing before the pass ([undefined], [null], or
    for the scrollbar any falsy value), or is not there at all, holds its
    default after a pass that completes: what the right-hand side of its
    statement comes to on the filled theme, so that a default that reads
    other fields follows the values they end with.  A default that is an
    object is there with the fields the pass has filled in it. *)
Theorem fill_absent_gets_default font theme filled s :
  exec (fill font) theme = (Return tt, filled) →
  s ∈ fill font →
  (∀ v, own (target s) theme = Some v → unset (guard s) v = true) →
  ∃ v v',
    eval filled (value s) = Return v ∧
    own (target s) filled = Some v' ∧
    (v' = v ∨ (isObject v ∧ isObject v')).
Proof.
  intros Hexec Hs Hvac.
  destruct (list_elem_of_split _ _ Hs) as (pre & post & Hsplit).
  pose proof (fill_ordered font) as Hord. rewrite Hsplit in Hexec, Hord.
  apply ordered_split in Hord as (Hpre & Hself & Hpost).
  rewrite exec_app in Hexec.
  destruct (exec pre theme) as [[[]|] t1] eqn:Hexec1; [|done].
  apply exec_cons_inv in Hexec as (t2 & Hstep & Hexec2).
  assert (vacant s t1) as Hvac1.
  { eapply exec_vacant; [exact Hexec1| |exact Hvac].
    rewrite Forall_forall in Hpre |- *. intros s0 Hs0.
    specialize (Hpre s0 Hs0). unfold later in Hpre.
    apply andb_true_iff in Hpre as [[Hap|Hbelow]%orb_true_iff _]; [by left|].
    right. split; [done|]. eapply fill_below_empty; [|exact Hs|exact Hbelow].
    rewrite Hsplit. apply elem_of_app. by left. }
  pose proof Hstep as (current & Hread & [[Hset _]|(_ & v & Hv & Hwrite)])%step_inv.
  { assert (current ≠ JUndefined) as Hne.
    { intros ->. by rewrite unset_undefined in Hset. }
    rewrite (Hvac1 current (get_own _ _ _ Hread Hne)) in Hset. done. }
  apply set_own_eq in Hwrite.
  destruct (exec_own_later _ _ _ _ _ Hexec2 Hpost Hwrite) as (v' & Hown' & Hkept).
  exists v, v'. split; [|done].
  rewrite (exec_eval_later _ _ _ _ Hexec2 Hpost).
  by rewrite (step_apart_eval _ _ _ _ Hstep Hself).
Qed.

(** ** set and create *)

(** X17.  [set] never changes the lists of themes and fonts.  A call that throws
    has stored nothing and dispatched nothing.  A call that returns has
    stored the theme name and then the font family it resolved, and has
    dispatched two events: the theme event with the theme, then the font
    event with the font. *)
Theorem set_outcome (params : Params) (m : Manager Num) o m' :
  set params m = (o, m') →
  _themes m' = _themes m ∧ _fonts m' = _fonts m ∧
  match o with
  | Throw _ => localStorage m' = localStorage m ∧ dispatched m' = dispatched m
  | Return _ =>
      ∃ resolvedName resolvedFamily,
        resolveThemeName params m = Return resolvedName ∧
        resolveFontFamily params m = Return resolvedFamily ∧
        localStorage m' =
          <[_FONT_KEY := resolvedFamily]> (<[_THEME_KEY := resolvedName]> (localStorage m)) ∧
        dispatched m' =
          dispatched m ++ [(THEME_SET, _theme m'); (THEME_FONT_SET, fontValue (_font m'))]
  end.
Proof.
  unfold Theme.set.
  destruct (resolveThemeName params m) as [n|]; [|by intros [= <- <-]].
  destruct (resolveFontFamily params m) as [f|]; [|by intros [= <- <-]].
  destruct (List.find _ (_themes m)) as [it|]; [|by intros [= <- <-]].
  destruct (obind _ _) as [clone|]; [|by intros [= <- <-]].
  cbn [_theme withTheme withFont _font].
  destruct (writePath _ _ _) as [named|]; [|by intros [= <- <-]].
  destruct (exec _ _) as [[[]|] filled]; [|by intros [= <- <-]].
  intros [= <- <-]. cbn. repeat split. exists n, f. repeat split.
  by rewrite <- app_assoc.
Qed.

(** X18.  A theme name that is the name of no theme of the list (chosen by the
    caller, or stored by an earlier session and stale by now) makes [set]
    throw a [TypeError] and change nothing: there is no fallback to the
    first theme. *)
Theorem set_unknown_theme (params : Params) (m : Manager Num) resolvedName :
  resolveThemeName params m = Return resolvedName →
  (∀ importable, importable ∈ _themes m → name importable ≠ resolvedName) →
  set params m = (Throw TypeError, m).
Proof.
  intros Hname Hnone. unfold Theme.set. rewrite Hname.
  destruct (resolveFontFamily params m) as [f|err] eqn:Hf.
  - destruct (List.find _ (_themes m)) as [it|] eqn:Hfind; [|done].
    apply find_some in Hfind as [Hin Heq]. apply String.eqb_eq in Heq.
    destruct (Hnone it); [by apply list_elem_of_In|done].
  - unfold resolveFontFamily in Hf. destruct (fontFamily params); [done|].
    destruct (localStorage m !! _FONT_KEY); [done|].
    destruct (_fonts m); [|done]. by injection Hf as <-.
Qed.

(** X19.  With nothing stored, [create] throws a [TypeError] for an empty list of
    themes, and for an empty list of fonts, and stores nothing. *)
Theorem create_empty_list (themes : list (ImportableTheme Num)) (fonts : list (PgFont Num))
    (m : Manager Num) :
  (localStorage m !! _THEME_KEY = None ∧ themes = []) ∨
  (localStorage m !! _FONT_KEY = None ∧ fonts = []) →
  create themes fonts m =
    (Throw TypeError,
     mkManager (_theme m) (_font m) themes fonts (localStorage m) (dispatched m)).
Proof.
  unfold Theme.create, Theme.set, resolveThemeName, resolveFontFamily.
  cbn [themeName fontFamily localStorage _themes _fonts].
  intros [[-> ->]|[-> ->]]; [done|].
  destruct (localStorage m !! _THEME_KEY); [done|]. by destruct themes.
Qed.

(** X20.  What [set] has stored brings the same theme and the same font back: a
    [set] without params after a [set] that returned returns as well, with
    the same theme, the same font and the same store. *)
Theorem set_again (params : Params) (m m' : Manager Num) :
  set params m = (Return tt, m') →
  ∃ m'',
    set (mkParams None None) m' = (Return tt, m'') ∧
    _theme m'' = _theme m' ∧ _font m'' = _font m' ∧
    localStorage m'' = localStorage m'.
Proof.
  unfold Theme.set at 1.
  destruct (resolveThemeName params m) as [n|]; [|done].
  destruct (resolveFontFamily params m) as [f|]; [|done].
  destruct (List.find _ (_themes m)) as [it|] eqn:Hfind; [|done].
  destruct (obind _ _) as [clone|] eqn:Hclone; [|done].
  cbn [_theme withTheme withFont _font].
  destruct (writePath _ _ _) as [named|] eqn:Hnamed; [|done].
  destruct (exec _ _) as [[[]|] filled] eqn:Hexec; [|done].
  intros [= <-]. unfold Theme.set, resolveThemeName, resolveFontFamily.
  cbn [themeName fontFamily localStorage _themes _fonts setItem dispatchEvent withTheme
       withFont _theme _font dispatched].
  unfold _THEME_KEY, _FONT_KEY.
  rewrite lookup_insert_ne by done. rewrite !lookup_insert_eq.
  rewrite Hfind, Hclone. cbn [_theme withTheme withFont _font]. rewrite Hnamed, Hexec.
  eexists. split; [reflexivity|].
  cbn [_theme _font localStorage setItem dispatchEvent withTheme withFont].
  split; [done|]. split; [done|].
  apply map_eq. intros k.
  destruct (decide (k = "font")) as [->|Hfont].
  { by rewrite !lookup_insert_eq. }
  destruct (decide (k = "theme")) as [->|Htheme].
  { rewrite !(lookup_insert_ne _ "font" "theme") by done. by rewrite !lookup_insert_eq. }
  by repeat (rewrite lookup_insert_ne by done).
Qed.

End FillFacts.

(** ** convertToCSS on every component *)

Section CssFacts.
Context {Num : Type} {numbers : JsNumber Num}.
Variable toKebabFromCamel : string → string.

Local Abbreviation declaration := (Theme.declaration toKebabFromCamel).
Local Abbreviation reduceKeys := (Theme.reduceKeys toKebabFromCamel).
Local Abbreviation convertToCSS := (Theme.convertToCSS toKebabFromCamel).

Implicit Types (value nested : JsValue Num) (rest : list (string * JsValue Num)).

(** A component that is neither [undefined] nor [null] and whose pseudo
    keys hold such components in turn. *)
Fixpoint convertible (component : JsValue Num) : bool :=
  match component with
  | JUndefined | JNull => false
  | JObj props =>
      (fix all (l : list (string * JsValue Num)) : bool :=
         match l with
         | [] => true
         | (key, value) :: rest =>
             (if pseudoClass key || pseudoElement key then convertible value else true)
             && all rest
         end) props
  | _ => true
  end.

Lemma reduceKeys_acc (convert : JsValue Num → Outcome string) rest acc :
  reduceKeys convert rest acc =
  try! css := reduceKeys convert rest "" in Return (acc +:+ css).
Proof.
  revert acc. induction rest as [|[key value] rest IH]; intros acc; cbn [reduceKeys obind].
  - by rewrite append_empty_r.
  - destruct (pseudoClass key); [|destruct (pseudoElement key)].
    + destruct (convert value) as [nested|]; cbn [obind]; [|done].
      rewrite IH. rewrite (IH (String.append "" _)).
      destruct (reduceKeys convert rest "") as [css|]; cbn [obind]; [|done].
      f_equal. rewrite !append_assoc. done.
    + destruct (convert value) as [nested|]; cbn [obind]; [|done].
      rewrite IH. rewrite (IH (String.append "" _)).
      destruct (reduceKeys convert rest "") as [css|]; cbn [obind]; [|done].
      f_equal. rewrite !append_assoc. done.
    + rewrite IH. rewrite (IH (String.append "" _)).
      destruct (reduceKeys convert rest "") as [css|]; cbn [obind]; [|done].
      f_equal. rewrite !append_assoc. done.
Qed.

(** The CSS of an object is the CSS of its first property followed by the
    CSS of the others. *)
Lemma convertToCSS_cons key value rest :
  convertToCSS (JObj ((key, value) :: rest)) =
  if pseudoClass key then
    try! nested := convertToCSS value in
    try! css := convertToCSS (JObj rest) in
    Return ("&:" +:+ toKebabFromCamel key +:+ "{" +:+ nested +:+ "}" +:+ css)
  else if pseudoElement key then
    try! nested := convertToCSS value in
    try! css := convertToCSS (JObj rest) in
    Return ("&::" +:+ toKebabFromCamel key +:+ "{" +:+ nested +:+ "}" +:+ css)
  else
    try! css := convertToCSS (JObj rest) in
    Return (declaration key value +:+ css).
Proof.
  cbn [convertToCSS reduceKeys].
  destruct (pseudoClass key); [|destruct (pseudoElement key)].
  - destruct (convertToCSS value) as [nested|]; cbn [obind]; [|done].
    rewrite reduceKeys_acc.
    destruct (reduceKeys convertToCSS rest "") as [css|]; cbn [obind]; [|done].
    f_equal. change (String.append "" ?x) with x. by rewrite !append_assoc.
  - destruct (convertToCSS value) as [nested|]; cbn [obind]; [|done].
    rewrite reduceKeys_acc.
    destruct (reduceKeys convertToCSS rest "") as [css|]; cbn [obind]; [|done].
    f_equal. change (String.append "" ?x) with x. by rewrite !append_assoc.
  - rewrite reduceKeys_acc.
    by destruct (reduceKeys convertToCSS rest "") as [css|].
Qed.

(** C6.  For every component: [convertToCSS] maps the key [bg] to the
    property [background]; on the keys [hover], [active], [focus] and
    [focusWithin] it recurses and wraps the nested result in a
    [&:<pseudo-class>{...}] block, on [before] and [after] in a
    [&::<pseudo-element>{...}] block; every other key is converted from
    camel-case to kebab-case and emitted as [property:value;] only when the
    value is a string or a number, any other value being skipped.  In
    particular [{ bg: red, hover: { color: blue } }] converts to
    [background:red;&:hover{color:blue;}]. *)
Theorem convertToCSS_rules :
  (∀ value rest,
     convertToCSS (JObj (("bg", value) :: rest)) =
     try! css := convertToCSS (JObj rest) in
     Return (match value with
             | JStr s => "background:" +:+ s +:+ ";"
             | JNum n => "background:" +:+ num_show n +:+ ";"
             | _ => ""
             end +:+ css)) ∧
  (∀ key nested rest,
     key ∈ ["hover"; "active"; "focus"; "focusWithin"] →
     convertToCSS (JObj ((key, nested) :: rest)) =
     try! inner := convertToCSS nested in
     try! css := convertToCSS (JObj rest) in
     Return ("&:" +:+ toKebabFromCamel key +:+ "{" +:+ inner +:+ "}" +:+ css)) ∧
  (∀ key nested rest,
     key ∈ ["before"; "after"] →
     convertToCSS (JObj ((key, nested) :: rest)) =
     try! inner := convertToCSS nested in
     try! css := convertToCSS (JObj rest) in
     Return ("&::" +:+ toKebabFromCamel key +:+ "{" +:+ inner +:+ "}" +:+ css)) ∧
  (∀ key value rest,
     key ∉ ["bg"; "hover"; "active"; "focus"; "focusWithin"; "before"; "after"] →
     convertToCSS (JObj ((key, value) :: rest)) =
     try! css := convertToCSS (JObj rest) in
     Return (match value with
             | JStr s => toKebabFromCamel key +:+ ":" +:+ s +:+ ";"
             | JNum n => toKebabFromCamel key +:+ ":" +:+ num_show n +:+ ";"
             | _ => ""
             end +:+ css)) ∧
  (∀ key value rest,
     key ∉ ["hover"; "active"; "focus"; "focusWithin"; "before"; "after"] →
     (∀ s, value ≠ JStr s) → (∀ n, value ≠ JNum n) →
     convertToCSS (JObj ((key, value) :: rest)) = convertToCSS (JObj rest)) ∧
  (toKebabFromCamel "hover" = "hover" → toKebabFromCamel "color" = "color" →
   convertToCSS (JObj [("bg", JStr "red"); ("hover", JObj [("color", JStr "blue")])]) =
     Return "background:red;&:hover{color:blue;}").
Proof.
  assert (∀ key, key ∉ ["hover"; "active"; "focus"; "focusWithin"; "before"; "after"] →
            pseudoClass key = false ∧ pseudoElement key = false) as Hplain.
  { intros key Hkey. unfold pseudoClass, pseudoElement.
    split; apply bool_decide_eq_false; intros Hin; apply Hkey;
      rewrite !elem_of_cons in *; tauto. }
  repeat apply conj.
  - intros value rest. rewrite convertToCSS_cons.
    change (pseudoClass "bg") with false. change (pseudoElement "bg") with false.
    cbn iota. destruct (convertToCSS (JObj rest)) as [css|]; cbn [obind]; [|done].
    unfold Theme.declaration. by rewrite String.eqb_refl.
  - intros key nested rest Hkey. rewrite convertToCSS_cons.
    unfold pseudoClass. by rewrite bool_decide_eq_true_2.
  - intros key nested rest Hkey. rewrite convertToCSS_cons.
    rewrite !elem_of_cons, elem_of_nil in Hkey.
    destruct Hkey as [->|[->|[]]]; reflexivity.
  - intros key value rest Hkey. rewrite convertToCSS_cons.
    destruct (Hplain key) as [-> ->].
    { intros Hin. apply Hkey. rewrite !elem_of_cons in *. tauto. }
    unfold declaration. assert (String.eqb key "bg" = false) as ->.
    { apply String.eqb_neq. intros ->. apply Hkey. by left. }
    done.
  - intros key value rest Hkey Hs Hn. rewrite convertToCSS_cons.
    destruct (Hplain key Hkey) as [-> ->].
    unfold declaration. destruct value as [| | |n|s|props]; try by destruct (convertToCSS _).
    + by destruct (Hn n).
    + by destruct (Hs s).
  - intros Hhover Hcolor. cbn. by rewrite Hhover, Hcolor.
Qed.

(** ** The CSS of the parts of a component *)

(** X21.  The CSS of a component is the CSS of its first properties followed by
    the CSS of the others, and there is none when either part throws. *)
Theorem convertToCSS_app (first others : list (string * JsValue Num)) :
  convertToCSS (JObj (first ++ others)) =
  try! css := convertToCSS (JObj first) in
  try! css' := convertToCSS (JObj others) in
  Return (css +:+ css').
Proof.
  induction first as [|[key value] first IH].
  - cbn [app]. change (convertToCSS (JObj [])) with (@Return string ""). cbn [obind].
    by destruct (convertToCSS (JObj others)).
  - rewrite <- app_comm_cons, !convertToCSS_cons, IH.
    destruct (pseudoClass key); [|destruct (pseudoElement key)].
    + destruct (convertToCSS value) as [nested|]; cbn [obind]; [|done].
      destruct (convertToCSS (JObj first)) as [css|]; cbn [obind]; [|done].
      destruct (convertToCSS (JObj others)) as [css'|]; cbn [obind]; [|done].
      by rewrite !append_assoc.
    + destruct (convertToCSS value) as [nested|]; cbn [obind]; [|done].
      destruct (convertToCSS (JObj first)) as [css|]; cbn [obind]; [|done].
      destruct (convertToCSS (JObj others)) as [css'|]; cbn [obind]; [|done].
      by rewrite !append_assoc.
    + destruct (convertToCSS (JObj first)) as [css|]; cbn [obind]; [|done].
      destruct (convertToCSS (JObj others)) as [css'|]; cbn [obind]; [|done].
      by rewrite !append_assoc.
Qed.

(** ** The components convertToCSS throws on *)

Lemma JsValue_induction (P : JsValue Num → Prop) :
  P JUndefined → P JNull → (∀ b, P (JBool b)) → (∀ n, P (JNum n)) → (∀ s, P (JStr s)) →
  (∀ props, Forall (λ kv, P (snd kv)) props → P (JObj props)) →
  ∀ v, P v.
Proof.
  intros HU HN HB HNum HS HO. fix IH 1.
  intros [| |b|n|s|props]; [exact HU|exact HN|apply HB|apply HNum|apply HS|].
  apply HO. induction props as [|[k x] props IHprops]; constructor.
  - apply IH.
  - apply IHprops.
Qed.

(** X22.  [convertToCSS] throws nothing but a [TypeError], and throws it exactly
    when the component, or the value of a pseudo-class or pseudo-element
    key reached through such keys only, is [undefined] or [null]. *)
Theorem convertToCSS_throws (component : JsValue Num) :
  (∀ err : JsError, convertToCSS component = Throw err → err = TypeError) ∧
  ((∃ css, convertToCSS component = Return css) ↔ convertible component = true).
Proof.
  induction component as [| |b|n|s|props IH] using JsValue_induction;
    try (split; [done|]; split; [done|]; intros _; by eexists).
  - split; [by intros err [= <-]|]. split; [by intros [css [=]]|done].
  - split; [by intros err [= <-]|]. split; [by intros [css [=]]|done].
  - induction IH as [|[key value] rest [Hthrow Hret] _ [IHthrow IHret]].
    { split; [done|]. split; [done|]. intros _. by eexists. }
    rewrite convertToCSS_cons.
    change (convertible (JObj ((key, value) :: rest)))
      with ((if pseudoClass key || pseudoElement key then convertible value else true)
            && convertible (JObj rest)).
    cbn [snd] in Hthrow, Hret.
    destruct (pseudoClass key); [|destruct (pseudoElement key)];
      cbn [orb].
    + destruct (convertToCSS value) as [nested|err'] eqn:Hv; cbn [obind].
      * destruct (convertToCSS (JObj rest)) as [css|err''] eqn:Hrest; cbn [obind].
        -- split; [done|]. split; [intros _|by eexists].
           apply andb_true_iff. split; [apply Hret; by eexists|apply IHret; by eexists].
        -- split; [intros err [= <-]; by apply IHthrow|].
           split; [by intros [css [=]]|]. intros [_ Hc]%andb_true_iff.
           apply IHret in Hc as [css [=]].
      * split; [intros err [= <-]; by apply Hthrow|].
        split; [by intros [css [=]]|]. intros [Hc _]%andb_true_iff.
        apply Hret in Hc as [css [=]].
    + destruct (convertToCSS value) as [nested|err'] eqn:Hv; cbn [obind].
      * destruct (convertToCSS (JObj rest)) as [css|err''] eqn:Hrest; cbn [obind].
        -- split; [done|]. split; [intros _|by eexists].
           apply andb_true_iff. split; [apply Hret; by eexists|apply IHret; by eexists].
        -- split; [intros err [= <-]; by apply IHthrow|].
           split; [by intros [css [=]]|]. intros [_ Hc]%andb_true_iff.
           apply IHret in Hc as [css [=]].
      * split; [intros err [= <-]; by apply Hthrow|].
        split; [by intros [css [=]]|]. intros [Hc _]%andb_true_iff.
        apply Hret in Hc as [css [=]].
    + cbn [andb]. destruct (convertToCSS (JObj rest)) as [css|err''] eqn:Hrest; cbn [obind].
      * split; [done|]. split; [intros _; apply IHret; by eexists|by eexists].
      * split; [intros err [= <-]; by apply IHthrow|].
        split; [by intros [css [=]]|]. intros Hc. apply IHret in Hc as [css [=]].
Qed.

End CssFacts.

(** ** overrideDefaults on every component *)

Section OverrideFacts.
Context {Num : Type} {numbers : JsNumber Num}.

Implicit Types (v value component overrides : JsValue Num) (k key : string)
  (l props entries : list (string * JsValue Num)).

(** ** Notions the statements use *)

(** What the loop assigns to [component[key]] for the value the overrides
    hold: a new object with the properties the component has there, then
    those of the value, when the value is an object or [null], and else
    the value itself. *)
Definition assigned props key value : JsValue Num :=
  if typeofObject value
  then JObj (objectLiteral (ownProps (getProp key props) ++ ownProps value))
  else value.

(** One turn of the loop on the properties of the component. *)
Definition overrideStep props (kv : string * JsValue Num) : list (string * JsValue Num) :=
  setProp (fst kv) (assigned props (fst kv) (snd kv)) props.

(** The keys of [l] are in the order of [OrdinaryOwnPropertyKeys]. *)
Definition inOrder l : Prop :=
  StronglySorted (λ a b, (rank a ≤ rank b)%N) (fst <$> l).

(** ** Properties of an object *)

Lemma lookupProp_find k l :
  lookupProp k l = snd <$> List.find (λ kv, String.eqb (fst kv) k) l.
Proof. done. Qed.

Lemma lookupProp_app k l1 l2 :
  lookupProp k (l1 ++ l2) =
  match lookupProp k l1 with
  | Some x => Some x
  | None => lookupProp k l2
  end.
Proof.
  induction l1 as [|[k' x] l1 IH]; [done|].
  rewrite <- app_comm_cons, !lookupProp_cons. by destruct (String.eqb k' k).
Qed.

Lemma lookupProp_None k l : lookupProp k l = None ↔ k ∉ fst <$> l.
Proof.
  induction l as [|[k' x] l IH].
  - split; [intros _ H; by apply elem_of_nil in H|done].
  - rewrite lookupProp_cons, fmap_cons, not_elem_of_cons. cbn [fst].
    destruct (String.eqb k' k) eqn:Hk.
    + apply String.eqb_eq in Hk as ->. split; [done|]. by intros [[] _].
    + apply String.eqb_neq in Hk. rewrite IH. split; [|by intros [_ ?]].
      intros Hnot. split; [|done]. by intros ->.
Qed.

Lemma lookupProp_reverse k l :
  NoDup (fst <$> l) → lookupProp k (reverse l) = lookupProp k l.
Proof. intros H. unfold lookupProp. by rewrite (find_reverse_NoDup fst l k H). Qed.

Lemma keys_replaceProp k v l : fst <$> replaceProp k v l = fst <$> l.
Proof.
  induction l as [|[k' x] l IH]; [done|]. cbn [replaceProp].
  destruct (String.eqb k' k) eqn:Hk.
  - apply String.eqb_eq in Hk as ->. by rewrite !fmap_cons.
  - by rewrite !fmap_cons, IH.
Qed.

Lemma keys_addProp k v l : fst <$> addProp k v l ≡ₚ k :: (fst <$> l).
Proof.
  induction l as [|[k' x] l IH]; [done|]. cbn [addProp].
  destruct (rank k <? rank k')%N; [done|].
  rewrite !fmap_cons, IH. cbn [fst]. apply Permutation_swap.
Qed.

(** A key that is no array index has the highest rank there is. *)
Lemma rank_le k : (rank k ≤ 4294967295)%N.
Proof.
  unfold rank, arrayIndex. destruct k as [|a k]; [done|].
  destruct (_ && _); [done|]. destruct (digits _ _) as [n|]; [|done].
  destruct (n <=? 4294967294)%N eqn:Hn; [|done]. apply N.leb_le in Hn. cbn. lia.
Qed.

Lemma rank_other k : arrayIndex k = None → rank k = 4294967295%N.
Proof. unfold rank. by intros ->. Qed.

(** A new key of a rank no lower than the ranks of the keys there are goes
    to the end. *)
Lemma addProp_last k v l :
  (∀ k', k' ∈ fst <$> l → (rank k' ≤ rank k)%N) → addProp k v l = l ++ [(k, v)].
Proof.
  induction l as [|[k' x] l IH]; intros Hle; [done|]. cbn [addProp].
  assert ((rank k <? rank k')%N = false) as ->.
  { apply N.ltb_ge, Hle. rewrite fmap_cons. by left. }
  rewrite IH; [done|]. intros j Hj. apply Hle. rewrite fmap_cons. by right.
Qed.

Lemma keys_setProp_in k v l : k ∈ fst <$> l → fst <$> setProp k v l = fst <$> l.
Proof.
  intros Hin. unfold setProp. destruct (lookupProp k l) eqn:Hk.
  - apply keys_replaceProp.
  - by apply lookupProp_None in Hk.
Qed.

Lemma keys_setProp_new k v l :
  k ∉ fst <$> l → arrayIndex k = None → fst <$> setProp k v l = (fst <$> l) ++ [k].
Proof.
  intros Hnot Hk. unfold setProp. rewrite (proj2 (lookupProp_None k l) Hnot).
  rewrite addProp_last; [by rewrite fmap_app|].
  intros k' _. rewrite (rank_other _ Hk). apply rank_le.
Qed.

Lemma NoDup_setProp k v l : NoDup (fst <$> l) → NoDup (fst <$> setProp k v l).
Proof.
  intros H. unfold setProp. destruct (lookupProp k l) eqn:Hk.
  - by rewrite keys_replaceProp.
  - rewrite keys_addProp. apply NoDup_cons. split; [|done]. by apply lookupProp_None.
Qed.

Lemma inOrder_addProp k v l : inOrder l → inOrder (addProp k v l).
Proof.
  unfold inOrder. induction l as [|[k' x] l IH]; intros Hl.
  - cbn. repeat constructor.
  - cbn [addProp]. rewrite fmap_cons in Hl. apply StronglySorted_inv in Hl as [Hl Hk'].
    destruct (rank k <? rank k')%N eqn:Hlt.
    + apply N.ltb_lt in Hlt. rewrite !fmap_cons. cbn [fst].
      constructor; [by constructor|]. constructor; [lia|].
      eapply Forall_impl; [exact Hk'|]. cbn. intros j Hj. lia.
    + apply N.ltb_ge in Hlt. rewrite fmap_cons. cbn [fst].
      constructor; [by apply IH|]. rewrite keys_addProp. by constructor.
Qed.

Lemma inOrder_setProp k v l : inOrder l → inOrder (setProp k v l).
Proof.
  intros Hl. unfold setProp. destruct (lookupProp k l).
  - unfold inOrder. by rewrite keys_replaceProp.
  - by apply inOrder_addProp.
Qed.

Lemma inOrder_app_cons l1 k v l2 :
  inOrder (l1 ++ (k, v) :: l2) → ∀ k', k' ∈ fst <$> l1 → (rank k' ≤ rank k)%N.
Proof.
  unfold inOrder. induction l1 as [|[k0 x0] l1 IH]; intros Hl k' Hk'.
  - by apply elem_of_nil in Hk'.
  - rewrite <- app_comm_cons, fmap_cons in Hl. apply StronglySorted_inv in Hl as [Hl Hk0].
    rewrite fmap_cons in Hk'. apply elem_of_cons in Hk' as [->|Hk']; [|by apply IH].
    rewrite Forall_forall in Hk0. apply Hk0. rewrite fmap_app, fmap_cons.
    apply elem_of_app. right. by left.
Qed.

(** Two objects with the same keys in the same order and the same value
    under every key are the same. *)
Lemma props_ext l1 l2 :
  NoDup (fst <$> l1) → fst <$> l1 = fst <$> l2 →
  (∀ k, lookupProp k l1 = lookupProp k l2) → l1 = l2.
Proof.
  revert l2. induction l1 as [|[k x] l1 IH]; intros [|[k' x'] l2];
    rewrite ?fmap_cons, ?fmap_nil; cbn [fst]; try done.
  intros [Hk Hl]%NoDup_cons [= <- Hkeys] Hlook. f_equal.
  - specialize (Hlook k). rewrite !lookupProp_cons, String.eqb_refl in Hlook.
    by injection Hlook as ->.
  - apply IH; [done|done|]. intros j. specialize (Hlook j).
    rewrite !lookupProp_cons in Hlook. destruct (String.eqb k j) eqn:Hj; [|done].
    apply String.eqb_eq in Hj as <-.
    rewrite (proj2 (lookupProp_None k l1) Hk).
    rewrite Hkeys in Hk. by rewrite (proj2 (lookupProp_None k l2) Hk).
Qed.

(** ** Properties defined in turn *)

Lemma foldl_setProp_lookup entries l j :
  lookupProp j (foldl (λ acc kv, setProp (fst kv) (snd kv) acc) l entries) =
  match lookupProp j (reverse entries) with
  | Some x => Some x
  | None => lookupProp j l
  end.
Proof.
  revert l. induction entries as [|[k x] entries IH]; intros l; [done|].
  cbn [foldl fst snd]. rewrite IH, reverse_cons, lookupProp_app.
  destruct (lookupProp j (reverse entries)); [done|].
  rewrite lookupProp_cons. destruct (String.eqb k j) eqn:Hk.
  - apply String.eqb_eq in Hk as ->. apply lookupProp_setProp_eq.
  - apply String.eqb_neq in Hk. rewrite (lookupProp_setProp_ne _ _ _ _ Hk).
    by destruct (lookupProp j l).
Qed.

Lemma foldl_setProp_NoDup entries l :
  NoDup (fst <$> l) →
  NoDup (fst <$> foldl (λ acc kv, setProp (fst kv) (snd kv) acc) l entries).
Proof.
  revert l. induction entries as [|[k x] entries IH]; intros l Hl; [done|].
  cbn [foldl]. apply IH. by apply NoDup_setProp.
Qed.

Lemma foldl_setProp_keys entries l :
  (∀ k, k ∈ fst <$> entries → k ∈ fst <$> l) →
  fst <$> foldl (λ acc kv, setProp (fst kv) (snd kv) acc) l entries = fst <$> l.
Proof.
  revert l. induction entries as [|[k x] entries IH]; intros l Hin; [done|].
  cbn [foldl fst snd].
  assert (fst <$> setProp k x l = fst <$> l) as Hkeys.
  { apply keys_setProp_in, Hin. by left. }
  rewrite IH; [done|]. intros j Hj. rewrite Hkeys. apply Hin. by right.
Qed.

Lemma objectLiteral_lookup entries j :
  lookupProp j (objectLiteral entries) = lookupProp j (reverse entries).
Proof.
  unfold objectLiteral. rewrite foldl_setProp_lookup.
  by destruct (lookupProp j (reverse entries)).
Qed.

Lemma objectLiteral_NoDup entries : NoDup (fst <$> objectLiteral entries).
Proof. apply foldl_setProp_NoDup. constructor. Qed.

Lemma foldl_setProp_inOrder entries l :
  inOrder l → inOrder (foldl (λ acc kv, setProp (fst kv) (snd kv) acc) l entries).
Proof.
  revert l. induction entries as [|[k x] entries IH]; intros l Hl; [done|].
  cbn [foldl]. apply IH. by apply inOrder_setProp.
Qed.

Lemma objectLiteral_inOrder entries : inOrder (objectLiteral entries).
Proof. apply foldl_setProp_inOrder. constructor. Qed.

(** The properties of an object, defined in turn on an empty object, make
    the same object. *)
Lemma objectLiteral_fixed l : NoDup (fst <$> l) → inOrder l → objectLiteral l = l.
Proof.
  intros Hl Hsorted. unfold objectLiteral.
  assert (∀ acc, NoDup (fst <$> (acc ++ l)) → inOrder (acc ++ l) →
            foldl (λ acc kv, setProp (fst kv) (snd kv) acc) acc l = acc ++ l) as H.
  { clear Hl Hsorted. induction l as [|[k x] l IH]; intros acc Hacc Hord; cbn [foldl fst snd].
    - by rewrite app_nil_r.
    - assert (setProp k x acc = acc ++ [(k, x)]) as ->.
      { rewrite fmap_app, fmap_cons in Hacc. apply NoDup_app in Hacc as (_ & Hk & _).
        assert (k ∉ fst <$> acc) as Hnot.
        { intros Hin. apply (Hk k Hin). by left. }
        unfold setProp. rewrite (proj2 (lookupProp_None k acc) Hnot).
        apply addProp_last. by apply (inOrder_app_cons acc k x l). }
      rewrite IH; by rewrite <- app_assoc. }
  by apply (H []).
Qed.

(** Spreading the same object a second time changes nothing. *)
Lemma objectLiteral_again l1 l2 :
  objectLiteral (objectLiteral (l1 ++ l2) ++ l2) = objectLiteral (l1 ++ l2).
Proof.
  apply props_ext.
  - apply objectLiteral_NoDup.
  - unfold objectLiteral at 1. rewrite foldl_app.
    fold (objectLiteral (objectLiteral (l1 ++ l2))).
    rewrite (objectLiteral_fixed _ (objectLiteral_NoDup _) (objectLiteral_inOrder _)).
    apply foldl_setProp_keys. intros k Hk.
    destruct (lookupProp k (objectLiteral (l1 ++ l2))) as [x|] eqn:Hx.
    + apply dec_stable. intros Hnot. apply lookupProp_None in Hnot. congruence.
    + rewrite objectLiteral_lookup, reverse_app, lookupProp_app in Hx.
      destruct (lookupProp k (reverse l2)) as [y|] eqn:Hfind; [done|].
      apply lookupProp_None in Hfind. destruct Hfind.
      rewrite fmap_reverse. by apply elem_of_reverse.
  - intros j. rewrite !objectLiteral_lookup, !reverse_app, !lookupProp_app.
    destruct (lookupProp j (reverse l2)) as [y|] eqn:Hfind; [done|].
    rewrite (lookupProp_reverse _ _ (objectLiteral_NoDup _)).
    by rewrite objectLiteral_lookup, reverse_app, lookupProp_app, Hfind.
Qed.

(** ** The loop of overrideDefaults *)

Lemma overrideLoop_object entries props :
  overrideLoop entries (JObj props) = Return (JObj (foldl overrideStep props entries)).
Proof.
  revert props. induction entries as [|[k x] entries IH]; intros props; [done|].
  cbn [overrideLoop foldl]. apply IH.
Qed.

Lemma assigned_setProp_ne k j x value props :
  k ≠ j → assigned (setProp k x props) j value = assigned props j value.
Proof. intros Hne. unfold assigned. by rewrite getProp_setProp_ne. Qed.

Lemma foldl_override_lookup entries props j :
  NoDup (fst <$> entries) →
  lookupProp j (foldl overrideStep props entries) =
  match lookupProp j entries with
  | Some value => Some (assigned props j value)
  | None => lookupProp j props
  end.
Proof.
  revert props. induction entries as [|[k x] entries IH]; intros props; [done|].
  rewrite fmap_cons, NoDup_cons. cbn [fst]. intros [Hk Hrest].
  cbn [foldl]. rewrite (IH _ Hrest), lookupProp_cons. unfold overrideStep at 1 2.
  cbn [fst snd]. destruct (String.eqb k j) eqn:Hkj.
  - apply String.eqb_eq in Hkj as ->.
    rewrite (proj2 (lookupProp_None j entries) Hk). apply lookupProp_setProp_eq.
  - apply String.eqb_neq in Hkj.
    destruct (lookupProp j entries) as [value|].
    + by rewrite assigned_setProp_ne.
    + by apply lookupProp_setProp_ne.
Qed.

Lemma filter_ext_in (P Q : string → Prop) `{!∀ x, Decision (P x)} `{!∀ x, Decision (Q x)}
    (l : list string) :
  (∀ x, x ∈ l → P x ↔ Q x) → filter P l = filter Q l.
Proof.
  induction l as [|x l IH]; intros Hext; [done|]. rewrite !filter_cons.
  rewrite IH by (intros y Hy; apply Hext; by right).
  destruct (decide (P x)) as [HP|HP], (decide (Q x)) as [HQ|HQ]; try done.
  - destruct HQ. apply Hext; [by left|done].
  - destruct HP. apply Hext; [by left|done].
Qed.

Lemma filter_none (P : string → Prop) `{!∀ x, Decision (P x)} (l : list string) :
  (∀ x, x ∈ l → ¬ P x) → filter P l = [].
Proof.
  induction l as [|x l IH]; intros Hnone; [done|]. rewrite filter_cons.
  rewrite decide_False by (apply Hnone; by left).
  apply IH. intros y Hy. apply Hnone. by right.
Qed.

Lemma foldl_override_keys entries props :
  NoDup (fst <$> entries) →
  (∀ key, key ∈ fst <$> entries → arrayIndex key = None) →
  fst <$> foldl overrideStep props entries =
  (fst <$> props) ++ filter (λ k, k ∉ fst <$> props) (fst <$> entries).
Proof.
  revert props. induction entries as [|[k x] entries IH]; intros props.
  { intros _ _. cbn. by rewrite app_nil_r. }
  rewrite fmap_cons, NoDup_cons. cbn [fst]. intros [Hk Hrest] Hkeys.
  cbn [foldl]. rewrite (IH _ Hrest) by (intros j Hj; apply Hkeys; by right).
  unfold overrideStep. cbn [fst snd]. rewrite filter_cons.
  destruct (decide (k ∈ fst <$> props)) as [Hin|Hin].
  - rewrite decide_False by (intros Hnot; by apply Hnot).
    by rewrite keys_setProp_in.
  - rewrite decide_True by done.
    rewrite keys_setProp_new by (try done; apply Hkeys; by left).
    rewrite <- app_assoc. cbn [app]. do 2 f_equal.
    apply filter_ext_in. intros j Hj. rewrite elem_of_app, list_elem_of_singleton.
    split; [tauto|]. intros Hnot [Hp| ->]; [done|done].
Qed.

Lemma foldl_override_keys_in entries props :
  (∀ key, key ∈ fst <$> entries → key ∈ fst <$> props) →
  fst <$> foldl overrideStep props entries = fst <$> props.
Proof.
  revert props. induction entries as [|[k x] entries IH]; intros props Hin; [done|].
  cbn [foldl]. unfold overrideStep at 2. cbn [fst snd].
  assert (fst <$> setProp k (assigned props k x) props = fst <$> props) as Hkeys.
  { apply keys_setProp_in, Hin. by left. }
  rewrite IH; [done|]. intros j Hj. rewrite Hkeys. apply Hin. by right.
Qed.

Lemma foldl_override_NoDup entries props :
  NoDup (fst <$> props) → NoDup (fst <$> foldl overrideStep props entries).
Proof.
  revert props. induction entries as [|[k x] entries IH]; intros props Hp; [done|].
  cbn [foldl]. apply IH. by apply NoDup_setProp.
Qed.

(** X23.  For an object and overrides that are an object with ordinary keys (no
    array index, whose place is among the array indices, and not
    [__proto__]), [overrideDefaults] returns the component with its
    properties in their order, followed by the new keys of the overrides
    in theirs.  A key the overrides do not have keeps its value.  A key
    they have with a value that is no object gets that value.  A key they
    have with an object (or [null]) gets a new object: the properties the
    component has under the key, with those of the value over them.  The
    merge is one level deep: a property of the value replaces the property
    of the component whole. *)
Theorem overrideDefaults_lookup props overridden :
  NoDup (fst <$> overridden) →
  (∀ key, key ∈ fst <$> overridden → arrayIndex key = None ∧ key ≠ "__proto__") →
  ∃ props',
    overrideDefaults (JObj props) (JObj overridden) = Return (JObj props') ∧
    fst <$> props' =
      (fst <$> props) ++ filter (λ k, k ∉ fst <$> props) (fst <$> overridden) ∧
    (∀ key, lookupProp key overridden = None →
       lookupProp key props' = lookupProp key props) ∧
    (∀ key value, lookupProp key overridden = Some value → typeofObject value = false →
       lookupProp key props' = Some value) ∧
    (∀ key value, lookupProp key overridden = Some value → typeofObject value = true →
       ∃ merged,
         lookupProp key props' = Some (JObj merged) ∧
         NoDup (fst <$> merged) ∧
         (NoDup (fst <$> ownProps (getProp key props)) →
          NoDup (fst <$> ownProps value) →
          ∀ j, lookupProp j merged =
               match lookupProp j (ownProps value) with
               | Some x => Some x
               | None => lookupProp j (ownProps (getProp key props))
               end)).
Proof.
  intros Hnodup Hkeys. exists (foldl overrideStep props overridden).
  split; [apply overrideLoop_object|].
  split; [apply foldl_override_keys; [done|]; intros key Hkey; by apply Hkeys|].
  split; [|split].
  - intros key Hkey. by rewrite foldl_override_lookup, Hkey.
  - intros key value Hkey Htype. rewrite foldl_override_lookup, Hkey by done.
    unfold assigned. by rewrite Htype.
  - intros key value Hkey Htype. eexists. split; [|split].
    + rewrite foldl_override_lookup, Hkey by done. unfold assigned. by rewrite Htype.
    + apply objectLiteral_NoDup.
    + intros Hold Hnew j.
      rewrite objectLiteral_lookup, reverse_app, lookupProp_app.
      by rewrite !lookupProp_reverse.
Qed.

(** X24.  Overriding a second time with the same overrides changes nothing. *)
Theorem overrideDefaults_idempotent props overridden component' :
  NoDup (fst <$> props) →
  NoDup (fst <$> overridden) →
  overrideDefaults (JObj props) (JObj overridden) = Return component' →
  overrideDefaults component' (JObj overridden) = Return component'.
Proof.
  intros Hprops Hnodup. unfold overrideDefaults. cbn [falsy ownProps].
  rewrite overrideLoop_object. intros [= <-]. rewrite overrideLoop_object. do 2 f_equal.
  set (once := foldl overrideStep props overridden).
  assert (∀ j value, lookupProp j overridden = Some value →
            assigned once j value = assigned props j value) as Hassigned.
  { intros j value Hj. unfold assigned. destruct (typeofObject value) eqn:Htype; [|done].
    assert (getProp j once = assigned props j value) as ->.
    { unfold getProp, once. by rewrite foldl_override_lookup, Hj. }
    unfold assigned. rewrite Htype. cbn [ownProps]. by rewrite objectLiteral_again. }
  apply props_ext.
  - by apply foldl_override_NoDup, foldl_override_NoDup.
  - apply foldl_override_keys_in. intros j Hj.
    apply dec_stable. intros Hnot. apply lookupProp_None in Hnot.
    unfold once in Hnot. rewrite foldl_override_lookup in Hnot by done.
    destruct (lookupProp j overridden) as [value|] eqn:Hlook; [done|].
    by apply lookupProp_None in Hlook.
  - intros j. rewrite foldl_override_lookup by done.
    destruct (lookupProp j overridden) as [value|] eqn:Hj; [|done].
    unfold once at 2. rewrite foldl_override_lookup, Hj by done. f_equal.
    by apply Hassigned.
Qed.

End OverrideFacts.

(** ** The theme manager on the small theme *)

Import Palette.

(** *** C7 *)

Lemma fill_if_absent_idempotent_witness :
  exec fillPass dracula = (Return tt, filled) ∧
  own ["borderRadius"] dracula = Some (JStr "8px") ∧
  own ["borderRadius"] filled = Some (JStr "8px") ∧
  own ["components"; "skeleton"; "bg"] filled = Some (JStr "#123456") ∧
  (∃ props, own ["colors"; "state"] filled = Some (JObj props)) ∧
  exec fillPass filled = (Return tt, filled).
Proof.
  assert (exec fillPass dracula = (Return tt, filled)) as H by (vm_compute; reflexivity).
  destruct (fill_if_absent_idempotent borderRadius boxShadow fontOther scrollbar
              transition transparency (fontValue (Some mono)) dracula filled H)
    as (Hprim & Hobj & Hidem).
  split; [exact H|]. split; [reflexivity|].
  split; [apply Hprim; [reflexivity|reflexivity|discriminate]|].
  split; [apply Hprim; [reflexivity|reflexivity|discriminate]|].
  split; [eapply Hobj; reflexivity|exact Hidem].
Defined.

(** *** C8 *)

Lemma setTheme_eq params m :
  setTheme params m =
    Theme.set borderRadius boxShadow fontOther scrollbar transition transparency params m.
Proof. reflexivity. Qed.

(** With nothing stored the first theme and the first font are set; with a
    stored choice the stored ones are, here the second theme and the second
    font. *)
Lemma set_fallback_witness :
  ∃ m1 m2,
    (setTheme (mkParams None None) fresh = (Return tt, m1) ∧
     own ["name"] (_theme m1) = Some (JStr "dracula") ∧
     _font m1 = Some mono ∧
     localStorage m1 = {[ _THEME_KEY := "dracula"; _FONT_KEY := "JetBrains Mono" ]}) ∧
    (setTheme (mkParams None None) returning = (Return tt, m2) ∧
     own ["name"] (_theme m2) = Some (JStr "dracula") ∧
     _font m2 = Some sans ∧
     localStorage m2 = localStorage returning).
Proof.
  eexists _, _. split; (split; [rewrite setTheme_eq|]).
  - eapply (proj2 (proj1 (set_fallback borderRadius boxShadow fontOther scrollbar
                            transition transparency (mkParams None None) fresh)
                     "dracula" "JetBrains Mono"
                     (fallback_first _ _ _ _ eq_refl eq_refl eq_refl)
                     (fallback_first _ _ _ _ eq_refl eq_refl eq_refl))).
    + vm_compute. reflexivity.
    + vm_compute. reflexivity.
    + vm_compute. reflexivity.
    + vm_compute. reflexivity.
    + vm_compute. reflexivity.
  - split; [|split]; vm_compute; reflexivity.
  - eapply (proj2 (proj1 (set_fallback borderRadius boxShadow fontOther scrollbar
                            transition transparency (mkParams None None) returning)
                     "dracula" "Inter"
                     (fallback_stored _ _ _ _ eq_refl eq_refl)
                     (fallback_stored _ _ _ _ eq_refl eq_refl))).
    + vm_compute. reflexivity.
    + vm_compute. reflexivity.
    + vm_compute. reflexivity.
    + vm_compute. reflexivity.
    + vm_compute. reflexivity.
  - split; [|split]; vm_compute; reflexivity.
Defined.

(** *** C6 *)

Example kebabCase_ex :
  kebabCase <$> ["hover"; "focusWithin"; "borderRadius"; "color"] =
    ["hover"; "focus-within"; "border-radius"; "color"].
Proof. reflexivity. Qed.

Lemma convertToCSS_rules_witness :
  convertToCSS kebabCase
    (JObj [("bg", JStr "red"); ("hover", JObj [("color", JStr "blue")])] : Value) =
    Return "background:red;&:hover{color:blue;}" ∧
  convertToCSS kebabCase
    (JObj [("focusWithin", JObj [("borderRadius", JNum (Some 4%Z))]);
           ("after", JObj [("content", JObj [])])] : Value) =
    Return "&:focus-within{border-radius:4;}&::after{}".
Proof.
  pose proof (convertToCSS_rules (Num := option Z) kebabCase)
    as (_ & Hclass & Helem & Hother & Hskip & Hexample).
  split; [exact (Hexample eq_refl eq_refl)|].
  rewrite Hclass by (rewrite !elem_of_cons; tauto).
  rewrite Hother by (rewrite !elem_of_cons, elem_of_nil; intuition discriminate).
  rewrite Helem by (rewrite !elem_of_cons; tauto).
  rewrite Hskip;
    [reflexivity
    |rewrite !elem_of_cons, elem_of_nil; intuition discriminate
    |discriminate|discriminate].
Defined.

(** A theme of the list is set whole: the chosen theme is filled, the
    font is the first of the list, both choices are stored and both events
    are dispatched. *)
Example set_fresh :
  ∃ m, setTheme (mkParams None None) fresh = (Return tt, m) ∧
    _theme m = snd (exec fillPass (default JUndefined
                       (match writePath ["name"] (JStr "dracula") dracula with
                        | Return t => Some t | Throw _ => None end))) ∧
    _font m = Some mono ∧
    localStorage m = {[ _THEME_KEY := "dracula"; _FONT_KEY := "JetBrains Mono" ]} ∧
    length (dispatched m) = 2%nat.
Proof. eexists. split; [vm_compute; reflexivity|]. repeat split; vm_compute; reflexivity. Qed.

(** *** The filling pass on the small theme *)

Lemma fill_leaves_alone_witness :
  own ["name"] filled = None ∧
  own ["isDark"] filled = Some (JBool true) ∧
  own ["colors"; "default"; "primary"] filled = Some (JStr "#BD93F9") ∧
  own ["colors"; "state"; "error"; "color"] filled = Some (JStr "#F55").
Proof.
  assert (exec fillPass dracula = (Return tt, filled)) as H by (vm_compute; reflexivity).
  pose proof (fill_leaves_alone borderRadius boxShadow fontOther scrollbar transition
                transparency (fontValue (Some mono)) dracula _ filled H) as Hkept.
  split; [|split; [|split]].
  - exact (Hkept ["name"] (or_introl eq_refl)).
  - exact (Hkept ["isDark"] (or_intror (or_introl eq_refl))).
  - exact (Hkept ["colors"; "default"; "primary"]
             (or_intror (or_intror (or_introl (ex_intro _ ["primary"] eq_refl))))).
  - exact (Hkept ["colors"; "state"; "error"; "color"]
             (or_intror (or_intror (or_intror (ex_intro _ "error" eq_refl))))).
Defined.

Lemma fill_needs_colors_witness :
  ∃ partial, exec fillPass (JObj [("isDark", JBool true)]) = (Throw TypeError, partial).
Proof.
  exact (proj2 (fill_needs_colors borderRadius boxShadow fontOther scrollbar transition
                  transparency (fontValue (Some mono)) (JObj [("isDark", JBool true)]))
           JUndefined eq_refl eq_refl).
Defined.

Lemma fill_defaults_present_witness :
  ∃ v, own ["components"; "input"; "padding"] filled = Some v ∧ nullish v = false.
Proof.
  assert (exec fillPass dracula = (Return tt, filled)) as H by (vm_compute; reflexivity).
  exact (proj2 (fill_defaults_present borderRadius boxShadow fontOther scrollbar transition
                  transparency (fontValue (Some mono)) dracula filled H
                  (mkStmt IfNullish ["components"; "input"; "padding"]
                     (Lit (JStr "0.25rem 0.5rem")))
                  (list_elem_of_lookup_2 fillPass 39 _ eq_refl))
           eq_refl).
Defined.

(** The theme gives a border radius of its own, and the skeleton, which
    gives none, gets that one and not the default of the module. *)
Lemma fill_absent_gets_default_witness :
  own ["components"; "skeleton"; "borderRadius"] dracula = None ∧
  own ["components"; "skeleton"; "borderRadius"] filled = Some (JStr "8px").
Proof.
  split; [reflexivity|].
  assert (exec fillPass dracula = (Return tt, filled)) as H by (vm_compute; reflexivity).
  destruct (fill_absent_gets_default borderRadius boxShadow fontOther scrollbar transition
              transparency (fontValue (Some mono)) dracula filled
              (mkStmt IfNullish ["components"; "skeleton"; "borderRadius"]
                 (FromTheme [("borderRadius", false)]))
              H (list_elem_of_lookup_2 fillPass 18 _ eq_refl)
              ltac:(intros v Hv; discriminate Hv))
    as (v & v' & Heval & Hown & Hkept).
  assert (v = JStr "8px") as -> by (vm_compute in Heval; by injection Heval).
  destruct Hkept as [->|[[props [=]] _]]. exact Hown.
Defined.

(** On the small theme every field the pass fills is present. *)
Example fill_all_present :
  length fillPass = 311%nat ∧
  forallb (λ s, match own (target s) filled with
                | Some v => negb (nullish v)
                | None => false
                end) fillPass = true.
Proof. split; vm_compute; reflexivity. Qed.

(** *** set and create on the small theme *)

Lemma set_outcome_witness :
  ∃ m,
    setTheme (mkParams None None) fresh = (Return tt, m) ∧
    localStorage m = {[ _THEME_KEY := "dracula"; _FONT_KEY := "JetBrains Mono" ]} ∧
    dispatched m = [(THEME_SET, _theme m); (THEME_FONT_SET, fontValue (Some mono))].
Proof.
  assert (∃ m, Theme.set borderRadius boxShadow fontOther scrollbar transition transparency
                 (mkParams None None) fresh = (Return tt, m) ∧
               _font m = Some mono) as (m & Hset & Hfont)
    by (eexists; split; vm_compute; reflexivity).
  pose proof (set_outcome borderRadius boxShadow fontOther scrollbar transition
                transparency (mkParams None None) fresh (Return tt) m Hset)
    as (_ & _ & n & f & Hn & Hf & Hstore & Hevents).
  exists m. rewrite setTheme_eq. split; [exact Hset|].
  injection Hn as <-. injection Hf as <-.
  split; [by rewrite Hstore|]. by rewrite Hevents, Hfont.
Defined.

Lemma set_unknown_theme_witness :
  setTheme (mkParams None None) stale = (Throw TypeError, stale) ∧
  create borderRadius boxShadow fontOther scrollbar transition transparency
    themes [mono] stale = (Throw TypeError, stale).
Proof.
  rewrite setTheme_eq. unfold Theme.create.
  split; [|change (mkManager _ _ _ _ _ _) with stale];
    apply (set_unknown_theme borderRadius boxShadow fontOther scrollbar transition
             transparency (mkParams None None) stale "solarized" eq_refl);
    intros importable Hin%list_elem_of_In; destruct Hin as [<-|[]]; discriminate.
Defined.

Lemma create_empty_list_witness :
  create borderRadius boxShadow fontOther scrollbar transition transparency
    [] [mono] fresh =
    (Throw TypeError, mkManager JUndefined None [] [mono] ∅ []).
Proof.
  exact (create_empty_list borderRadius boxShadow fontOther scrollbar transition
           transparency [] [mono] fresh (or_introl (conj eq_refl eq_refl))).
Defined.

Lemma set_again_witness :
  ∃ m m',
    setTheme (mkParams (Some "dracula") (Some "JetBrains Mono")) fresh = (Return tt, m) ∧
    setTheme (mkParams None None) m = (Return tt, m') ∧
    _theme m' = _theme m ∧ _font m' = Some mono ∧ localStorage m' = localStorage m.
Proof.
  assert (∃ m, Theme.set borderRadius boxShadow fontOther scrollbar transition transparency
                 (mkParams (Some "dracula") (Some "JetBrains Mono")) fresh =
                 (Return tt, m) ∧
               _font m = Some mono) as (m & Hset & Hfont)
    by (eexists; split; vm_compute; reflexivity).
  destruct (set_again borderRadius boxShadow fontOther scrollbar transition transparency
              (mkParams (Some "dracula") (Some "JetBrains Mono")) fresh m Hset)
    as (m' & Hagain & Htheme & Hfont' & Hstore).
  exists m, m'. rewrite !setTheme_eq.
  split; [exact Hset|]. split; [exact Hagain|]. split; [exact Htheme|].
  split; [|exact Hstore]. rewrite Hfont'. exact Hfont.
Defined.

(** *** overrideDefaults and convertToCSS on small components *)

Example overrideDefaults_ex :
  overrideDefaults button overrides = Return overridden ∧
  overrideDefaults button JUndefined = Return button ∧
  overrideDefaults JUndefined overrides = Throw TypeError ∧
  overrideDefaults (JUndefined : Value) (JObj []) = Return JUndefined.
Proof. repeat split. Qed.

(** A new key that is an array index goes before the other keys, and array
    indices go in ascending order. *)
Example overrideDefaults_index_keys :
  overrideDefaults (JObj [("bg", JStr "red")] : Value)
    (JObj [("9", JStr "nine"); ("10", JStr "ten"); ("color", JStr "black");
           ("01", JStr "one")]) =
  Return (JObj [("9", JStr "nine"); ("10", JStr "ten"); ("bg", JStr "red");
                ("color", JStr "black"); ("01", JStr "one")]).
Proof. reflexivity. Qed.

Lemma overrideDefaults_lookup_witness :
  ∃ props',
    overrideDefaults button overrides = Return (JObj props') ∧
    fst <$> props' = ["bg"; "hover"; "color"] ∧
    lookupProp "bg" props' = Some (JStr "red") ∧
    lookupProp "color" props' = Some (JStr "black") ∧
    ∃ merged,
      lookupProp "hover" props' = Some (JObj merged) ∧
      lookupProp "color" merged = Some (JStr "green") ∧
      lookupProp "bg" merged = Some (JStr "white").
Proof.
  destruct (overrideDefaults_lookup
              [("bg", JStr "red");
               ("hover", JObj [("color", JStr "blue"); ("bg", JStr "white")])]
              [("color", JStr "black"); ("hover", JObj [("color", JStr "green")])])
    as (props' & Hret & Hkeys & Hnone & Hprim & Hobj).
  { repeat constructor; rewrite ?elem_of_cons, ?elem_of_nil; intuition discriminate. }
  { intros key Hkey. rewrite !fmap_cons, fmap_nil, !elem_of_cons, elem_of_nil in Hkey.
    destruct Hkey as [->|[->|[]]]; (split; [reflexivity|discriminate]). }
  exists props'. split; [exact Hret|]. split; [by rewrite Hkeys|].
  split; [by rewrite (Hnone "bg" eq_refl)|].
  split; [exact (Hprim "color" _ eq_refl eq_refl)|].
  destruct (Hobj "hover" _ eq_refl eq_refl) as (merged & Hhover & _ & Hmerged).
  exists merged. split; [exact Hhover|].
  assert (NoDup (fst <$> [("color", JStr "blue" : Value); ("bg", JStr "white")])) as Hold.
  { repeat constructor; rewrite ?elem_of_cons, ?elem_of_nil; intuition discriminate. }
  assert (NoDup (fst <$> [("color", JStr "green" : Value)])) as Hnew.
  { repeat constructor; rewrite ?elem_of_nil; tauto. }
  split; [exact (Hmerged Hold Hnew "color")|exact (Hmerged Hold Hnew "bg")].
Defined.

Lemma overrideDefaults_idempotent_witness :
  overrideDefaults button overrides = Return overridden ∧
  overrideDefaults overridden overrides = Return overridden.
Proof.
  split; [reflexivity|].
  apply (overrideDefaults_idempotent
           [("bg", JStr "red");
            ("hover", JObj [("color", JStr "blue"); ("bg", JStr "white")])]
           [("color", JStr "black"); ("hover", JObj [("color", JStr "green")])]
           overridden).
  - repeat constructor; rewrite ?elem_of_cons, ?elem_of_nil; intuition discriminate.
  - repeat constructor; rewrite ?elem_of_cons, ?elem_of_nil; intuition discriminate.
  - reflexivity.
Defined.

Lemma convertToCSS_app_witness :
  convertToCSS kebabCase overridden =
    Return "background:red;&:hover{color:green;background:white;}color:black;".
Proof.
  pose proof (convertToCSS_app (Num := option Z) kebabCase
                [("bg", JStr "red");
                 ("hover", JObj [("color", JStr "green"); ("bg", JStr "white")])]
                [("color", JStr "black")]) as H.
  exact H.
Defined.

Lemma convertToCSS_throws_witness :
  convertToCSS kebabCase (JObj [("bg", JStr "red"); ("hover", JUndefined)] : Value) =
    Throw TypeError ∧
  ∃ css,
    convertToCSS kebabCase (JObj [("bg", JStr "red"); ("border", JUndefined)] : Value) =
      Return css.
Proof.
  split; [reflexivity|].
  exact (proj2 (proj2 (convertToCSS_throws (Num := option Z) kebabCase
                         (JObj [("bg", JStr "red"); ("border", JUndefined)])))
           eq_refl).
Defined.

End ThemeSpec.
